(** * estd / eobject: a shallow embedding of the object dictionary

    The development follows the C++ sources:
    - [estd.hpp]    : [find_if], [find_if_not], [lower_bound], heap sort;
    - [estring.hpp] : [string_view], trimming and tokenising;
    - [eobject.hpp] / [eobject.cpp] : errors, data types, set strategies,
      [Object], [Record], [Array], [Dictionary];
    - [index.hpp]   : indices of named values;
    - [eformat.cpp] / [console.cpp] : parsing of numbers and quoted strings.

    Conventions.  Array positions and counts of the generic algorithms are
    [nat] (offsets from the iterator [first]); the integer fields of the
    object model ([uint8_t], [uint16_t], [int32_t], [size_t]) are [Z];
    memory is a list of bytes.  A computation that performs an access
    outside an array, or dereferences a null pointer, has no defined result
    and is modelled by [None] (or [Fault]). *)

From stdpp Require Import base list numbers option sorting.
From Stdlib Require Import ZArith Lia ZifyNat.
From Stdlib.Strings Require Import Ascii.
From Stdlib.Strings Require String Byte.
Import ListNotations.
Import String.StringSyntax.

Ltac Zify.zify_post_hook ::= Z.to_euclidean_division_equations.

#[local] Arguments Nat.div : simpl never.
#[local] Arguments Nat.modulo : simpl never.
#[local] Arguments Nat.mul : simpl never.
#[local] Arguments Nat.sub : simpl never.

(* ================================================================== *)
(** * Part I: the program *)
(* ================================================================== *)

(** ** estd.hpp: generic algorithms *)

Section estd_algorithms.
Context {T : Type}.

(** [estd::find_if]: the distance from [first] to the first element that
    satisfies [pred] (or to [last]). *)
Fixpoint find_if (pred : T → bool) (s : list T) : nat :=
  match s with
  | [] => 0
  | c :: s' => if pred c then 0 else S (find_if pred s')
  end.

(** [estd::find_if_not]. *)
Fixpoint find_if_not (pred : T → bool) (s : list T) : nat :=
  match s with
  | [] => 0
  | c :: s' => if pred c then S (find_if_not pred s') else 0
  end.

(** [estd::lower_bound], specialised to random access: [first] is a
    position in [a], [count] the number of elements still considered.
    The loop [while (count > 0)] shrinks [count] at every turn, so it runs
    at most [count] times; [n] counts the turns that remain. *)
Fixpoint lower_bound_loop {V : Type} (comp : T → V → bool) (a : list T) (value : V)
    (n : nat) (first count : nat) {struct n} : option nat :=
  if bool_decide (0 < count) then
    match n with
    | 0 => None
    | S n' =>
        let step := count / 2 in
        let it := first + step in
        x ← a !! it;
        if comp x value
        then lower_bound_loop comp a value n' (S it) (count - (step + 1))
        else lower_bound_loop comp a value n' first step
    end
  else Some first.

(** [lower_bound(first, last, value, comp)] on the array [a]. *)
Definition lower_bound {V : Type} (a : list T) (first last : nat) (value : V)
    (comp : T → V → bool) : option nat :=
  let count := last - first in
  lower_bound_loop comp a value count first count.

(** *** Heap sort *)

Variable comp : T → T → bool.

(** Checked element write [a[i] = x]. *)
Definition put (a : list T) (i : nat) (x : T) : option (list T) :=
  if bool_decide (i < length a) then Some (<[i := x]> a) else None.

(** The child selection that [__sift_down] performs twice:
    [if ((child + 1) < len && comp( *cit, *(cit + 1))) { ++cit; ++child; }]. *)
Definition pick_child (len child : nat) (a : list T) : option nat :=
  if bool_decide (child + 1 < len) then
    l ← a !! child; r ← a !! (child + 1);
    Some (if comp l r then child + 1 else child)
  else Some child.

(** The [do ... while (!comp( *cit, top))] loop of [__sift_down].  [child]
    at least doubles at every turn and stays below [len], so [len] turns
    are enough; [n] counts the turns that remain. *)
Fixpoint sift_down_loop (n : nat) (len : nat) (top : T) (start child : nat)
    (a : list T) : option (list T) :=
  match n with
  | 0 => None
  | S n' =>
      c ← a !! child;
      a ← put a start c;
      let start := child in
      if bool_decide ((len - 2) / 2 < child) then put a start top
      else
        child ← pick_child len (2 * child + 1) a;
        c ← a !! child;
        if negb (comp c top) then sift_down_loop n' len top start child a
        else put a start top
  end.

(** [estd::detail::__sift_down(first, len, start, comp)]; [start] is the
    offset [start - first].  The subtraction [len - 2] is only evaluated
    when [2 <= len]. *)
Definition sift_down (len start : nat) (a : list T) : option (list T) :=
  let child := start in
  if bool_decide (len < 2) || bool_decide ((len - 2) / 2 < child) then Some a
  else
    child ← pick_child len (2 * child + 1) a;
    c ← a !! child;
    s ← a !! start;
    if comp c s then Some a
    else sift_down_loop len len s start child a.

(** [estd::detail::iter_swap]. *)
Definition iter_swap (i j : nat) (a : list T) : option (list T) :=
  x ← a !! i; y ← a !! j;
  a ← put a i y; put a j x.

(** [estd::detail::__pop_heap(first, last, len, comp)] with
    [last = first + len]. *)
Definition pop_heap (len : nat) (a : list T) : option (list T) :=
  if bool_decide (1 < len) then
    a ← iter_swap 0 (len - 1) a;
    sift_down (len - 1) 0 a
  else Some a.

(** The loop of [estd::make_heap]:
    [for (start = (N - 2) / 2; start >= 0; --start)].  For [N = 1] the C++
    quotient [(1 - 2) / 2] truncates to [0], as does the [nat] expression. *)
Fixpoint make_heap_loop (N : nat) (start : nat) (a : list T) : option (list T) :=
  a ← sift_down N start a;
  match start with
  | 0 => Some a
  | S start' => make_heap_loop N start' a
  end.

Definition make_heap (a : list T) : option (list T) :=
  let N := length a in
  if bool_decide (N < 1) then Some a
  else make_heap_loop N ((N - 2) / 2) a.

(** The loop of [estd::sort_heap]:
    [for (n = last - first; n > 1; --last, --n) __pop_heap(first, last, n)]. *)
Fixpoint sort_heap_loop (n : nat) (a : list T) : option (list T) :=
  match n with
  | 0 => Some a
  | S n' =>
      if bool_decide (1 < n) then
        a ← pop_heap n a;
        sort_heap_loop n' a
      else Some a
  end.

Definition sort_heap (a : list T) : option (list T) :=
  sort_heap_loop (length a) a.

(** [estd::sort]: heap sort. *)
Definition sort (a : list T) : option (list T) :=
  a ← make_heap a;
  sort_heap a.

End estd_algorithms.

(** ** estring.hpp: string views *)

(** A [string_view] is modelled by the characters it views ([data_],
    [size_]); the views of this development never alias mutable storage. *)
Definition string_view : Type := list ascii.

Definition sv (s : String.string) : string_view := String.list_ascii_of_string s.
Arguments sv s%_string_scope.

Definition char_code (c : ascii) : Z := Z.of_N (N_of_ascii c).

(** [estd::isspace]. *)
Definition isspace (c : ascii) : bool :=
  ((9 <=? char_code c)%Z && (char_code c <=? 13)%Z) || (char_code c =? 32)%Z.

(** [estd::tolower], on character codes. *)
Definition tolower (c : ascii) : Z :=
  if ((65 <=? char_code c)%Z && (char_code c <=? 90)%Z)
  then (char_code c + (97 - 65))%Z else char_code c.

(** [string_view::compare]: the loop runs over the common prefix and
    compares lower-cased characters; the sizes decide afterwards. *)
Fixpoint compare (s1 s2 : string_view) : Z :=
  match s1, s2 with
  | c1 :: r1, c2 :: r2 =>
      if (tolower c1 <? tolower c2)%Z then (-1)%Z
      else if (tolower c1 >? tolower c2)%Z then 1%Z
      else compare r1 r2
  | [], [] => 0%Z
  | [], _ :: _ => (-1)%Z
  | _ :: _, [] => 1%Z
  end.

(** [operator==] on string views. *)
Definition string_view_eq (lhs rhs : string_view) : bool :=
  (compare lhs rhs =? 0)%Z.

(** [string_view::empty]. *)
Definition empty (s : string_view) : bool := bool_decide (length s = 0).

(** [string_view::remove_prefix] and [remove_suffix]. *)
Definition remove_prefix (n : nat) (s : string_view) : string_view :=
  if bool_decide (n ≤ length s) then drop n s else s.

Definition remove_suffix (n : nat) (s : string_view) : string_view :=
  if bool_decide (n ≤ length s) then take (length s - n) s else s.

(** [estd::trim_prefix]. *)
Definition trim_prefix (str : string_view) (pred : ascii → bool) : string_view :=
  let trim_to := find_if_not pred str in
  remove_prefix trim_to str.

(** [estd::trim_suffix]: the loop walks back from [str.end()] while the
    character before [it] satisfies [pred]; [str.end() - it] is the number
    of characters walked over. *)
Definition trim_suffix (str : string_view) (pred : ascii → bool) : string_view :=
  let walked := find_if_not pred (reverse str) in
  remove_suffix walked str.

(** [estd::next_token]: returns the token and the advanced input view. *)
Definition next_token (str : string_view) (pred : ascii → bool)
    : string_view * string_view :=
  let str := trim_prefix str pred in
  let loc := find_if pred str in
  let str' := if bool_decide (loc < length str)
              then remove_prefix (loc + 1) str
              else remove_prefix loc str in
  (take loc str, str').

(** ** eobject.hpp: errors, data types *)

(** Conversion to [int32_t]. *)
Definition to_int32 (z : Z) : Z := ((z + 2 ^ 31) mod 2 ^ 32 - 2 ^ 31)%Z.

Inductive Error :=
| OK | DataTypeError | ParamTooLong | ParamTooShort | ValueTooHigh
| ValueTooLow | ObjectNotFound | FieldNotFound | ReadOnly | WriteOnly
| UnableToSet.

#[export] Instance Error_eq_dec : EqDecision Error.
Proof. solve_decision. Defined.

(** The enumerators' values: the [ERR_ODV3_*] constants as [int32_t]. *)
Definition code (e : Error) : Z :=
  match e with
  | OK => 0%Z
  | DataTypeError => to_int32 0xC09B000A
  | ParamTooLong => to_int32 0xC09B000B
  | ParamTooShort => to_int32 0xC09B000C
  | ValueTooHigh => to_int32 0xC09B000F
  | ValueTooLow => to_int32 0xC09B0010
  | ObjectNotFound => to_int32 0xC09B0005
  | FieldNotFound => to_int32 0xC09B000D
  | ReadOnly => to_int32 0xC09B0004
  | WriteOnly => to_int32 0xC09B0003
  | UnableToSet => to_int32 0xC09B0008
  end.

Module DataType.
Inductive t := Invalid | U8 | U16 | U32 | I8 | I16 | I32 | String | BinString | Record_.
Definition value (d : t) : Z :=
  match d with
  | Invalid => 0x0 | U8 => 0x1 | U16 => 0x2 | U32 => 0x3 | I8 => 0x4
  | I16 => 0x5 | I32 => 0x6 | String => 0x8 | BinString => 0x9 | Record_ => 0xA
  end%Z.
End DataType.

(** [type_size] (eobject.cpp). *)
Definition type_size (type : DataType.t) : Z :=
  match type with
  | DataType.Invalid => 0
  | DataType.U8 => 1
  | DataType.U16 => 2
  | DataType.U32 => 4
  | DataType.I8 => 1
  | DataType.I16 => 2
  | DataType.I32 => 4
  | DataType.String => 1
  | DataType.BinString => 1
  | DataType.Record_ => 0
  end%Z.

Module ClassId.
Inductive t := Invalid | Variable_ | Array | Record_.
End ClassId.

Module Permissions.
Inductive t :=
| FactoryHidden | FactoryConfig | Hidden | UserConfig | Info | Status | Dynamic.
End Permissions.

(** The scalar types [T] the templates are instantiated at. *)
Inductive ctype := uint8_t | uint16_t | uint32_t | int8_t | int16_t | int32_t.

Definition sizeof (T : ctype) : Z :=
  match T with
  | uint8_t | int8_t => 1
  | uint16_t | int16_t => 2
  | uint32_t | int32_t => 4
  end%Z.

Definition is_signed (T : ctype) : bool :=
  match T with
  | uint8_t | uint16_t | uint32_t => false
  | int8_t | int16_t | int32_t => true
  end.

(** [Type_<T>::id]. *)
Definition Type_id (T : ctype) : DataType.t :=
  match T with
  | uint8_t => DataType.U8
  | uint16_t => DataType.U16
  | uint32_t => DataType.U32
  | int8_t => DataType.I8
  | int16_t => DataType.I16
  | int32_t => DataType.I32
  end.

(** ** Memory *)

Definition byte : Type := Byte.byte.
Definition memory : Type := list byte.

Definition byte_value (b : byte) : Z := Z.of_N (Byte.to_N b).
Definition byte_of (z : Z) : byte :=
  default Byte.x00 (Byte.of_N (Z.to_N (z mod 256))).

(** Reading [n] bytes at address [addr]; [None] outside the storage. *)
Definition load (m : memory) (addr n : Z) : option (list byte) :=
  if bool_decide (0 ≤ addr ∧ 0 ≤ n ∧ addr + n ≤ Z.of_nat (length m))%Z
  then Some (take (Z.to_nat n) (drop (Z.to_nat addr) m))
  else None.

(** Writing the bytes [bs] at address [addr]; [None] outside the storage. *)
Definition store (m : memory) (addr : Z) (bs : list byte) : option memory :=
  if bool_decide (0 ≤ addr ∧ addr + Z.of_nat (length bs) ≤ Z.of_nat (length m))%Z
  then Some (take (Z.to_nat addr) m ++ bs ++ drop (Z.to_nat addr + length bs) m)
  else None.

(** The value of a little-endian byte sequence, and the object
    representation of the scalar types (two's complement). *)
Fixpoint le_value (bs : list byte) : Z :=
  match bs with
  | [] => 0
  | b :: bs' => byte_value b + 256 * le_value bs'
  end%Z.

Fixpoint le_bytes (n : nat) (v : Z) : list byte :=
  match n with
  | 0 => []
  | S n' => byte_of v :: le_bytes n' (v / 256)
  end.

Definition decode (T : ctype) (bs : list byte) : Z :=
  let u := le_value (take (Z.to_nat (sizeof T)) bs) in
  if is_signed T && (2 ^ (8 * sizeof T - 1) <=? u)%Z
  then (u - 2 ^ (8 * sizeof T))%Z else u.

Definition encode (T : ctype) (v : Z) : list byte :=
  le_bytes (Z.to_nat (sizeof T)) (v mod 2 ^ (8 * sizeof T)).

(** ** Outcomes

    [Fault]: the execution has undefined behaviour (null or out-of-range
    access, invalid downcast).  [Timeout]: the call depth budget given to
    [Object_set] is exhausted. *)
Inductive result (A : Type) :=
| Done (a : A)
| Fault
| Timeout.
Arguments Done {A} a.
Arguments Fault {A}.
Arguments Timeout {A}.

#[export] Instance result_ret : MRet result := λ A a, Done a.
#[export] Instance result_bind : MBind result := λ A B f r,
  match r with
  | Done a => f a
  | Fault => Fault
  | Timeout => Timeout
  end.

Definition lift {A} (o : option A) : result A :=
  match o with
  | Some a => Done a
  | None => Fault
  end.

(** [memcpy(dst, src, n)] where [src] is [n] bytes at [addr] of [m] and
    [dst] the start of the buffer [buffer]. *)
Definition memcpy_out (buffer : list byte) (m : memory) (addr n : Z)
    : result (list byte) :=
  bs ← lift (load m addr n);
  lift (store buffer 0 bs).

(** The argument [const void* data] of a set function: [None] is the null
    pointer, [Some bs] a pointer to the readable bytes [bs]. *)
Definition read_bytes (data : option (list byte)) (n : Z) : result (list byte) :=
  match data with
  | None => Fault
  | Some bs =>
      if bool_decide (0 ≤ n ≤ Z.of_nat (length bs))%Z
      then Done (take (Z.to_nat n) bs) else Fault
  end.

(** [*static_cast<const T*>(data)]. *)
Definition read_scalar (T : ctype) (data : option (list byte)) : result Z :=
  bs ← read_bytes data (sizeof T);
  Done (decode T bs).

(** ** Object metadata *)

(** [Object::SetFunctionType]: the functions the metadata tables point to.
    A table entry is the null pointer or an instance of one of the
    templates of [Object::detail], of [Object::set_chain] or
    [Record::detail::set_data]; the template arguments are the
    constructor arguments.  [member] is the offset of the member that the
    pointer to member designates; [setf] is the external setter, which
    returns its [int32_t] result and may change the storage. *)
Inductive SetFunctionType :=
| null_function
| set_default (T : ctype) (member : Z) (min max : Z)
| set_variable (T : ctype) (min max : Z)
| set_string_variable (Length : Z)
| set_wrapper (T : ctype) (setf : Z → memory → Z * memory) (min max : Z)
| set_readonly
| set_chain (f1 f2 : SetFunctionType)
| Record_set_data.

(** [Object::Info]. *)
Record Info := {
  otype : ClassId.t;
  type : DataType.t;
  nelem : Z;
  perm : Permissions.t;
  data_offset : Z;
  data_size : Z;
  set_function : SetFunctionType
}.

(** [Object::TRange<T>] and the union [Object::RangeInfo]. *)
Record TRange := { range_min : Z; range_max : Z }.

Definition TRange_valid (r : TRange) : bool :=
  bool_decide (range_max r ≠ range_min r).

Inductive RangeInfo :=
| range_of (T : ctype) (r : TRange).

(** [RangeInfo()]: the empty [u32] range. *)
Definition RangeInfo_empty : RangeInfo :=
  range_of uint32_t {| range_min := 0; range_max := 0 |}.

(** [Variable::Info], [Record::FieldInfo], [Array::Info], [Record::Info]:
    the coercions are the conversions to the base class. *)
Record Variable_Info := {
  Variable_Info_base :> Info;
  range : RangeInfo
}.

Record Record_FieldInfo := {
  FieldInfo_base :> Variable_Info;
  name : string_view
}.

(** [names] and [fields] are the arrays that start at the one-element
    members [names[1]] and [fields[1]] and continue in the storage of
    [TInfo]. *)
Record Array_Info := {
  Array_Info_base :> Info;
  Array_range : RangeInfo;
  names : list string_view
}.

Record Record_Info := {
  Record_Info_base :> Info;
  fields : list Record_FieldInfo
}.

(** What an [const Info*] of an [Object] points to. *)
Inductive InfoObject :=
| IsVariable (v : Variable_Info)
| IsArray (a : Array_Info)
| IsRecord (r : Record_Info).

Definition header (i : InfoObject) : Info :=
  match i with
  | IsVariable v => v
  | IsArray a => a
  | IsRecord r => r
  end.

(** [static_cast<const Record::Info&>] and [static_cast<const Array::Info*>]. *)
Definition as_Record (i : InfoObject) : option Record_Info :=
  match i with
  | IsRecord r => Some r
  | _ => None
  end.

Definition as_Array (i : InfoObject) : option Array_Info :=
  match i with
  | IsArray a => Some a
  | _ => None
  end.

(** [fields[i]] and [names[i]]. *)
Definition fields_at (r : Record_Info) (i : Z) : result Record_FieldInfo :=
  if bool_decide (0 ≤ i)%Z then lift (fields r !! Z.to_nat i) else Fault.

Definition names_at (a : Array_Info) (i : Z) : result string_view :=
  if bool_decide (0 ≤ i)%Z then lift (names a !! Z.to_nat i) else Fault.

#[export] Instance ClassId_eq_dec : EqDecision ClassId.t.
Proof. solve_decision. Defined.

(** [Variable::Info()]. *)
Definition Variable_Info_default : Variable_Info :=
  {| Variable_Info_base :=
       {| otype := ClassId.Variable_; type := DataType.Invalid; nelem := 1;
          perm := Permissions.FactoryHidden; data_offset := 0; data_size := 0;
          set_function := null_function |};
     range := RangeInfo_empty |}.

(** [Variable::Info(perm, offset, setf, min, max)] for a scalar [T]. *)
Definition Variable_Info_scalar (T : ctype) (perm : Permissions.t) (offset : Z)
    (setf : SetFunctionType) (min max : Z) : Variable_Info :=
  {| Variable_Info_base :=
       {| otype := ClassId.Variable_; type := Type_id T; nelem := 1;
          perm := perm; data_offset := offset; data_size := sizeof T;
          set_function := setf |};
     range := range_of T {| range_min := min; range_max := max |} |}.

(** [Variable::Info(perm, type, setf, length)]. *)
Definition Variable_Info_sized (perm : Permissions.t) (type : DataType.t)
    (setf : SetFunctionType) (length : Z) : Variable_Info :=
  {| Variable_Info_base :=
       {| otype := ClassId.Variable_; type := type; nelem := 1;
          perm := perm; data_offset := 0; data_size := length;
          set_function := setf |};
     range := RangeInfo_empty |}.

(** [Variable::make_info<T, min, max>(perm)] with the default setter, and
    [Variable::make_string_info<Length>(perm)]. *)
Definition Variable_make_info (T : ctype) (min max : Z) (perm : Permissions.t)
    : Variable_Info :=
  Variable_Info_scalar T perm 0 (set_variable T min max) min max.

Definition Variable_make_string_info (Length : Z) (perm : Permissions.t)
    : Variable_Info :=
  Variable_Info_sized perm DataType.String (set_string_variable Length) Length.

(** [Record::FieldInfo()] and [Record::FieldInfo(perm, name, offset, setf, min, max)]. *)
Definition FieldInfo_default : Record_FieldInfo :=
  {| FieldInfo_base := Variable_Info_default; name := [] |}.

Definition FieldInfo_make (T : ctype) (perm : Permissions.t) (nameIn : string_view)
    (offset : Z) (setf : SetFunctionType) (min max : Z) : Record_FieldInfo :=
  {| FieldInfo_base := Variable_Info_scalar T perm offset setf min max;
     name := nameIn |}.

(** [Record::FieldList<Count, Offset, Size>]: the fields declared so far
    with the template arguments [Offset] and [Size]; [Count] is the
    length of [fields_arr]. *)
Record FieldList := {
  fields_arr : list Record_FieldInfo;
  Offset : Z;
  Size : Z
}.

(** [Record::fields()]. *)
Definition Record_fields : FieldList :=
  {| fields_arr := []; Offset := 0; Size := 0 |}.

Definition to_uint16 (z : Z) : Z := (z mod 2 ^ 16)%Z.
Definition to_uint8 (z : Z) : Z := (z mod 2 ^ 8)%Z.

(** [FieldList::field<DataClass, T, member, offset, min, max>(perm, name, setf)];
    [None] when the [static_assert] on gaps rejects the declaration.  The
    default argument for [setf] is [set_default<DataClass, T, member, min, max>]. *)
Definition FieldList_field (l : FieldList) (T : ctype) (member offset min max : Z)
    (perm : Permissions.t) (nm : string_view) (setf : SetFunctionType)
    : option FieldList :=
  let Count := length (fields_arr l) in
  if bool_decide (Count = 0 ∨ (offset = Size l + Offset l)%Z) then
    Some {| fields_arr := fields_arr l ++
              [FieldInfo_make T perm nm (to_uint16 offset) setf min max];
            Offset := if bool_decide (Count = 0) then to_uint16 offset else Offset l;
            Size := if bool_decide (Count = 0) then to_uint16 (sizeof T)
                    else to_uint16 (Size l + sizeof T) |}
  else None.

Definition FieldList_field_default (l : FieldList) (T : ctype)
    (member offset min max : Z) (perm : Permissions.t) (nm : string_view)
    : option FieldList :=
  FieldList_field l T member offset min max perm nm
    (set_default T member min max).

(** [FieldList::setter_field<T, setf, offset, min, max>(perm, name)]. *)
Definition FieldList_setter_field (l : FieldList) (T : ctype)
    (setf : Z → memory → Z * memory) (offset min max : Z)
    (perm : Permissions.t) (nm : string_view) : option FieldList :=
  let Count := length (fields_arr l) in
  if bool_decide (Count = 0 ∨ (offset = Size l + Offset l)%Z) then
    Some {| fields_arr := fields_arr l ++
              [FieldInfo_make T perm nm (to_uint16 offset)
                 (set_wrapper T setf min max) min max];
            Offset := if bool_decide (Count = 0) then to_uint16 offset else Offset l;
            Size := if bool_decide (Count = 0) then to_uint16 (sizeof T)
                    else to_uint16 (Size l + sizeof T) |}
  else None.

(** [Record::make_info(perm, fields, setf)]: [TInfo<Count>] stores the
    first field in [fields[0]] and the others in [fields_n], whose last
    element stays default constructed. *)
Definition Record_make_info (perm : Permissions.t) (l : FieldList)
    (setf : SetFunctionType) : Record_Info :=
  {| Record_Info_base :=
       {| otype := ClassId.Record_; type := DataType.Record_;
          nelem := to_uint8 (Z.of_nat (length (fields_arr l)));
          perm := perm; data_offset := Offset l; data_size := Size l;
          set_function := setf |};
     fields := fields_arr l ++ [FieldInfo_default] |}.

(** [Array::make_info<Count>(perm, offset, member, names_in, setf_in, min, max)]
    for an array of [Count] elements of type [T]. *)
Definition Array_make_info (T : ctype) (Count : Z) (perm : Permissions.t)
    (offset : Z) (names_in : list string_view) (setf_in : SetFunctionType)
    (min max : Z) : Array_Info :=
  {| Array_Info_base :=
       {| otype := ClassId.Array; type := Type_id T; nelem := Count;
          perm := perm; data_offset := offset;
          data_size := to_uint16 (sizeof T * Count);
          set_function := setf_in |};
     Array_range := range_of T {| range_min := min; range_max := max |};
     names := names_in ++ [[]] |}.

(** ** Object *)

(** [name_], [info_] and [data_]; [None] is the null pointer, [Some p]
    the address [p] of the storage. *)
Record Object := {
  name_ : string_view;
  info_ : option InfoObject;
  data_ : option Z
}.

(** [Object()]. *)
Definition Object_default : Object :=
  {| name_ := []; info_ := None; data_ := None |}.

(** [Object::info()]: dereferences [info_]. *)
Definition Object_info_ref (object : Object) : result InfoObject :=
  lift (info_ object).

(** [Object::data()]. *)
Definition Object_data (object : Object) : result (option Z) :=
  match data_ object with
  | None => Done None
  | Some p =>
      info ← Object_info_ref object;
      Done (Some (p + data_offset (header info))%Z)
  end.

(** A write of [bs] through the pointer [p]. *)
Definition store_at (p : option Z) (bs : list byte) (m : memory) : result memory :=
  match p with
  | None => Fault
  | Some addr => lift (store m addr bs)
  end.

Definition ptr_add (p : option Z) (n : Z) : option Z :=
  (λ a, (a + n)%Z) <$> p.

(** [data[i]] for [const char* data]. *)
Definition byte_at (data : option (list byte)) (i : Z) : result byte :=
  match data with
  | None => Fault
  | Some bs => if bool_decide (0 ≤ i)%Z then lift (bs !! Z.to_nat i) else Fault
  end.

(** [Object::detail::check<T>(min, max, data, size)]. *)
Definition check (T : ctype) (min max : Z) (data : option (list byte)) (size : Z)
    : result Z :=
  if (size >? sizeof T)%Z then Done (code ParamTooLong)
  else if (size <? sizeof T)%Z then Done (code ParamTooShort)
  else match data with
       | None => Done (code DataTypeError)
       | Some _ =>
           if bool_decide (min ≠ max) then
             value ← read_scalar T data;
             if (value <? min)%Z then Done (code ValueTooLow)
             else if (value >? max)%Z then Done (code ValueTooHigh)
             else Done (code OK)
           else Done (code OK)
       end.

(** The set functions.  A call of a set function takes one unit of the
    call depth budget [depth]; the result is the [int32_t] returned and
    the storage after the call. *)
Fixpoint call_set (depth : nat) (f : SetFunctionType) (object : Object)
    (subIdx : Z) (data : option (list byte)) (size : Z) (m : memory)
    {struct depth} : result (Z * memory) :=
  match depth with
  | 0 => Timeout
  | S depth' =>
      match f with
      | null_function => Fault
      | set_default T member min max =>
          e ← check T min max data size;
          if bool_decide (e ≠ code OK) then Done (e, m)
          else
            value ← read_scalar T data;
            p ← Object_data object;
            m' ← store_at (ptr_add p member) (encode T value) m;
            Done (code OK, m')
      | set_variable T min max =>
          e ← check T min max data size;
          if bool_decide (e ≠ code OK) then Done (e, m)
          else
            value ← read_scalar T data;
            p ← Object_data object;
            m' ← store_at p (encode T value) m;
            Done (code OK, m')
      | set_string_variable Length =>
          if (size >? Length)%Z then Done (code ParamTooLong, m)
          else
            unterminated ←
              (if (size =? Length)%Z
               then c ← byte_at data (size - 1); Done (negb (byte_value c =? 0)%Z)
               else Done false);
            if (unterminated : bool) then Done (code ParamTooLong, m)
            else
              dest_data ← Object_data object;
              bs ← read_bytes data size;
              m' ← store_at dest_data bs m;
              m'' ← (if (size <? Length)%Z
                     then store_at (ptr_add dest_data size)
                            (replicate (Z.to_nat (Length - size)) Byte.x00) m'
                     else Done m');
              Done (code OK, m'')
      | set_wrapper T setf min max =>
          e ← check T min max data size;
          if bool_decide (e ≠ code OK) then Done (e, m)
          else
            value ← read_scalar T data;
            let '(ret, m') := setf value m in
            Done (to_int32 ret, m')
      | set_readonly => Done (code ReadOnly, m)
      | set_chain f1 f2 =>
          r ← call_set depth' f1 object subIdx data size m;
          let '(ret, m') := r in
          if bool_decide (ret = code OK)
          then call_set depth' f2 object subIdx data size m'
          else Done (ret, m')
      | Record_set_data =>
          info ← Object_info_ref object;
          if bool_decide (otype (header info) ≠ ClassId.Record_)
             || (subIdx >? nelem (header info))%Z
          then Done (code FieldNotFound, m)
          else if (subIdx =? 0)%Z then Done (code ReadOnly, m)
          else
            r ← lift (as_Record info);
            field ← fields_at r (subIdx - 1);
            call_set depth' (set_function (field : Record_FieldInfo))
              object subIdx data size m
      end
  end.

(** [Object::set(subIdx, data, size)]. *)
Definition Object_set (depth : nat) (object : Object) (subIdx : Z)
    (data : option (list byte)) (size : Z) (m : memory) : result (Z * memory) :=
  info ← Object_info_ref object;
  call_set depth (set_function (header info)) object subIdx data size m.

(** [Object::get(buffer, size)]: the entire object as binary data.
    [buffer] is the caller's buffer, [size] the capacity passed; the
    result is the returned [int32_t] and the buffer afterwards. *)
Definition Object_get_all (object : Object) (buffer : list byte) (size : Z)
    (m : memory) : result (Z * list byte) :=
  match data_ object with
  | None => Done (code WriteOnly, buffer)
  | Some p =>
      info ← Object_info_ref object;
      let data_size := data_size (header info) in
      buffer' ← (if (data_size <? size)%Z
                 then memcpy_out buffer m (p + data_offset (header info)) data_size
                 else Done buffer);
      Done (data_size, buffer')
  end.

(** [Object::get(subIdx, buffer, size)] (eobject.cpp). *)
Definition Object_get (object : Object) (subIdx : Z) (buffer : list byte)
    (size : Z) (m : memory) : result (Z * list byte) :=
  match data_ object with
  | None => Done (code WriteOnly, buffer)
  | Some p =>
      info ← Object_info_ref object;
      let info_ := header info in
      match otype info_ with
      | ClassId.Variable_ =>
          if (subIdx =? 0)%Z then Object_get_all object buffer size m
          else Done (code FieldNotFound, buffer)
      | ClassId.Array =>
          if (subIdx <=? nelem info_)%Z then
            if (subIdx =? 0)%Z then
              buffer' ← lift (store buffer 0 [byte_of (nelem info_)]);
              Done (1%Z, buffer')
            else
              let elem_size := type_size (type info_) in
              let offset := to_uint16 (data_offset info_ + elem_size * (subIdx - 1)) in
              buffer' ← memcpy_out buffer m (p + offset) elem_size;
              Done (elem_size, buffer')
          else Done (code FieldNotFound, buffer)
      | ClassId.Record_ =>
          if (subIdx <=? nelem info_)%Z then
            if (subIdx =? 0)%Z then
              buffer' ← lift (store buffer 0 [byte_of (nelem info_)]);
              Done (1%Z, buffer')
            else
              r ← lift (as_Record info);
              field ← fields_at r (subIdx - 1);
              let data_size := data_size (field : Record_FieldInfo) in
              if (data_size >? size)%Z then Done (code ParamTooShort, buffer)
              else
                buffer' ← memcpy_out buffer m (p + data_offset field) data_size;
                Done (data_size, buffer')
          else Done (code FieldNotFound, buffer)
      | ClassId.Invalid => Done (code ObjectNotFound, buffer)
      end
  end.

(** [Object::FieldInfo]: [info] is the [Info] pointed to, [fname] the
    string view pointed to ([None]: null). *)
Record Object_FieldInfo := {
  info : Info;
  fname : option string_view;
  offset : Z;
  size : Z
}.

Definition valid (f : Object_FieldInfo) : bool :=
  match fname f with
  | Some _ => true
  | None => false
  end.

(** [Object::info(subIdx)] (eobject.cpp). *)
Definition Object_info (object : Object) (subIdx : Z) : result Object_FieldInfo :=
  i ← Object_info_ref object;
  let info_ := header i in
  let finfo := {| info := info_; fname := None; offset := 0; size := 0 |} in
  if (subIdx >? 0)%Z && (subIdx <=? nelem info_)%Z then
    let finfo := {| info := info_; fname := None;
                    offset := data_offset info_; size := data_size info_ |} in
    match otype info_ with
    | ClassId.Record_ =>
        r ← lift (as_Record i);
        temp ← fields_at r (subIdx - 1);
        Done {| info := (temp : Record_FieldInfo); fname := Some (name temp);
                offset := offset finfo; size := data_size temp |}
    | ClassId.Array =>
        a ← lift (as_Array i);
        temp ← names_at a (subIdx - 1);
        let sz := type_size (type info_) in
        Done {| info := info_; fname := Some temp;
                offset := to_uint16 (data_offset info_ + sz * (subIdx - 1));
                size := sz |}
    | _ => Done finfo
    end
  else Done finfo.

(** The linear scans of [Record::Info::find] and [Array::Info::find]: the
    position of the first of the [n] elements from [l] that satisfies
    [pred], counted from [i], or the position past the last. *)
Fixpoint scan {A : Type} (pred : A → bool) (l : list A) (n : nat) (i : Z)
    : result Z :=
  match n with
  | 0 => Done i
  | S n' =>
      match l with
      | [] => Fault
      | x :: l' => if pred x then Done i else scan pred l' n' (i + 1)%Z
      end
  end.

(** [Record::Info::find(name)], as the distance from [begin()]. *)
Definition Record_find (r : Record_Info) (nm : string_view) : result Z :=
  scan (λ f : Record_FieldInfo, string_view_eq (name f) nm)
       (fields r) (Z.to_nat (nelem r)) 0.

(** [Array::Info::find(name)]. *)
Definition Array_find (a : Array_Info) (nm : string_view) : result Z :=
  i ← scan (λ n : string_view, string_view_eq n nm)
           (names a) (Z.to_nat (nelem a)) 0;
  Done (to_uint8 i).

(** ** Dictionary *)

Record Item := {
  address : Z;
  pdo_mapping : Z;
  object : Object
}.

(** [Item()]. *)
Definition Item_default : Item :=
  {| address := 0; pdo_mapping := 0; object := Object_default |}.

(** [count] and the array that starts at [items[1]] and continues in the
    storage of [TDictionary]. *)
Record Dictionary := {
  count : nat;
  items : list Item
}.

(** [Dictionary::find(name)]: the loop over [begin(), end())]. *)
Fixpoint find_loop (l : list Item) (n : nat) (nm : string_view)
    : result (option Item) :=
  match n with
  | 0 => Done None
  | S n' =>
      match l with
      | [] => Fault
      | item :: l' =>
          if string_view_eq (name_ (object item)) nm then Done (Some item)
          else find_loop l' n' nm
      end
  end.

Definition Dictionary_find (d : Dictionary) (nm : string_view)
    : result (option Item) :=
  find_loop (items d) (count d) nm.

(** [Dictionary::get(address)]. *)
Definition Dictionary_get (d : Dictionary) (addr : Z) : result (option Object) :=
  it ← lift (lower_bound (items d) 0 (count d) addr
               (λ (l : Item) (address0 : Z), (address l <? address0)%Z));
  if bool_decide (it ≠ count d) then
    item ← lift (items d !! it);
    if (address item =? addr)%Z then Done (Some (object item)) else Done None
  else Done None.

(** [Dictionary::write] and [Dictionary::read]. *)
Definition Dictionary_write (depth : nat) (d : Dictionary) (addr subIdx : Z)
    (data : option (list byte)) (size : Z) (m : memory) : result (Z * memory) :=
  o ← Dictionary_get d addr;
  match o with
  | None => Done (code ObjectNotFound, m)
  | Some o => Object_set depth o subIdx data size m
  end.

Definition Dictionary_read (d : Dictionary) (addr subIdx : Z)
    (buffer : list byte) (size : Z) (m : memory) : result (Z * list byte) :=
  o ← Dictionary_get d addr;
  match o with
  | None => Done (code ObjectNotFound, buffer)
  | Some o => Object_get o subIdx buffer size m
  end.

(** [TDictionary::compare_address]. *)
Definition compare_address (l r : Item) : bool := (address l <? address r)%Z.

(** [TDictionary<Count>(objects)]: sorts the array by address, stores
    [objects[0]] in [items[0]] and the others in [items_n], whose last
    element stays default constructed. *)
Definition TDictionary (objects : list Item) : result Dictionary :=
  sorted ← lift (sort compare_address objects);
  first ← lift (sorted !! 0);
  Done {| count := length objects;
          items := first :: drop 1 sorted ++ [Item_default] |}.

(** [Dictionary::Query]. *)
Record Query := {
  object_name : string_view;
  subobject_name : string_view;
  item : option Item;
  qinfo : option Info;
  subIdx : Z
}.

(** [Query::issep]. *)
Definition issep (C : ascii) : bool :=
  (char_code C =? 46)%Z || (char_code C =? 58)%Z || (char_code C =? 47)%Z.

(** [Query::Query(str)]: the query and the advanced input view. *)
Definition Query_make (str : string_view) : Query * string_view :=
  let '(object_name0, str) := next_token str issep in
  let '(subobject_name0, str) := next_token str issep in
  ({| object_name := trim_prefix object_name0 isspace;
      subobject_name := trim_suffix subobject_name0 isspace;
      item := None;
      qinfo := None;
      subIdx := -1 |}, str).

(** [Dictionary::query(q)] (eobject.cpp): the returned [int32_t] and the
    query afterwards. *)
Definition Dictionary_query (d : Dictionary) (q : Query) : result (Z * Query) :=
  found ← Dictionary_find d (object_name q);
  let q := {| object_name := object_name q; subobject_name := subobject_name q;
              item := found; qinfo := qinfo q; subIdx := subIdx q |} in
  match found with
  | Some it =>
      i ← Object_info_ref (object it);
      if negb (empty (subobject_name q)) then
        if bool_decide (otype (header i) = ClassId.Record_) then
          r ← lift (as_Record i);
          finfo ← Record_find (r : Record_Info) (subobject_name q);
          if bool_decide (finfo ≠ nelem (r : Record_Info)) then
            field ← fields_at r finfo;
            Done (code OK,
                  {| object_name := object_name q;
                     subobject_name := subobject_name q;
                     item := found; qinfo := Some ((field : Record_FieldInfo) : Info);
                     subIdx := finfo + 1 |})
          else Done (code FieldNotFound, q)
        else if bool_decide (otype (header i) = ClassId.Array) then
          a ← lift (as_Array i);
          idx ← Array_find (a : Array_Info) (subobject_name q);
          let q := {| object_name := object_name q;
                      subobject_name := subobject_name q;
                      item := found; qinfo := Some ((a : Array_Info) : Info);
                      subIdx := idx + 1 |} in
          if bool_decide (subIdx q ≠ nelem (a : Array_Info)) then Done (code OK, q)
          else Done (code FieldNotFound, q)
        else Done (code FieldNotFound, q)
      else
        Done (code OK,
              {| object_name := object_name q; subobject_name := subobject_name q;
                 item := found; qinfo := Some (header i); subIdx := subIdx q |})
  | None => Done (code ObjectNotFound, q)
  end.

(** ** estring.hpp: further functions *)

(** [operator!=], [operator<], [operator<=], [operator>] and [operator>=]
    on string views. *)
Definition string_view_ne (lhs rhs : string_view) : bool :=
  negb (compare lhs rhs =? 0)%Z.

Definition string_view_lt (lhs rhs : string_view) : bool :=
  (compare lhs rhs <? 0)%Z.

Definition string_view_le (lhs rhs : string_view) : bool :=
  (compare lhs rhs <=? 0)%Z.

Definition string_view_gt (lhs rhs : string_view) : bool :=
  (compare lhs rhs >? 0)%Z.

Definition string_view_ge (lhs rhs : string_view) : bool :=
  (compare lhs rhs >=? 0)%Z.

(** [string_view::starts_with]: the loop [while (n-- != 0)] over the two
    character pointers; [None] would be a read outside a view. *)
Fixpoint starts_with_loop (n : nat) (s1 s2 : list ascii) : option bool :=
  match n with
  | 0 => Some true
  | S n' =>
      c1 ← head s1; c2 ← head s2;
      if bool_decide (tolower c1 ≠ tolower c2) then Some false
      else starts_with_loop n' (tail s1) (tail s2)
  end.

Definition starts_with (s other : string_view) : option bool :=
  if bool_decide (length s < length other) then Some false
  else starts_with_loop (length other) s other.

(** [estd::view_from_cstring(str, length)]: [str] are the characters
    readable from the pointer; [n] counts the turns the bound
    [i < length] leaves. *)
Fixpoint view_from_cstring_loop (str : list ascii) (n : nat) (i : nat)
    : option nat :=
  match n with
  | 0 => Some i
  | S n' =>
      c ← str !! i;
      if (char_code c =? 0)%Z then Some i
      else view_from_cstring_loop str n' (S i)
  end.

Definition view_from_cstring (str : list ascii) (length : nat)
    : option string_view :=
  i ← view_from_cstring_loop str length 0;
  Some (take i str).

(** ** estd.hpp: further functions *)

(** [estd::find_sorted(first, last, value, comp)]: the comparison after
    [lower_bound] reads the element at the position found. *)
Definition find_sorted {T : Type} (a : list T) (first last : nat) (value : T)
    (comp : T → T → bool) : option nat :=
  first ← lower_bound a first last value comp;
  x ← a !! first;
  Some (if comp value x then last else first).

(** ** eobject.hpp: further functions *)

(** [Array::Info::operator[](id)]. *)
Definition Array_at (a : Array_Info) (id : Z) : result string_view :=
  if (id <? nelem a)%Z then names_at a id else Done [].

(** [Object::Field<IsConst>]: an object and a sub-index. *)
Module Field.

Record t := { object : Object; id : Z }.

(** [operator++] on the [uint8_t] sub-index, and [operator!=]. *)
Definition next (f : t) : t :=
  {| object := object f; id := to_uint8 (id f + 1) |}.

Definition ne (f other : t) : bool := negb (id f =? id other)%Z.

(** [Field::info()]. *)
Definition info (f : t) : result Object_FieldInfo :=
  Object_info (object f) (id f).

End Field.

(** [Object::begin()] and [Object::end()]. *)
Definition Object_begin (o : Object) : Field.t :=
  {| Field.object := o; Field.id := 0 |}.

Definition Object_end (o : Object) : result Field.t :=
  info ← Object_info_ref o;
  Done {| Field.object := o; Field.id := nelem (header info) |}.

(** The fields that [for (const auto& value : object)] visits, that is
    [for (it = begin(); it != end(); ++it)]; [n] bounds the turns. *)
Fixpoint Object_range (n : nat) (it e : Field.t) : option (list Field.t) :=
  if Field.ne it e then
    match n with
    | 0 => None
    | S n' => rest ← Object_range n' (Field.next it) e; Some (it :: rest)
    end
  else Some [].

(** ** index.hpp: indices of named values *)

Module index.

(** [named_value<T>], for an integral or enumeration type [T]. *)
Record named_value := { value : Z; name : string_view }.

(** [named_value::compare_value] and [named_value::compare_name]. *)
Definition compare_value (l r : named_value) : bool :=
  (value l <? value r)%Z.

Definition compare_name (l r : named_value) : bool :=
  string_view_lt (name l) (name r).

(** [name_index<T, Count>(strings)]: [lookup_values_] is the array sorted
    by name. *)
Definition name_index (strings : list named_value) : option (list named_value) :=
  sort compare_name strings.

(** [name_index::find(string)]: the entry found, or null. *)
Definition name_index_find (lookup_values_ : list named_value)
    (string : string_view) : option (option named_value) :=
  it ← lower_bound lookup_values_ 0 (length lookup_values_) string
         (λ (l : named_value) (string : string_view),
            string_view_lt (name l) string);
  if bool_decide (it ≠ length lookup_values_) then
    x ← lookup_values_ !! it;
    Some (if string_view_eq (name x) string then Some x else None)
  else Some None.

(** [name_index::get(string, default_value)]. *)
Definition name_index_get (lookup_values_ : list named_value)
    (string : string_view) (default_value : Z) : option Z :=
  it ← lower_bound lookup_values_ 0 (length lookup_values_) string
         (λ (l : named_value) (string : string_view),
            string_view_lt (name l) string);
  if bool_decide (it ≠ length lookup_values_) then
    x ← lookup_values_ !! it;
    Some (if string_view_eq (name x) string then value x else default_value)
  else Some default_value.

(** [value_index<T, Count>(strings)] and [value_index::find(value)]. *)
Definition value_index (strings : list named_value) : option (list named_value) :=
  sort compare_value strings.

Definition value_index_find (lookup_values_ : list named_value) (v : Z)
    : option (option named_value) :=
  it ← lower_bound lookup_values_ 0 (length lookup_values_) v
         (λ (l : named_value) (value0 : Z), (value l <? value0)%Z);
  if bool_decide (it ≠ length lookup_values_) then
    x ← lookup_values_ !! it;
    Some (if (value x =? v)%Z then Some x else None)
  else Some None.

End index.

(** ** eformat.cpp: parsing unsigned numbers

    A parser gets the view [in] and the characters that lie behind the
    view in the storage it refers to ([behind]): it reads the character
    at [in.end()].  It returns its status, the view [in] afterwards and
    the value afterwards of the variable it was given. *)

Definition to_uint32 (z : Z) : Z := (z mod 2 ^ 32)%Z.

Module eformat.

Inductive ParseStatus := OK | Incomplete | NotMatched | Overflow.

Definition UINT8_MAX : Z := 255.
Definition UINT16_MAX : Z := 65535.
Definition UINT32_MAX : Z := 4294967295.

(** [std::isdigit] on the characters ['0'] to ['9']. *)
Definition isdigit (c : ascii) : bool :=
  (48 <=? char_code c)%Z && (char_code c <=? 57)%Z.

(** The loop of [parse(string_view&, uint32_t&)]:
    [while (c != in.end() && std::isdigit( *(++c)))].  [c] is the distance
    of the pointer from [in.begin()]; [n] bounds the turns. *)
Fixpoint parse_uint32_loop (n : nat) (in_ behind : list ascii) (c : nat)
    (value : Z) : result (ParseStatus * nat * Z) :=
  if bool_decide (c ≠ length in_) then
    match n with
    | 0 => Timeout
    | S n' =>
        let c := S c in
        ch ← lift ((in_ ++ behind) !! c);
        if isdigit ch then
          let v := to_uint32 (char_code ch - 48) in
          if (value >? UINT32_MAX / 10)%Z then Done (Overflow, c, value)
          else
            let value := to_uint32 (value * 10) in
            if (value >? UINT32_MAX - v)%Z then Done (Overflow, c, value)
            else parse_uint32_loop n' in_ behind c (to_uint32 (value + v))
        else Done (OK, c, value)
    end
  else Done (OK, c, value).

(** [parse(string_view& in, uint32_t& value)]. *)
Definition parse_uint32 (in_ behind : list ascii) (value : Z)
    : result (ParseStatus * string_view * Z) :=
  match in_ with
  | [] => Done (NotMatched, in_, value)
  | ch :: _ =>
      if isdigit ch then
        let value := to_uint32 (char_code ch - 48) in
        r ← parse_uint32_loop (length in_) in_ behind 0 value;
        let '(status, c, value) := r in
        match status with
        | OK => Done (OK, remove_prefix c in_, value)
        | _ => Done (status, in_, value)
        end
      else Done (NotMatched, in_, value)
  end.

(** [parse(string_view& in, uint8_t& value)] and
    [parse(string_view& in, uint16_t& value)]: through a [uint32_t]
    temporary. *)
Definition parse_narrow (MAX : Z) (in_ behind : list ascii) (value : Z)
    : result (ParseStatus * string_view * Z) :=
  r ← parse_uint32 in_ behind 0;
  let '(ret, in', temp) := r in
  match ret with
  | OK => if (temp >? MAX)%Z then Done (Overflow, in', value)
          else Done (OK, in', temp)
  | _ => Done (ret, in', value)
  end.

Definition parse_uint8 := parse_narrow UINT8_MAX.
Definition parse_uint16 := parse_narrow UINT16_MAX.

End eformat.

(** ** console.cpp: parsing a quoted string *)

(** [string_view::at(pos)], [front()] and [back()]; a failed check stops
    the program ([Fault]). *)
Definition string_view_at (s : string_view) (pos : Z) : result ascii :=
  if bool_decide (0 ≤ pos < Z.of_nat (length s))%Z
  then lift (s !! Z.to_nat pos) else Fault.

Definition front (s : string_view) : result ascii := string_view_at s 0.

Definition back (s : string_view) : result ascii :=
  string_view_at s (to_uint32 (Z.of_nat (length s) - 1)).

(** [parse_string(str, data, size)]: the [Error] returned, the buffer
    [data] and the variable [size] afterwards.  [str.size() - 2] is
    computed in [uint32_t]. *)
Definition parse_string (str : string_view) (data : list byte) (size : Z)
    : result (Error * list byte * Z) :=
  let n := to_uint32 (Z.of_nat (length str) - 2) in
  if (n >? size)%Z then Done (ParamTooLong, data, size)
  else
    let size := n in
    f ← front str;
    quoted ← (if (char_code f =? 34)%Z
              then b ← back str; Done (char_code b =? 34)%Z
              else Done false);
    if (quoted : bool) then
      src ← (if bool_decide (1 + size ≤ Z.of_nat (length str))%Z
             then Done (take (Z.to_nat size) (drop 1 str)) else Fault);
      data' ← lift (store data 0 (byte_of_ascii <$> src));
      Done (OK, data', size)
    else Done (DataTypeError, data, size).

(** ** An example configuration

    The record of the end-to-end scenario: "status" at address 0x2000 with
    the fields "temp" (I16, range -40..125) and "flags" (U8, read-only);
    an array "gains" of three named U8 elements at address 0x1000; a
    variable "speed" (U16) at address 0x3000.  The three objects live in
    one storage block of eight bytes. *)

Definition status_fields : FieldList :=
  {| fields_arr :=
       [FieldInfo_make int16_t Permissions.UserConfig (sv "temp") 0
          (set_default int16_t 0 (-40) 125) (-40) 125;
        FieldInfo_make uint8_t Permissions.Status (sv "flags") 2
          set_readonly 0 0];
     Offset := 0;
     Size := 3 |}.

Definition status_info : Record_Info :=
  Record_make_info Permissions.UserConfig status_fields Record_set_data.

Definition status : Object :=
  {| name_ := sv "status"; info_ := Some (IsRecord status_info);
     data_ := Some 0%Z |}.

Definition gains_info : Array_Info :=
  Array_make_info uint8_t 3 Permissions.Info 3
    [sv "kp"; sv "ki"; sv "kd"] set_readonly 0 0.

Definition gains : Object :=
  {| name_ := sv "gains"; info_ := Some (IsArray gains_info);
     data_ := Some 0%Z |}.

Definition speed_info : Variable_Info :=
  Variable_make_info uint16_t 0 0 Permissions.UserConfig.

Definition speed : Object :=
  {| name_ := sv "speed"; info_ := Some (IsVariable speed_info);
     data_ := Some 6%Z |}.

Definition example_memory : memory :=
  [Byte.x14; Byte.x00; Byte.x01; Byte.x0a; Byte.x0b; Byte.x0c;
   Byte.x34; Byte.x12].

Definition example_items : list Item :=
  [ {| address := 0x2000; pdo_mapping := 0; object := status |};
    {| address := 0x3000; pdo_mapping := 0; object := speed |};
    {| address := 0x1000; pdo_mapping := 0; object := gains |} ].

(** The dictionary [TDictionary] builds from [example_items]. *)
Definition example_dictionary : Dictionary :=
  {| count := 3;
     items :=
       [ {| address := 0x1000; pdo_mapping := 0; object := gains |};
         {| address := 0x2000; pdo_mapping := 0; object := status |};
         {| address := 0x3000; pdo_mapping := 0; object := speed |};
         Item_default ] |}.

(** A flag whose setter is the chain of the scalar strategy and the
    read-only strategy, and a trigger whose value goes to an external
    setter that accepts every value and leaves the storage alone. *)
Definition chained_flag : Object :=
  {| name_ := sv "flag";
     info_ := Some (IsVariable
       (Variable_Info_scalar uint8_t Permissions.UserConfig 0
          (set_chain (set_variable uint8_t 0 0) set_readonly) 0 0));
     data_ := Some 0%Z |}.

Definition accept_all (value : Z) (m : memory) : Z * memory := (0%Z, m).

Definition trigger : Object :=
  {| name_ := sv "trigger";
     info_ := Some (IsVariable
       (Variable_Info_scalar uint8_t Permissions.UserConfig 0
          (set_wrapper uint8_t accept_all 0 0) 0 0));
     data_ := Some 0%Z |}.

(** An array "far" of two U32 elements that begins two bytes below the
    end of the 16-bit offsets, in a storage block of 65542 bytes; an
    array "cells" of 255 U8 elements. *)
Definition far_info : Array_Info :=
  Array_make_info uint32_t 2 Permissions.Info 65534
    [sv "lo"; sv "hi"] set_readonly 0 0.

Definition far : Object :=
  {| name_ := sv "far"; info_ := Some (IsArray far_info);
     data_ := Some 0%Z |}.

Definition far_memory : memory :=
  [Byte.x00; Byte.x01; Byte.x02; Byte.x03; Byte.x04; Byte.x05]
  ++ replicate (Z.to_nat 65528) Byte.x00
  ++ [Byte.x0b; Byte.x0c; Byte.x0d; Byte.x0e;
      Byte.x1b; Byte.x1c; Byte.x1d; Byte.x1e].

Definition cells_info : Array_Info :=
  Array_make_info uint8_t 255 Permissions.Info 0
    (replicate 255 []) set_readonly 0 0.

Definition cells : Object :=
  {| name_ := sv "cells"; info_ := Some (IsArray cells_info);
     data_ := Some 0%Z |}.

(** An array "words" of two U16 elements in the storage of the example. *)
Definition words_info : Array_Info :=
  Array_make_info uint16_t 2 Permissions.Info 4 [sv "lo"; sv "hi"]
    set_readonly 0 0.

Definition words : Object :=
  {| name_ := sv "words"; info_ := Some (IsArray words_info);
     data_ := Some 0%Z |}.

(** ** Notions used in the statements *)

Section order_notions.
Context {T : Type} (key : T → Z).

(** The key stored at position [i] ([0] outside the array). *)
Definition kat (a : list T) (i : nat) : Z := from_option key 0%Z (a !! i).

Definition is_child (p c : nat) : Prop := c = 2 * p + 1 ∨ c = 2 * p + 2.

(** Max-heap order on the nodes [s ≤ p] of the prefix of length [len]. *)
Definition heap_on (a : list T) (s len : nat) : Prop :=
  ∀ p c, s ≤ p → c < len → is_child p c → (kat a c ≤ kat a p)%Z.

(** Ascending order of the keys. *)
Definition key_le (x y : T) : Prop := (key x ≤ key y)%Z.

End order_notions.

(** The strategies that validate their whole argument before they write:
    every stock strategy except the external setter and the chain. *)
Definition validates_first (f : SetFunctionType) : bool :=
  match f with
  | set_default _ _ _ _ | set_variable _ _ _ | set_string_variable _
  | set_readonly | Record_set_data => true
  | null_function | set_wrapper _ _ _ _ | set_chain _ _ => false
  end.

(** [set(idx, x)] succeeds and the following [get(idx, buffer, capacity)]
    returns the bytes of [x]. *)
Definition roundtrip (depth : nat) (obj : Object) (idx : Z) (x : list byte)
    (buffer : list byte) (capacity : Z) (m : memory) : Prop :=
  ∃ m' buffer',
    Object_set depth obj idx (Some x) (Z.of_nat (length x)) m
    = Done (code OK, m')
    ∧ Object_get obj idx buffer capacity m'
      = Done (Z.of_nat (length x), buffer')
    ∧ take (length x) buffer' = x.

(** The scalar set strategies over [T] with the bounds [min] and [max],
    each with the offset from [Object::data()] at which it stores:
    [set_variable] at the data pointer, [set_default] at the member. *)
Inductive scalar_strategy (T : ctype) (min max : Z) : SetFunctionType → Z → Prop :=
| scalar_variable :
    scalar_strategy T min max (set_variable T min max) 0
| scalar_default (member : Z) :
    scalar_strategy T min max (set_default T member min max) member.

(** The answer the specification gives for a scalar write of [size]
    bytes that decode to [value]: size check, then range check unless
    [min = max]. *)
Definition scalar_verdict (T : ctype) (min max value size : Z) : Error :=
  if (size >? sizeof T)%Z then ParamTooLong
  else if (size <? sizeof T)%Z then ParamTooShort
  else if bool_decide (min = max) then OK
  else if (value <? min)%Z then ValueTooLow
  else if (value >? max)%Z then ValueTooHigh
  else OK.

(** A set call that fails leaves the storage as it was. *)
Definition failure_preserves (depth : nat) (f : SetFunctionType) (obj : Object)
    (idx : Z) (data : option (list byte)) (size : Z) (m : memory) : Prop :=
  ∀ e m', call_set depth f obj idx data size m = Done (e, m') →
          e ≠ code OK → m' = m.

(** No white space at either end of a view. *)
Definition trimmed (s : string_view) : bool :=
  match s with
  | [] => true
  | c :: _ => negb (isspace c)
  end
  && match last s with
     | Some c => negb (isspace c)
     | None => true
     end.

(** The linear scan over the stored items for an address. *)
Definition linear_get (d : Dictionary) (addr : Z) : option Object :=
  (λ ix : nat * Item, object ix.2)
    <$> list_find (λ it : Item, address it = addr) (take (count d) (items d)).

(** The number of elements of [S] that [comp] places before [x]. *)
Definition rank {T : Type} (comp : T → T → bool) (S : list T) (x : T) : Z :=
  Z.of_nat (length (filter (λ z, comp z x = true) S)).

(** The sum of the sizes of fields. *)
Definition total_size (fs : list Record_FieldInfo) : Z :=
  foldr (λ (f : Record_FieldInfo) (s : Z), (data_size f + s)%Z) 0%Z fs.

(** The fields of a list lie one behind the other from [Offset], without
    a gap, and [Size] is their total size. *)
Definition contiguous (l : FieldList) : Prop :=
  (0 ≤ Offset l)%Z
  ∧ (∀ i (f : Record_FieldInfo),
       fields_arr l !! i = Some f →
       (0 ≤ data_size f)%Z
       ∧ data_offset f = (Offset l + total_size (take i (fields_arr l)))%Z)
  ∧ (fields_arr l ≠ [] → Size l = total_size (fields_arr l)).

(** The number that a sequence of decimal digits denotes. *)
Definition decimal (ds : list ascii) : Z :=
  foldl (λ (acc : Z) (ch : ascii), (acc * 10 + (char_code ch - 48))%Z) 0%Z ds.

(* ================================================================== *)
(** * Part II: verification *)
(* ================================================================== *)

#[local] Arguments code : simpl never.

(** ** Heap sort sorts *)

Section sort_correct.
Context {T : Type} (key : T → Z) (comp : T → T → bool).
Hypothesis comp_key : ∀ x y, comp x y = bool_decide (key x < key y)%Z.

#[local] Abbreviation kat := (kat key).
#[local] Abbreviation heap_on := (heap_on key).
#[local] Abbreviation key_le := (key_le key).

Lemma kat_lookup a i x : a !! i = Some x → kat a i = key x.
Proof. unfold kat. by intros ->. Qed.

Lemma kat_insert a i x j :
  i < length a →
  kat (<[i := x]> a) j = if decide (i = j) then key x else kat a j.
Proof.
  intros Hi. unfold kat. case_decide as Hij.
  - subst j. by rewrite list_lookup_insert_eq.
  - by rewrite list_lookup_insert_ne.
Qed.

Lemma put_Some (a : list T) i x :
  i < length a → put a i x = Some (<[i := x]> a).
Proof. intros Hi. unfold put. by rewrite bool_decide_eq_true_2. Qed.

Lemma pick_child_spec len child a :
  child < len → len ≤ length a →
  ∃ r, pick_child comp len child a = Some r
       ∧ (r = child ∨ (r = child + 1 ∧ child + 1 < len))
       ∧ (kat a child ≤ kat a r)%Z
       ∧ (child + 1 < len → (kat a (child + 1) ≤ kat a r)%Z).
Proof.
  intros Hc Hlen. unfold pick_child. case_bool_decide as Hr.
  - destruct (lookup_lt_is_Some_2 a child) as [l Hl]; [lia|].
    destruct (lookup_lt_is_Some_2 a (child + 1)) as [r Hr']; [lia|].
    rewrite Hl, Hr'. simpl. rewrite comp_key.
    rewrite (kat_lookup _ _ _ Hl), (kat_lookup _ _ _ Hr').
    case_bool_decide as Hlt; eexists; (split; [reflexivity|]).
    + rewrite (kat_lookup _ _ _ Hr'). split; [right|]; lia.
    + rewrite (kat_lookup _ _ _ Hl). split; [left|]; lia.
  - exists child. split; [done|]. split; [by left|]. split; lia.
Qed.

(** One move of the hole, seen on the keys only: [f] are the keys with
    [top] in the hole, [f'] the keys after the larger child moved up and
    [top] moved down. *)
Lemma sift_step_keys (f f' : nat → Z) s0 len hole child t :
  (∀ i, f' i = if decide (i = child) then t
               else if decide (i = hole) then f child else f i) →
  is_child hole child → s0 ≤ hole →
  (∀ p c, s0 ≤ p → p ≠ hole → c < len → is_child p c → (f c ≤ f p)%Z) →
  (∀ p c, s0 ≤ p → is_child p hole → c < len → is_child hole c → (f c ≤ f p)%Z) →
  (∀ c, c < len → is_child hole c → (f c ≤ f child)%Z) →
  child < len → (t ≤ f child)%Z →
  (∀ p c, s0 ≤ p → p ≠ child → c < len → is_child p c → (f' c ≤ f' p)%Z)
  ∧ (∀ p c, s0 ≤ p → is_child p child → c < len → is_child child c →
       (f' c ≤ f' p)%Z).
Proof.
  intros Hf' Hch Hs0 Hheap Hgrand Hmax Hlen Htop. split.
  - intros p c Hp Hpc Hc Hpch. rewrite !Hf'.
    destruct (decide (c = child)) as [->|Hcc].
    + assert (p = hole) as -> by (unfold is_child in *; lia).
      rewrite decide_False by done. rewrite decide_True by done. done.
    + rewrite (decide_False (P := p = child)) by done.
      destruct (decide (c = hole)) as [->|Hch'].
      * destruct (decide (p = hole)) as [->|Hph];
          [unfold is_child in *; lia|].
        by apply Hgrand.
      * destruct (decide (p = hole)) as [->|Hph]; [by apply Hmax|].
        by apply Hheap.
  - intros p c Hp Hpc Hc Hcc.
    assert (p = hole) as -> by (unfold is_child in *; lia).
    rewrite !Hf'.
    rewrite (decide_False (P := c = child)) by (unfold is_child in *; lia).
    rewrite (decide_False (P := c = hole)) by (unfold is_child in *; lia).
    rewrite (decide_False (P := hole = child)) by (unfold is_child in *; lia).
    rewrite decide_True by done.
    apply Hheap; [unfold is_child in *; lia | unfold is_child in *; lia | done | done].
Qed.

(** The hole-moving loop.  [a0] is the array on entry of [sift_down],
    [s0] the node sifted, [hole] the position whose content has been moved
    up, [child] its larger child. *)
Lemma sift_down_loop_spec (a0 : list T) s0 len top :
  ∀ n hole child a,
    len - child ≤ n → length a = length a0 → len ≤ length a →
    child < len → is_child hole child → s0 ≤ hole →
    <[hole := top]> a ≡ₚ a0 →
    (∀ i, len ≤ i → a !! i = a0 !! i) →
    (∀ p c, s0 ≤ p → p ≠ hole → c < len → is_child p c →
       (kat (<[hole := top]> a) c ≤ kat (<[hole := top]> a) p)%Z) →
    (∀ p c, s0 ≤ p → is_child p hole → c < len → is_child hole c →
       (kat (<[hole := top]> a) c ≤ kat (<[hole := top]> a) p)%Z) →
    (∀ c, c < len → is_child hole c →
       (kat (<[hole := top]> a) c ≤ kat (<[hole := top]> a) child)%Z) →
    (key top ≤ kat (<[hole := top]> a) child)%Z →
    ∃ a', sift_down_loop comp n len top hole child a = Some a'
          ∧ a' ≡ₚ a0 ∧ length a' = length a0
          ∧ (∀ i, len ≤ i → a' !! i = a0 !! i)
          ∧ heap_on a' s0 len.
Proof.
  induction n as [|n IH];
    intros hole child a Hn Hlen Hle Hchild Hhc Hs0 Hperm Hsuf Hheap Hgrand Hmax Htop;
    [lia|].
  assert (hole < child) as Hlt by (unfold is_child in Hhc; lia).
  destruct (lookup_lt_is_Some_2 a child) as [x Hx]; [lia|].
  simpl. rewrite Hx. simpl. rewrite put_Some by lia. simpl.
  set (b := <[hole := top]> a) in *.
  set (a1 := <[hole := x]> a).
  set (b' := <[child := top]> a1).
  assert (length a1 = length a0) as Hlen1 by (unfold a1; by rewrite length_insert).
  assert (∀ i, kat b' i = if decide (i = child) then key top
                           else if decide (i = hole) then kat b child
                           else kat b i) as Hkb'.
  { intros i. unfold b', a1, b.
    rewrite !kat_insert by (rewrite ?length_insert; lia).
    rewrite (kat_lookup _ _ _ Hx).
    repeat case_decide; subst; try done; lia. }
  destruct (sift_step_keys (kat b) (kat b') s0 len hole child (key top))
    as [HA HB]; try done.
  assert (b' ≡ₚ a0) as Hperm'.
  { rewrite <- Hperm. unfold b', a1.
    rewrite <- (list_insert_insert_eq a hole x top). fold b.
    apply Permutation_insert_swap.
    - unfold b. apply list_lookup_insert_eq. lia.
    - unfold b. rewrite list_lookup_insert_ne by lia. done. }
  assert (∀ i, len ≤ i → a1 !! i = a0 !! i) as Hsuf1.
  { intros i Hi. unfold a1. rewrite list_lookup_insert_ne by lia. by apply Hsuf. }
  assert (∀ i, len ≤ i → b' !! i = a0 !! i) as Hsuf'.
  { intros i Hi. unfold b'. rewrite list_lookup_insert_ne by lia. by apply Hsuf1. }
  assert (length b' = length a0) as Hlen'
    by (unfold b'; by rewrite length_insert).
  case_bool_decide as Hbreak.
  - rewrite put_Some by lia. exists b'. repeat split; try done.
    intros p c Hp Hc Hpc. destruct (decide (p = child)) as [->|Hne].
    + exfalso. unfold is_child in Hpc. lia.
    + by apply HA.
  - destruct (pick_child_spec len (2 * child + 1) a1)
      as (child2 & Hpick & Hwhich & Hk1 & Hk2); [lia | lia |].
    rewrite Hpick. simpl.
    destruct (lookup_lt_is_Some_2 a1 child2) as [c' Hc']; [lia|].
    rewrite Hc'. simpl. rewrite comp_key.
    assert (∀ i, i ≠ child → kat b' i = kat a1 i) as Hb'a1.
    { intros i Hi. unfold b'. rewrite kat_insert by lia.
      by rewrite decide_False by done. }
    assert (∀ c, c < len → is_child child c → (kat b' c ≤ kat b' child2)%Z)
      as Hmax'.
    { intros c Hc Hcc. rewrite !Hb'a1 by (unfold is_child in Hcc; lia).
      destruct Hcc as [->| ->]; [done|].
      replace (2 * child + 2) with (2 * child + 1 + 1) in * by lia.
      by apply Hk2. }
    assert (kat b' child2 = key c') as Hkc'.
    { rewrite Hb'a1 by lia. by apply kat_lookup. }
    case_bool_decide as Hcmp; simpl.
    + rewrite put_Some by lia. exists b'. repeat split; try done.
      intros p c Hp Hc Hpc. destruct (decide (p = child)) as [->|Hne].
      * rewrite (Hkb' child), decide_True by done.
        specialize (Hmax' c Hc Hpc). lia.
      * by apply HA.
    + apply (IH child child2 a1); try done; try lia.
      * unfold is_child. lia.
      * fold b'. lia.
Qed.

Lemma sift_down_spec len start a :
  len ≤ length a →
  heap_on a (S start) len →
  ∃ a', sift_down comp len start a = Some a'
        ∧ a' ≡ₚ a ∧ length a' = length a
        ∧ (∀ i, len ≤ i → a' !! i = a !! i)
        ∧ heap_on a' start len.
Proof.
  intros Hlen Hheap. unfold sift_down.
  destruct (bool_decide (len < 2) || bool_decide ((len - 2) / 2 < start))
    eqn:Hguard.
  - exists a. repeat split; try done.
    intros p c Hp Hc Hpc. exfalso.
    apply orb_true_iff in Hguard as [Hg|Hg];
      apply bool_decide_eq_true_1 in Hg; unfold is_child in Hpc; lia.
  - apply orb_false_iff in Hguard as [Hg1 Hg2].
    apply bool_decide_eq_false_1 in Hg1, Hg2.
    destruct (pick_child_spec len (2 * start + 1) a)
      as (child & Hpick & Hwhich & Hk1 & Hk2); [lia | lia |].
    rewrite Hpick. simpl.
    destruct (lookup_lt_is_Some_2 a child) as [c Hc]; [lia|].
    destruct (lookup_lt_is_Some_2 a start) as [s Hs]; [lia|].
    rewrite Hc, Hs. simpl. rewrite comp_key.
    assert (∀ c', c' < len → is_child start c' → (kat a c' ≤ kat a child)%Z)
      as Hmax.
    { intros c' Hc' [->| ->]; [done|].
      replace (2 * start + 2) with (2 * start + 1 + 1) in * by lia.
      by apply Hk2. }
    case_bool_decide as Hcmp.
    + exists a. repeat split; try done.
      intros p c' Hp Hc' Hpc. destruct (decide (p = start)) as [->|Hne].
      * specialize (Hmax c' Hc' Hpc).
        rewrite (kat_lookup _ _ _ Hc) in Hmax.
        rewrite (kat_lookup _ _ _ Hs). lia.
      * apply Hheap; [lia | done | done].
    + assert (<[start := s]> a = a) as Hid by (by apply list_insert_id).
      apply (sift_down_loop_spec a start len s len start child a);
        rewrite ?Hid; try done; try lia.
      * unfold is_child. lia.
      * intros p c' Hp Hne Hc' Hpc. apply Hheap; [lia | done | done].
      * intros p c' Hp Hpc. unfold is_child in Hpc. lia.
      * rewrite (kat_lookup _ _ _ Hc). lia.
Qed.

Lemma make_heap_loop_spec N :
  ∀ start a,
    N = length a →
    heap_on a (S start) N →
    ∃ a', make_heap_loop comp N start a = Some a'
          ∧ a' ≡ₚ a ∧ length a' = length a ∧ heap_on a' 0 N.
Proof.
  induction start as [|start IH]; intros a HN Hheap; simpl.
  - destruct (sift_down_spec N 0 a) as (a' & -> & Hp & Hl & _ & Hh);
      [lia | done |].
    simpl. by exists a'.
  - destruct (sift_down_spec N (S start) a) as (a' & -> & Hp & Hl & _ & Hh);
      [lia | done |].
    simpl. destruct (IH a') as (a'' & -> & Hp' & Hl' & Hh'); [lia | done |].
    exists a''. repeat split; try done.
    + by rewrite Hp'.
    + lia.
Qed.

Lemma make_heap_spec a :
  ∃ a', make_heap comp a = Some a'
        ∧ a' ≡ₚ a ∧ length a' = length a ∧ heap_on a' 0 (length a).
Proof.
  unfold make_heap. case_bool_decide as HN.
  - exists a. repeat split; try done. intros p c _ Hc _. lia.
  - apply make_heap_loop_spec; [done|].
    intros p c Hp Hc Hpc. unfold is_child in Hpc. lia.
Qed.

(** The root of a max-heap carries a largest key. *)
Lemma heap_root_max a n :
  heap_on a 0 n → ∀ i, i < n → (kat a i ≤ kat a 0)%Z.
Proof.
  intros Hheap i. induction (lt_wf i) as [i _ IH]. intros Hi.
  destruct (decide (i = 0)) as [->|Hne]; [lia|].
  pose (p := (i - 1) / 2).
  assert (is_child p i) as Hpi by (unfold is_child, p; lia).
  assert (p < i) as Hlt by (unfold p; lia).
  specialize (Hheap p i ltac:(lia) Hi Hpi).
  specialize (IH p Hlt ltac:(lia)). lia.
Qed.

Lemma sort_heap_loop_spec :
  ∀ n a,
    n ≤ length a →
    heap_on a 0 n →
    StronglySorted key_le (drop n a) →
    (∀ x y, x ∈ take n a → y ∈ drop n a → key_le x y) →
    ∃ a', sort_heap_loop comp n a = Some a'
          ∧ a' ≡ₚ a ∧ StronglySorted key_le a'.
Proof.
  induction n as [|n IH]; intros a Hn Hheap Hsorted Hsplit.
  - exists a. by rewrite drop_0 in Hsorted.
  - simpl. case_bool_decide as H1.
    + unfold pop_heap. rewrite bool_decide_eq_true_2 by lia.
      replace (S n - 1) with n by lia.
      destruct (lookup_lt_is_Some_2 a 0) as [x0 Hx0]; [lia|].
      destruct (lookup_lt_is_Some_2 a n) as [xl Hxl]; [lia|].
      unfold iter_swap. rewrite Hx0, Hxl. simpl.
      rewrite put_Some by lia. simpl.
      rewrite put_Some by (rewrite length_insert; lia). simpl.
      set (a1 := <[n := x0]> (<[0 := xl]> a)).
      assert (length a1 = length a) as Hl1
        by (unfold a1; by rewrite !length_insert).
      assert (a1 ≡ₚ a) as Hp1 by (by apply Permutation_insert_swap).
      assert (∀ i, kat a1 i = if decide (n = i) then key x0
                               else if decide (0 = i) then key xl
                               else kat a i) as Hk1.
      { intros i. unfold a1.
        by rewrite !kat_insert by (rewrite ?length_insert; lia). }
      destruct (sift_down_spec n 0 a1)
        as (a2 & -> & Hp2 & Hl2 & Hsuf2 & Hh2); [lia | |].
      { intros p c Hp Hc Hpc. rewrite !Hk1.
        rewrite !decide_False by (unfold is_child in Hpc; lia).
        apply Hheap; [lia | lia | done]. }
      simpl.
      assert (drop n a2 = x0 :: drop (S n) a) as Hdrop.
      { apply list_eq. intros i. rewrite lookup_drop, Hsuf2 by lia.
        unfold a1. destruct i as [|i].
        - rewrite Nat.add_0_r, list_lookup_insert_eq
            by (rewrite length_insert; lia). done.
        - rewrite !list_lookup_insert_ne by lia. simpl.
          rewrite lookup_drop. f_equal. lia. }
      assert (take n a2 ≡ₚ take n a1) as Htake.
      { apply (Permutation_app_inv_r (drop n a1)).
        rewrite take_drop.
        assert (drop n a1 = drop n a2) as ->.
        { apply list_eq. intros i. rewrite !lookup_drop.
          symmetry. apply Hsuf2. lia. }
        by rewrite take_drop. }
      assert (∀ x, x ∈ take n a2 → x ∈ take (S n) a) as Hin.
      { intros x Hx. rewrite Htake in Hx.
        apply elem_of_take in Hx as (i & Hi & Hlt).
        apply elem_of_take. unfold a1 in Hi.
        rewrite list_lookup_insert_ne in Hi by lia.
        destruct (decide (i = 0)) as [->|Hne].
        - rewrite list_lookup_insert_eq in Hi by lia.
          exists n. split; [congruence | lia].
        - rewrite list_lookup_insert_ne in Hi by lia.
          exists i. split; [done | lia]. }
      assert (∀ x, x ∈ take (S n) a → key_le x x0) as Hroot.
      { intros x Hx. apply elem_of_take in Hx as (i & Hi & Hlt).
        pose proof (heap_root_max a (S n) Hheap i Hlt) as Hm.
        rewrite (kat_lookup _ _ _ Hi), (kat_lookup _ _ _ Hx0) in Hm.
        done. }
      destruct (IH a2) as (a3 & -> & Hp3 & Hs3).
      * lia.
      * done.
      * rewrite Hdrop. constructor; [done|].
        apply Forall_forall. intros y Hy. apply Hsplit; [|done].
        apply elem_of_take. exists 0. split; [done | lia].
      * intros x y Hx Hy. rewrite Hdrop in Hy.
        apply elem_of_cons in Hy as [->|Hy].
        -- apply Hroot. by apply Hin.
        -- apply Hsplit; [by apply Hin | done].
      * exists a3. split; [done|]. split; [|done].
        by rewrite Hp3, Hp2.
    + exists a. split; [done|]. split; [done|].
      rewrite <- (take_drop (S n) a).
      apply StronglySorted_app_2; [done | | done].
      assert (n = 0) as -> by lia.
      destruct a as [|x a]; simpl; [constructor|].
      rewrite take_0. repeat constructor.
Qed.

(** [estd::sort] returns, and its result is a sorted rearrangement of the
    input. *)
Lemma sort_spec a :
  ∃ a', sort comp a = Some a' ∧ a' ≡ₚ a ∧ StronglySorted key_le a'.
Proof.
  unfold sort, sort_heap.
  destruct (make_heap_spec a) as (h & -> & Hp & Hl & Hh). simpl.
  destruct (sort_heap_loop_spec (length h) h) as (a' & -> & Hp' & Hs').
  - done.
  - by rewrite Hl.
  - rewrite drop_all. constructor.
  - intros x y _ Hy. rewrite drop_all in Hy. by apply elem_of_nil in Hy.
  - exists a'. split; [done|]. split; [|done]. by rewrite Hp'.
Qed.

End sort_correct.

(** ** Binary search on a sorted array *)

Section search_correct.
Context {T : Type} (key : T → Z) (comp : T → Z → bool).
Hypothesis comp_key : ∀ x v, comp x v = bool_decide (key x < v)%Z.

Lemma sorted_kat (a : list T) :
  StronglySorted (key_le key) a →
  ∀ i j, i ≤ j → j < length a → (kat key a i ≤ kat key a j)%Z.
Proof.
  induction 1 as [|x a Hs IH Hall]; intros i j Hij Hj; simpl in Hj; [lia|].
  destruct i as [|i], j as [|j]; try lia.
  - destruct (lookup_lt_is_Some_2 a j) as [y Hy]; [lia|].
    unfold kat. simpl. rewrite Hy. simpl.
    rewrite Forall_forall in Hall. apply Hall.
    by apply list_elem_of_lookup_2 with j.
  - apply (IH i j); lia.
Qed.

Lemma lower_bound_loop_spec (a : list T) (v : Z) (hi : nat) :
  hi ≤ length a →
  (∀ i j, i ≤ j → j < hi → (kat key a i ≤ kat key a j)%Z) →
  ∀ n first count,
    count ≤ n → first + count ≤ hi →
    (∀ j, j < first → (kat key a j < v)%Z) →
    (∀ j, first + count ≤ j → j < hi → (v ≤ kat key a j)%Z) →
    ∃ i, lower_bound_loop comp a v n first count = Some i
         ∧ i ≤ hi
         ∧ (∀ j, j < i → (kat key a j < v)%Z)
         ∧ (∀ j, i ≤ j → j < hi → (v ≤ kat key a j)%Z).
Proof.
  intros Hhi Hmono.
  induction n as [|n IH]; intros first count Hn Hlen Hlo Hhigh.
  - assert (count = 0) as -> by lia.
    exists first. simpl. repeat split; [lia | done |].
    intros j Hj. apply Hhigh. lia.
  - simpl. case_bool_decide as Hpos.
    + destruct (lookup_lt_is_Some_2 a (first + count / 2)) as [x Hx]; [lia|].
      rewrite Hx. simpl. rewrite comp_key.
      pose proof (kat_lookup key _ _ _ Hx) as Hkx.
      case_bool_decide as Hcmp.
      * apply IH; [lia | lia | | ].
        -- intros j Hj.
           specialize (Hmono j (first + count / 2) ltac:(lia) ltac:(lia)).
           lia.
        -- intros j Hj Hj'. apply Hhigh; lia.
      * apply IH; [lia | lia | done | ].
        intros j Hj Hj'.
        specialize (Hmono (first + count / 2) j ltac:(lia) ltac:(lia)).
        lia.
    + exists first. repeat split; [lia | done |].
      intros j Hj. apply Hhigh. lia.
Qed.

(** [lower_bound] over the sorted range [0, hi) returns the first position
    whose key is not below [v]. *)
Lemma lower_bound_spec (a : list T) (v : Z) (hi : nat) :
  hi ≤ length a →
  (∀ i j, i ≤ j → j < hi → (kat key a i ≤ kat key a j)%Z) →
  ∃ i, lower_bound a 0 hi v comp = Some i
       ∧ i ≤ hi
       ∧ (∀ j, j < i → (kat key a j < v)%Z)
       ∧ (∀ j, i ≤ j → j < hi → (v ≤ kat key a j)%Z).
Proof.
  intros Hhi Hmono. unfold lower_bound. rewrite Nat.sub_0_r.
  apply (lower_bound_loop_spec a v hi); [done | done | lia | lia | | ];
    intros j; lia.
Qed.

End search_correct.

(** ** Tokens *)

Section tokens.
Context {A : Type} (pred : A → bool).

Lemma find_if_not_le (s : list A) : (find_if_not pred s ≤ length s)%nat.
Proof. induction s as [|c s IH]; simpl; [lia|]. destruct (pred c); lia. Qed.

Lemma find_if_le (s : list A) : (find_if pred s ≤ length s)%nat.
Proof. induction s as [|c s IH]; simpl; [lia|]. destruct (pred c); lia. Qed.

Lemma find_if_not_take (s : list A) :
  Forall (λ c, pred c = true) (take (find_if_not pred s) s).
Proof.
  induction s as [|c s IH]; simpl; [constructor|].
  destruct (pred c) eqn:Hc; simpl; [by constructor | constructor].
Qed.

Lemma find_if_not_drop (s : list A) c :
  head (drop (find_if_not pred s) s) = Some c → pred c = false.
Proof.
  induction s as [|c' s IH]; simpl; [done|].
  destruct (pred c') eqn:Hc; simpl; [done|]. by intros [= <-].
Qed.

Lemma find_if_not_head (s : list A) :
  (∀ c, head s = Some c → pred c = false) → find_if_not pred s = 0%nat.
Proof.
  destruct s as [|c s]; simpl; [done|]. intros H.
  by rewrite (H c eq_refl).
Qed.

Lemma find_if_none (s : list A) :
  Forall (λ c, pred c = false) s → find_if pred s = length s.
Proof.
  induction 1 as [|c s Hc _ IH]; simpl; [done|]. by rewrite Hc, IH.
Qed.

Lemma find_if_app (a b : list A) c :
  Forall (λ c, pred c = false) a → pred c = true →
  find_if pred (a ++ c :: b) = length a.
Proof.
  intros Ha Hc. induction Ha as [|x a Hx _ IH]; simpl.
  - by rewrite Hc.
  - by rewrite Hx, IH.
Qed.

End tokens.

Lemma trim_prefix_split (s : string_view) (pred : ascii → bool) :
  ∃ ws, s = ws ++ trim_prefix s pred
        ∧ Forall (λ c, pred c = true) ws
        ∧ ∀ c, head (trim_prefix s pred) = Some c → pred c = false.
Proof.
  unfold trim_prefix, remove_prefix.
  rewrite bool_decide_eq_true_2 by apply find_if_not_le.
  exists (take (find_if_not pred s) s). split; [by rewrite take_drop|].
  split; [apply find_if_not_take | apply find_if_not_drop].
Qed.

Lemma trim_suffix_split (s : string_view) (pred : ascii → bool) :
  ∃ ws, s = trim_suffix s pred ++ ws
        ∧ Forall (λ c, pred c = true) ws
        ∧ ∀ c, last (trim_suffix s pred) = Some c → pred c = false.
Proof.
  unfold trim_suffix, remove_suffix.
  pose proof (find_if_not_le pred (reverse s)) as Hle.
  rewrite length_reverse in Hle.
  rewrite bool_decide_eq_true_2 by done.
  set (n := find_if_not pred (reverse s)) in *.
  exists (drop (length s - n) s). split; [by rewrite take_drop|]. split.
  - apply Forall_reverse. rewrite reverse_drop.
    replace (length s - (length s - n))%nat with n by lia.
    apply find_if_not_take.
  - intros c Hc. apply (find_if_not_drop pred (reverse s)). fold n.
    rewrite drop_reverse, head_reverse. done.
Qed.

Lemma trim_prefix_id (s : string_view) (pred : ascii → bool) :
  (∀ c, head s = Some c → pred c = false) → trim_prefix s pred = s.
Proof.
  intros H. unfold trim_prefix, remove_prefix.
  rewrite find_if_not_head by done. by rewrite bool_decide_eq_true_2 by lia.
Qed.

(** A token followed by a separator. *)
Lemma next_token_sep (a b : string_view) (sep : ascii) (pred : ascii → bool) :
  Forall (λ c, pred c = false) a → a ≠ [] → pred sep = true →
  next_token (a ++ sep :: b) pred = (a, b).
Proof.
  intros Ha Hne Hsep. unfold next_token.
  rewrite trim_prefix_id.
  2:{ intros c Hc. destruct a as [|x a]; [done|].
      simpl in Hc. injection Hc as <-. by inversion Ha. }
  rewrite find_if_app by done.
  rewrite bool_decide_eq_true_2 by (rewrite length_app; simpl; lia).
  unfold remove_prefix.
  rewrite bool_decide_eq_true_2 by (rewrite length_app; simpl; lia).
  rewrite take_app_length. f_equal.
  rewrite (cons_middle sep a b), app_assoc.
  rewrite drop_app_length' by (rewrite length_app; simpl; lia). done.
Qed.

(** The last token. *)
Lemma next_token_last (a : string_view) (pred : ascii → bool) :
  Forall (λ c, pred c = false) a → next_token a pred = (a, []).
Proof.
  intros Ha. unfold next_token.
  rewrite trim_prefix_id.
  2:{ intros c Hc. destruct a as [|x a]; [done|].
      simpl in Hc. injection Hc as <-. by inversion Ha. }
  rewrite find_if_none by done.
  rewrite bool_decide_eq_false_2 by lia.
  unfold remove_prefix. rewrite bool_decide_eq_true_2 by lia.
  by rewrite firstn_all, drop_all.
Qed.

#[local] Open Scope Z_scope.

Example sort_example :
  sort Z.ltb [5; 3; 9; 1; 7; 3; 8; 2]%Z = Some [1; 2; 3; 3; 5; 7; 8; 9]%Z.
Proof. reflexivity. Qed.

Example status_fields_built :
  (l ← FieldList_field_default Record_fields int16_t 0 0 (-40) 125
         Permissions.UserConfig (sv "temp");
   FieldList_field l uint8_t 2 2 0 0 Permissions.Status (sv "flags")
     set_readonly)
  = Some status_fields.
Proof. reflexivity. Qed.

Example example_dictionary_built :
  TDictionary example_items = Done example_dictionary.
Proof. reflexivity. Qed.

(** ** Bytes and scalars *)

Lemma byte_value_range b : 0 ≤ byte_value b < 256.
Proof.
  unfold byte_value. pose proof (Byte.to_N_bounded b). lia.
Qed.

Lemma byte_of_value b : byte_of (byte_value b) = b.
Proof.
  unfold byte_of. pose proof (byte_value_range b) as H.
  rewrite Z.mod_small by done. unfold byte_value.
  rewrite N2Z.id, Byte.of_to_N. done.
Qed.

Lemma byte_value_of z : byte_value (byte_of z) = z mod 256.
Proof.
  unfold byte_of, byte_value.
  destruct (Byte.of_N (Z.to_N (z mod 256))) as [b|] eqn:Hb.
  - apply Byte.to_of_N in Hb. simpl. rewrite Hb. lia.
  - apply Byte.of_N_None_iff in Hb. lia.
Qed.

Lemma le_value_range bs : 0 ≤ le_value bs < 256 ^ Z.of_nat (length bs).
Proof.
  induction bs as [|b bs IH]; simpl length; [simpl; lia|].
  rewrite Nat2Z.inj_succ, Z.pow_succ_r by lia. simpl le_value.
  pose proof (byte_value_range b). lia.
Qed.

Lemma le_bytes_value bs : le_bytes (length bs) (le_value bs) = bs.
Proof.
  induction bs as [|b bs IH]; [done|]. simpl.
  pose proof (byte_value_range b) as Hb.
  f_equal.
  - rewrite <- (byte_of_value b) at 2. unfold byte_of. do 3 f_equal.
    rewrite (Z.mul_comm 256), Z.mod_add by lia. done.
  - rewrite <- IH at 3. f_equal.
    rewrite (Z.mul_comm 256), Z.div_add by lia. rewrite Z.div_small by lia. lia.
Qed.

Lemma encode_decode T bs :
  Z.of_nat (length bs) = sizeof T → encode T (decode T bs) = bs.
Proof.
  intros Hlen. unfold encode, decode.
  rewrite firstn_all2 by lia.
  pose proof (le_value_range bs) as Hr. rewrite Hlen in Hr.
  assert (256 ^ sizeof T = 2 ^ (8 * sizeof T)) as Hpow by (by destruct T).
  rewrite Hpow in Hr.
  assert (0 < 2 ^ (8 * sizeof T)) by (by destruct T).
  set (u := le_value bs) in *.
  assert ((if is_signed T && (2 ^ (8 * sizeof T - 1) <=? u)
           then u - 2 ^ (8 * sizeof T) else u) mod 2 ^ (8 * sizeof T) = u) as ->.
  { set (M := 2 ^ (8 * sizeof T)) in *. destruct (is_signed T && _).
    - rewrite <- (Z.mod_add _ 1 M) by lia.
      replace (u - M + 1 * M) with u by lia. apply Z.mod_small. lia.
    - apply Z.mod_small. lia. }
  replace (Z.to_nat (sizeof T)) with (length bs) by lia.
  apply le_bytes_value.
Qed.

(** ** Storage *)

Lemma load_Some m addr n :
  0 ≤ addr → 0 ≤ n → addr + n ≤ Z.of_nat (length m) →
  load m addr n = Some (take (Z.to_nat n) (drop (Z.to_nat addr) m)).
Proof. intros. unfold load. by rewrite bool_decide_eq_true_2. Qed.

Lemma load_length m addr n bs :
  load m addr n = Some bs → Z.of_nat (length bs) = n.
Proof.
  unfold load. case_bool_decide as H; [|done]. intros [= <-].
  rewrite length_take, length_drop. lia.
Qed.

Lemma store_Some m addr bs :
  0 ≤ addr → addr + Z.of_nat (length bs) ≤ Z.of_nat (length m) →
  store m addr bs
  = Some (take (Z.to_nat addr) m ++ bs ++ drop (Z.to_nat addr + length bs) m).
Proof. intros. unfold store. by rewrite bool_decide_eq_true_2. Qed.

Lemma store_buffer buffer bs :
  (length bs ≤ length buffer)%nat →
  store buffer 0 bs = Some (bs ++ drop (length bs) buffer).
Proof. intros. rewrite store_Some by lia. done. Qed.

Lemma store_length m addr bs m' :
  store m addr bs = Some m' → length m' = length m.
Proof.
  unfold store. case_bool_decide as H; [|done]. intros [= <-].
  rewrite !length_app, length_take, length_drop. lia.
Qed.

Lemma store_load m addr bs m' :
  store m addr bs = Some m' → load m' addr (Z.of_nat (length bs)) = Some bs.
Proof.
  intros Hst. pose proof (store_length _ _ _ _ Hst) as Hlen.
  unfold store in Hst. case_bool_decide as H; [|done].
  injection Hst as <-. rewrite load_Some by lia. f_equal.
  rewrite drop_app_length' by (rewrite length_take; lia).
  rewrite Nat2Z.id. by rewrite take_app_length.
Qed.

Lemma memcpy_out_Done buffer m addr n bs :
  load m addr n = Some bs → n ≤ Z.of_nat (length buffer) →
  memcpy_out buffer m addr n = Done (bs ++ drop (Z.to_nat n) buffer).
Proof.
  intros Hld Hn. unfold memcpy_out. rewrite Hld. simpl.
  pose proof (load_length _ _ _ _ Hld) as Hlen.
  rewrite store_buffer by lia. simpl. do 3 f_equal. lia.
Qed.

(** ** Scalar set strategies *)

Lemma code_OK_neq e : e ≠ OK → code e ≠ code OK.
Proof. destruct e; done. Qed.

Lemma code_inj e1 e2 : code e1 = code e2 → e1 = e2.
Proof.
  destruct e1, e2; intros H; try reflexivity; vm_compute in H; discriminate H.
Qed.

Lemma sizeof_pos T : 0 < sizeof T.
Proof. by destruct T. Qed.

Lemma encode_length T v : Z.of_nat (length (encode T v)) = sizeof T.
Proof.
  unfold encode. generalize (v mod 2 ^ (8 * sizeof T)). intros z.
  assert (∀ n w, length (le_bytes n w) = n) as Hl.
  { induction n as [|n IH]; intros w; simpl; [done|]. by rewrite IH. }
  rewrite Hl. destruct T; done.
Qed.

Lemma decode_take T bs :
  decode T (take (Z.to_nat (sizeof T)) bs) = decode T bs.
Proof. unfold decode. by rewrite take_take, Nat.min_id. Qed.

Lemma encode_decode_take T bs :
  sizeof T ≤ Z.of_nat (length bs) →
  encode T (decode T bs) = take (Z.to_nat (sizeof T)) bs.
Proof.
  intros H. rewrite <- decode_take. apply encode_decode.
  pose proof (sizeof_pos T). rewrite length_take. lia.
Qed.

Lemma read_bytes_Done bs n :
  0 ≤ n ≤ Z.of_nat (length bs) →
  read_bytes (Some bs) n = Done (take (Z.to_nat n) bs).
Proof. intros. unfold read_bytes. by rewrite bool_decide_eq_true_2. Qed.

Lemma read_scalar_Done T bs :
  sizeof T ≤ Z.of_nat (length bs) →
  read_scalar T (Some bs) = Done (decode T bs).
Proof.
  intros H. pose proof (sizeof_pos T). unfold read_scalar.
  rewrite read_bytes_Done by lia.
  simpl. f_equal. apply decode_take.
Qed.

(** When the specification's verdict is [OK]. *)
Lemma scalar_verdict_OK T min max value size :
  scalar_verdict T min max value size = OK
  ↔ size = sizeof T ∧ (min = max ∨ min ≤ value ≤ max).
Proof.
  unfold scalar_verdict.
  destruct (Z.gtb_spec size (sizeof T)); [split; [done | lia]|].
  destruct (Z.ltb_spec size (sizeof T)); [split; [done | lia]|].
  case_bool_decide as Heq; [split; [intros _; split; [lia | by left] | done]|].
  destruct (Z.ltb_spec value min); [split; [done | lia]|].
  destruct (Z.gtb_spec value max); [split; [done | lia]|].
  split; [intros _; split; [lia | right; lia] | done].
Qed.

(** [check] on a non-null argument computes the specification's verdict;
    on a null argument of the right size it answers [DataTypeError]. *)
Lemma check_Some T min max bs size :
  (size = sizeof T → sizeof T ≤ Z.of_nat (length bs)) →
  check T min max (Some bs) size
  = Done (code (scalar_verdict T min max (decode T bs) size)).
Proof.
  intros Hlen. unfold check, scalar_verdict.
  destruct (Z.gtb_spec size (sizeof T)); [done|].
  destruct (Z.ltb_spec size (sizeof T)); [done|].
  case_bool_decide as Hne.
  - rewrite bool_decide_eq_false_2 by done.
    rewrite read_scalar_Done by (apply Hlen; lia). simpl.
    by repeat case_match.
  - rewrite bool_decide_eq_true_2; [done|]. by destruct (decide (min = max)).
Qed.

Lemma check_None T min max size :
  size = sizeof T → check T min max None size = Done (code DataTypeError).
Proof.
  intros ->. unfold check.
  destruct (Z.gtb_spec (sizeof T) (sizeof T)); [lia|].
  by destruct (Z.ltb_spec (sizeof T) (sizeof T)); [lia|].
Qed.

(** A scalar set strategy on an object with bound storage and a non-null
    argument: the call returns the verdict of the specification; the
    value is stored when the verdict is [OK], and nothing is written
    otherwise. *)
Lemma scalar_set_spec depth T min max f member nm i p subIdx bs size m :
  scalar_strategy T min max f member →
  let obj := {| name_ := nm; info_ := Some i; data_ := Some p |} in
  let addr := p + data_offset (header i) + member in
  let verdict := scalar_verdict T min max (decode T bs) size in
  0 ≤ addr → addr + sizeof T ≤ Z.of_nat (length m) →
  (size = sizeof T → sizeof T ≤ Z.of_nat (length bs)) →
  ∃ m', call_set (S depth) f obj subIdx (Some bs) size m
        = Done (code verdict, m')
        ∧ (verdict = OK → store m addr (encode T (decode T bs)) = Some m')
        ∧ (verdict ≠ OK → m' = m).
Proof.
  intros Hf obj addr verdict Ha Hb Hlen.
  pose proof (encode_length T (decode T bs)) as Hel.
  destruct (decide (verdict = OK)) as [Hv|Hv].
  - pose proof (proj1 (scalar_verdict_OK _ _ _ _ _) Hv) as [Hs _].
    exists (take (Z.to_nat addr) m ++ encode T (decode T bs)
            ++ drop (Z.to_nat addr + length (encode T (decode T bs))) m).
    split; [|split; [intros _; apply store_Some; lia | done]].
    destruct Hf; simpl; rewrite check_Some by done; fold verdict;
      rewrite Hv; simpl;
      rewrite read_scalar_Done by (by apply Hlen); simpl.
    + replace (p + data_offset (header i)) with addr by (unfold addr; lia).
      rewrite store_Some by lia. done.
    + fold addr. rewrite store_Some by lia. done.
  - exists m. split; [|split; [done | done]].
    destruct Hf; simpl; rewrite check_Some by done; fold verdict; simpl;
      by rewrite bool_decide_eq_true_2 by (by apply code_OK_neq).
Qed.

Lemma scalar_set_null depth T min max f member obj subIdx size m :
  scalar_strategy T min max f member →
  size = sizeof T →
  call_set (S depth) f obj subIdx None size m
  = Done (code DataTypeError, m).
Proof.
  intros Hf Hs. by destruct Hf; simpl; rewrite check_None by done.
Qed.

(** A valid scalar written by a scalar set strategy is what the storage
    holds afterwards at the strategy's target. *)
Lemma scalar_set_then_load depth T min max f member nm i p subIdx x m :
  scalar_strategy T min max f member →
  let obj := {| name_ := nm; info_ := Some i; data_ := Some p |} in
  let addr := p + data_offset (header i) + member in
  Z.of_nat (length x) = sizeof T →
  min = max ∨ min ≤ decode T x ≤ max →
  0 ≤ addr → addr + sizeof T ≤ Z.of_nat (length m) →
  ∃ m', call_set (S depth) f obj subIdx (Some x) (sizeof T) m
        = Done (code OK, m')
        ∧ load m' addr (sizeof T) = Some x.
Proof.
  intros Hf obj addr Hx Hrange Ha Hb.
  destruct (scalar_set_spec depth T min max f member nm i p subIdx x
              (sizeof T) m Hf) as (m' & Hcall & Hok & _);
    [done | done | lia |].
  assert (scalar_verdict T min max (decode T x) (sizeof T) = OK) as Hv
    by (by apply scalar_verdict_OK).
  rewrite Hv in Hcall. specialize (Hok Hv).
  exists m'. split; [done|].
  pose proof (store_load _ _ _ _ Hok) as Hld.
  by rewrite encode_length, encode_decode in Hld.
Qed.

(** ** Reading a variable *)

Lemma Object_get_variable nm i p buffer size m :
  let obj := {| name_ := nm; info_ := Some i; data_ := Some p |} in
  let data_size := data_size (header i) in
  otype (header i) = ClassId.Variable_ →
  (∀ bs, data_size < size →
         load m (p + data_offset (header i)) data_size = Some bs →
         data_size ≤ Z.of_nat (length buffer) →
         Object_get obj 0 buffer size m
         = Done (data_size, bs ++ drop (Z.to_nat data_size) buffer))
  ∧ (size ≤ data_size →
       Object_get obj 0 buffer size m = Done (data_size, buffer))
  ∧ (∀ k, k ≠ 0 →
       Object_get obj k buffer size m = Done (code FieldNotFound, buffer)).
Proof.
  intros obj data_size Hot. unfold Object_get, Object_get_all, obj. simpl.
  rewrite Hot. fold data_size. split; [|split].
  - intros bs Hsz Hld Hbuf.
    rewrite (proj2 (Z.ltb_lt _ _)) by done.
    by rewrite (memcpy_out_Done _ _ _ _ bs).
  - intros Hsz. by rewrite (proj2 (Z.ltb_ge _ _)).
  - intros k Hk. by rewrite (proj2 (Z.eqb_neq _ _)).
Qed.

(** ** Reading a record field *)

Lemma fields_at_Done (r : Record_Info) i (field : Record_FieldInfo) :
  fields_at r i = Done field ↔ 0 ≤ i ∧ fields r !! Z.to_nat i = Some field.
Proof.
  unfold fields_at. case_bool_decide as Hi.
  - destruct (fields r !! Z.to_nat i); simpl; split; try done.
    + intros [= ->]. done.
    + intros [_ [= ->]]. done.
    + by intros [_ ?].
  - split; [done | intros [? _]; lia].
Qed.

Lemma Object_get_record nm (r : Record_Info) p buffer size m k
    (field : Record_FieldInfo) bs :
  let obj := {| name_ := nm; info_ := Some (IsRecord r); data_ := Some p |} in
  otype r = ClassId.Record_ →
  1 ≤ k ≤ nelem r →
  fields r !! Z.to_nat (k - 1) = Some field →
  data_size field ≤ size →
  load m (p + data_offset field) (data_size field) = Some bs →
  data_size field ≤ Z.of_nat (length buffer) →
  Object_get obj k buffer size m
  = Done (data_size field, bs ++ drop (Z.to_nat (data_size field)) buffer).
Proof.
  intros obj Hot Hk Hf Hsz Hld Hbuf. unfold Object_get, obj. simpl.
  rewrite Hot.
  rewrite (proj2 (Z.leb_le _ _)) by lia.
  rewrite (proj2 (Z.eqb_neq _ _)) by lia.
  rewrite (proj2 (fields_at_Done r (k - 1) field)) by (split; [lia | done]).
  simpl.
  destruct (Z.gtb_spec (data_size field) size); [lia|].
  by rewrite (memcpy_out_Done _ _ _ _ bs).
Qed.

(** ** Record dispatch *)

Lemma Object_set_record (depth : nat) (nm : string_view) (r : Record_Info)
    (dp : option Z) (data : option (list byte)) (size : Z) (m : memory) :
  let obj := {| name_ := nm; info_ := Some (IsRecord r); data_ := dp |} in
  otype r = ClassId.Record_ →
  set_function r = Record_set_data →
  0 ≤ nelem r →
  Object_set (S depth) obj 0 data size m = Done (code ReadOnly, m)
  ∧ (∀ k, nelem r < k →
       Object_set (S depth) obj k data size m = Done (code FieldNotFound, m))
  ∧ (∀ k (field : Record_FieldInfo),
       1 ≤ k ≤ nelem r →
       fields r !! Z.to_nat (k - 1) = Some field →
       Object_set (S depth) obj k data size m
       = call_set depth (set_function field) obj k data size m).
Proof.
  intros obj Hot Hset Hn. unfold Object_set, obj. simpl. rewrite Hset. simpl.
  rewrite Hot. rewrite bool_decide_eq_false_2 by (by intros []). simpl.
  split; [|split].
  - destruct (Z.gtb_spec 0 (nelem r)); [lia|]. done.
  - intros k Hk. destruct (Z.gtb_spec k (nelem r)); [done | lia].
  - intros k field Hk Hf. destruct (Z.gtb_spec k (nelem r)); [lia|].
    rewrite (proj2 (Z.eqb_neq _ _)) by lia.
    rewrite (proj2 (fields_at_Done r (k - 1) field)) by (split; [lia | done]).
    done.
Qed.

(** ** Failed writes *)

Ltac step_bind H :=
  match type of H with
  | context [mbind _ ?x] =>
      let E := fresh "E" in
      destruct x eqn:E; simpl in H; try discriminate H
  end.

Lemma validates_first_preserves depth :
  ∀ f obj idx data size m,
    validates_first f = true →
    (∀ (r : Record_Info) k (field : Record_FieldInfo),
       info_ obj = Some (IsRecord r) →
       0 ≤ k < nelem r →
       fields r !! Z.to_nat k = Some field →
       validates_first (set_function field) = true) →
    failure_preserves depth f obj idx data size m.
Proof.
  induction depth as [|depth IH]; intros f obj idx data size m Hf Hfields;
    intros e m' Hcall Hne; simpl in Hcall; [done|].
  destruct f; try discriminate Hf.
  - step_bind Hcall. case_bool_decide; [by injection Hcall as _ <-|].
    repeat step_bind Hcall. by injection Hcall as <- _.
  - step_bind Hcall. case_bool_decide; [by injection Hcall as _ <-|].
    repeat step_bind Hcall. by injection Hcall as <- _.
  - destruct (size >? Length); [by injection Hcall as _ <-|].
    step_bind Hcall. destruct a; [by injection Hcall as _ <-|].
    repeat step_bind Hcall. by injection Hcall as <- _.
  - by injection Hcall as _ <-.
  - step_bind Hcall.
    destruct (bool_decide (otype (header a) ≠ ClassId.Record_)
              || (idx >? nelem (header a))) eqn:Hguard;
      [by injection Hcall as _ <-|].
    destruct (Z.eqb_spec idx 0); [by injection Hcall as _ <-|].
    apply orb_false_iff in Hguard as [_ Hle].
    repeat step_bind Hcall.
    destruct a; try discriminate. injection E0 as ->.
    apply fields_at_Done in E1 as [Hidx Hfield].
    unfold Object_info_ref in E.
    destruct (info_ obj) as [i|] eqn:Hinfo; [|done]. injection E as ->.
    eapply (IH (set_function a1) obj idx data size m); try done;
      [|by rewrite Hinfo].
    apply (Hfields a0 (idx - 1) a1); [done | | done].
    simpl in Hle. destruct (Z.gtb_spec idx (nelem a0)); [done | lia].
Qed.

(** ** The dictionary *)

Lemma compare_address_key x y :
  compare_address x y = bool_decide (address x < address y).
Proof.
  unfold compare_address. destruct (Z.ltb_spec (address x) (address y)).
  - by rewrite bool_decide_eq_true_2.
  - rewrite bool_decide_eq_false_2; [done | lia].
Qed.

(** On a dictionary whose stored items are sorted by address, the binary
    search of [Dictionary::get] returns what the linear scan returns. *)
Lemma Dictionary_get_linear (d : Dictionary) (addr : Z) :
  (count d ≤ length (items d))%nat →
  StronglySorted (key_le address) (take (count d) (items d)) →
  Dictionary_get d addr = Done (linear_get d addr).
Proof.
  intros Hcount Hsorted.
  set (s := take (count d) (items d)) in *.
  assert (length s = count d) as Hls by (unfold s; rewrite length_take; lia).
  assert (∀ i, (i < count d)%nat → items d !! i = s !! i) as Hits.
  { intros i Hi. unfold s. by rewrite lookup_take_lt. }
  assert (∀ i, (i < count d)%nat → kat address (items d) i = kat address s i)
    as Hkat.
  { intros i Hi. unfold kat. by rewrite Hits. }
  pose proof (sorted_kat address s Hsorted) as Hmono.
  assert (∀ (x : Item) (v : Z),
            (address x <? v) = bool_decide (address x < v)) as Hcomp.
  { intros x v. destruct (Z.ltb_spec (address x) v).
    - by rewrite bool_decide_eq_true_2.
    - rewrite bool_decide_eq_false_2; [done | lia]. }
  destruct (lower_bound_spec address
              (λ (l : Item) (a0 : Z), address l <? a0) Hcomp
              (items d) addr (count d))
    as (i & Hlb & Hi & Hlo & Hhi).
  { done. }
  { intros i j Hij Hj. rewrite !Hkat by lia. apply Hmono; lia. }
  unfold Dictionary_get, linear_get. fold s. rewrite Hlb. simpl.
  case_bool_decide as Hend.
  - destruct (lookup_lt_is_Some_2 s i) as [item Hitem]; [lia|].
    rewrite Hits, Hitem by lia. simpl.
    pose proof (Hhi i ltac:(lia) ltac:(lia)) as Hge.
    rewrite Hkat in Hge by lia.
    rewrite (kat_lookup _ _ _ _ Hitem) in Hge.
    destruct (Z.eqb_spec (address item) addr) as [Heq|Hne].
    + assert (list_find (λ it : Item, address it = addr) s = Some (i, item))
        as ->; [|done].
      apply list_find_Some. split; [done|]. split; [done|].
      intros j y Hy Hj Hy'.
      pose proof (Hlo j Hj) as Hlt. rewrite Hkat in Hlt by lia.
      rewrite (kat_lookup _ _ _ _ Hy) in Hlt. lia.
    + assert (list_find (λ it : Item, address it = addr) s = None) as ->;
        [|done].
      apply list_find_None. apply Forall_forall. intros y Hy Hy'.
      apply list_elem_of_lookup in Hy as [j Hj].
      pose proof (lookup_lt_Some _ _ _ Hj) as Hjlt.
      destruct (decide (j < i)%nat) as [Hlt|Hnlt].
      * pose proof (Hlo j Hlt) as Hl. rewrite Hkat in Hl by lia.
        rewrite (kat_lookup _ _ _ _ Hj) in Hl. lia.
      * pose proof (Hmono i j ltac:(lia) ltac:(lia)) as Hm.
        rewrite (kat_lookup _ _ _ _ Hitem), (kat_lookup _ _ _ _ Hj) in Hm.
        lia.
  - assert (list_find (λ it : Item, address it = addr) s = None) as ->;
      [|done].
    apply list_find_None. apply Forall_forall. intros y Hy Hy'.
    apply list_elem_of_lookup in Hy as [j Hj].
    pose proof (lookup_lt_Some _ _ _ Hj) as Hjlt.
    pose proof (Hlo j ltac:(lia)) as Hl. rewrite Hkat in Hl by lia.
    rewrite (kat_lookup _ _ _ _ Hj) in Hl. lia.
Qed.

(** The constructor returns, and stores a sorted rearrangement of the
    items it is given. *)
Lemma TDictionary_sorted (objects : list Item) :
  objects ≠ [] →
  ∃ d, TDictionary objects = Done d
       ∧ count d = length objects
       ∧ (count d ≤ length (items d))%nat
       ∧ take (count d) (items d) ≡ₚ objects
       ∧ StronglySorted (key_le address) (take (count d) (items d)).
Proof.
  intros Hne.
  destruct (sort_spec address compare_address compare_address_key objects)
    as (s & Hsort & Hperm & Hsorted).
  unfold TDictionary. rewrite Hsort. simpl.
  destruct s as [|first s'].
  { apply Permutation_nil_l in Hperm. done. }
  simpl. rewrite drop_0.
  eexists. split; [done|]. simpl.
  pose proof (Permutation_length Hperm) as Hlen. simpl in Hlen.
  assert (take (length objects) (first :: s' ++ [Item_default]) = first :: s')
    as Htake.
  { rewrite <- Hlen. change (first :: s' ++ [Item_default])
      with ((first :: s') ++ [Item_default]).
    change (S (length s')) with (length (first :: s')).
    by rewrite take_app_length. }
  rewrite Htake. repeat split; try done.
  rewrite length_app. simpl. lia.
Qed.

(** ** Queries on arrays *)

(** What [Dictionary::query] answers for a sub-object of an array: the
    comparison is between [subIdx], already incremented, and [nelem]. *)
Lemma Dictionary_query_array (d : Dictionary) (q : Query) (it : Item)
    (a : Array_Info) (i : Z) :
  Dictionary_find d (object_name q) = Done (Some it) →
  info_ (object it) = Some (IsArray a) →
  otype a = ClassId.Array →
  empty (subobject_name q) = false →
  Array_find a (subobject_name q) = Done i →
  ∃ q', Dictionary_query d q
        = Done (if bool_decide (i + 1 ≠ nelem a) then code OK
                else code FieldNotFound, q')
        ∧ subIdx q' = i + 1.
Proof.
  intros Hfind Hinfo Hot Hsub Harr. unfold Dictionary_query.
  rewrite Hfind. simpl. unfold Object_info_ref. rewrite Hinfo. simpl.
  rewrite Hsub. simpl. rewrite Hot. simpl.
  rewrite Harr. simpl. case_bool_decide; eexists; split; done.
Qed.

(** ** Field descriptions of a record *)

(** What [Object::info(k)] answers on a record: name and size are the
    field's, the offset is the record's own [data_offset]. *)
Lemma Object_info_record (nm : string_view) (r : Record_Info) (dp : option Z) :
  let obj := {| name_ := nm; info_ := Some (IsRecord r); data_ := dp |} in
  otype r = ClassId.Record_ →
  (∀ k (field : Record_FieldInfo),
     1 ≤ k ≤ nelem r →
     fields r !! Z.to_nat (k - 1) = Some field →
     Object_info obj k
     = Done {| info := field; fname := Some (name field);
               offset := data_offset r; size := data_size field |})
  ∧ (∀ k, k ≤ 0 ∨ nelem r < k →
       ∃ f, Object_info obj k = Done f ∧ fname f = None ∧ valid f = false).
Proof.
  intros obj Hot. split.
  - intros k field Hk Hf. unfold Object_info, obj. simpl.
    destruct (Z.gtb_spec k 0); [|lia].
    destruct (Z.leb_spec k (nelem r)); [|lia]. simpl. rewrite Hot.
    rewrite (proj2 (fields_at_Done r (k - 1) field)) by (split; [lia|done]).
    done.
  - intros k Hk. unfold Object_info, obj. simpl.
    destruct (Z.gtb_spec k 0); destruct (Z.leb_spec k (nelem r));
      simpl; try lia; eexists; split; done.
Qed.

(** The end-to-end scenario: the path "status.temp" resolves to
    sub-index 1 of type I16; writing 85 succeeds and 85 is read back;
    writing 200 fails with [ValueTooHigh] and the storage is unchanged;
    writing "flags" fails with [ReadOnly]. *)
Example end_to_end :
  (∃ q, Dictionary_query example_dictionary (Query_make (sv "status.temp")).1
        = Done (code OK, q)
        ∧ subIdx q = 1 ∧ type <$> qinfo q = Some DataType.I16)
  ∧ (∃ m', Object_set 2 status 1 (Some (encode int16_t 85)) 2 example_memory
           = Done (code OK, m')
           ∧ Object_get status 1 [Byte.xff; Byte.xff] 2 m'
             = Done (2, encode int16_t 85))
  ∧ Object_set 2 status 1 (Some (encode int16_t 200)) 2 example_memory
    = Done (code ValueTooHigh, example_memory)
  ∧ Object_set 2 status 2 (Some [Byte.x01]) 1 example_memory
    = Done (code ReadOnly, example_memory).
Proof.
  split; [|split; [|split]].
  - eexists. repeat split; reflexivity.
  - eexists. split; reflexivity.
  - reflexivity.
  - reflexivity.
Qed.

(** ** Arrays of scalars *)

(** The [i]-th of the chunks of [s] bytes that follow one another. *)
Lemma mjoin_chunk (s : nat) (chunks : list (list byte)) (i : nat)
    (c : list byte) :
  Forall (λ c, length c = s) chunks →
  chunks !! i = Some c →
  take s (drop (s * i) (mjoin chunks)) = c.
Proof.
  intros Hall. revert i. induction Hall as [|c0 chunks Hc0 Hall IH];
    intros i Hi; [done|].
  destruct i as [|i]; simpl in Hi.
  - injection Hi as ->. rewrite Nat.mul_0_r. simpl.
    rewrite <- Hc0. apply take_app_length.
  - change (mjoin (c0 :: chunks)) with (c0 ++ mjoin chunks).
    replace (s * S i)%nat with (length c0 + s * i)%nat by lia.
    rewrite drop_app_add'; [|done]. by apply IH.
Qed.

Lemma load_slice (m : memory) (addr n off len : Z) (bs : list byte) :
  load m addr n = Some bs →
  0 ≤ off → 0 ≤ len → off + len ≤ n →
  load m (addr + off) len
  = Some (take (Z.to_nat len) (drop (Z.to_nat off) bs)).
Proof.
  unfold load. intros Hld Hoff Hlen Hfit.
  case_bool_decide as Hin; [|done]. injection Hld as <-.
  rewrite bool_decide_eq_true_2 by lia. f_equal.
  apply list_eq. intros i.
  destruct (decide (i < Z.to_nat len)%nat).
  - rewrite !lookup_take_lt by lia. rewrite !lookup_drop.
    rewrite lookup_take_lt by lia. rewrite lookup_drop. f_equal. lia.
  - rewrite !lookup_take_ge by lia. done.
Qed.

(* ================================================================== *)
(** * Part III: the claims *)
(* ================================================================== *)

(** ** C1: queries on arrays *)

(** C1 (defect in the code).  In the example dictionary, "gains" is an
    array of the three elements "kp", "ki", "kd".  The name of the last
    element is found at index 2, yet the query fails with
    [FieldNotFound]; a name that matches no element is answered with [OK]
    and the sub-index 4. *)
Theorem C1_array_query_off_by_one :
  Array_find gains_info (sv "kd") = Done 2
  ∧ (∃ q', Dictionary_query example_dictionary (Query_make (sv "gains.kd")).1
           = Done (code FieldNotFound, q') ∧ subIdx q' = 3)
  ∧ Array_find gains_info (sv "zz") = Done (nelem gains_info)
  ∧ (∃ q', Dictionary_query example_dictionary (Query_make (sv "gains.zz")).1
           = Done (code OK, q') ∧ subIdx q' = 4)
  ∧ (∃ q', Dictionary_query example_dictionary (Query_make (sv "gains.ki")).1
           = Done (code OK, q') ∧ subIdx q' = 2).
Proof. repeat split; eexists; split; reflexivity. Qed.

(** ** C2: field descriptions of a record *)

(** C2 (defect in the code).  The record "status" declares "temp" at
    offset 0 (2 bytes) and "flags" at offset 2 (1 byte).  [info(2)]
    returns the name "flags" and the size 1 but the offset 0, the
    record's own offset; [info(0)] and [info(3)] are invalid. *)
Theorem C2_record_info_offset :
  (∃ field : Record_FieldInfo,
     fields status_info !! 1%nat = Some field
     ∧ name field = sv "flags" ∧ data_offset field = 2 ∧ data_size field = 1)
  ∧ (∃ f, Object_info status 2 = Done f
          ∧ fname f = Some (sv "flags") ∧ size f = 1 ∧ offset f = 0)
  ∧ (∃ f, Object_info status 1 = Done f
          ∧ fname f = Some (sv "temp") ∧ size f = 2 ∧ offset f = 0)
  ∧ (∃ f, Object_info status 0 = Done f ∧ fname f = None)
  ∧ (∃ f, Object_info status 3 = Done f ∧ fname f = None).
Proof. repeat split; eexists; repeat split; reflexivity. Qed.

(** ** C3: reading a variable *)

(** C3 (defect in the code).  "speed" is a 16-bit variable whose storage
    holds the bytes 34 12.  With the capacity 2, the size of the scalar,
    [get(0, ...)] returns 2 and leaves the buffer untouched; with the
    capacity 3 it copies the two bytes.  Every other sub-index fails with
    [FieldNotFound]. *)
Theorem C3_variable_get_exact_capacity :
  data_size speed_info = 2
  ∧ load example_memory 6 2 = Some [Byte.x34; Byte.x12]
  ∧ Object_get speed 0 [Byte.xff; Byte.xff] 2 example_memory
    = Done (2, [Byte.xff; Byte.xff])
  ∧ Object_get speed 0 [Byte.xff; Byte.xff; Byte.xff] 3 example_memory
    = Done (2, [Byte.x34; Byte.x12; Byte.xff])
  ∧ Object_get speed 1 [Byte.xff; Byte.xff] 2 example_memory
    = Done (code FieldNotFound, [Byte.xff; Byte.xff]).
Proof. repeat split. Qed.

(** ** C4: the query constructor *)

(** C4, as stated, fails: the white space around the separator is kept. *)
Lemma C4_counterexample :
  let q := (Query_make (sv "motor . speed")).1 in
  object_name q = sv "motor " ∧ subobject_name q = sv " speed"
  ∧ trimmed (object_name q) = false ∧ trimmed (subobject_name q) = false.
Proof. repeat split. Qed.

(** C4 (amended).  Constructing a query splits the input at a separator
    ['.'], [':'] or ['/'] into [object_name] and [subobject_name]; white
    space is removed in front of [object_name] and behind
    [subobject_name], and nowhere else; [subIdx] starts at [-1].  Without
    a separator [subobject_name] is empty.  "motor.speed" yields "motor"
    and "speed"; "motor" yields "motor" and the empty name. *)
Theorem C4_query_split :
  (∀ a b sep,
     Forall (λ c, issep c = false) a → a ≠ [] → issep sep = true →
     Forall (λ c, issep c = false) b →
     let q := (Query_make (a ++ sep :: b)).1 in
     object_name q = trim_prefix a isspace
     ∧ subobject_name q = trim_suffix b isspace
     ∧ subIdx q = (-1)%Z)
  ∧ (∀ a,
       Forall (λ c, issep c = false) a →
       let q := (Query_make a).1 in
       object_name q = trim_prefix a isspace
       ∧ subobject_name q = []
       ∧ subIdx q = (-1)%Z)
  ∧ (∀ s, ∃ ws, s = ws ++ trim_prefix s isspace
                ∧ Forall (λ c, isspace c = true) ws
                ∧ ∀ c, head (trim_prefix s isspace) = Some c →
                       isspace c = false)
  ∧ (∀ s, ∃ ws, s = trim_suffix s isspace ++ ws
                ∧ Forall (λ c, isspace c = true) ws
                ∧ ∀ c, last (trim_suffix s isspace) = Some c →
                       isspace c = false)
  ∧ (let q := (Query_make (sv "motor.speed")).1 in
     object_name q = sv "motor" ∧ subobject_name q = sv "speed")
  ∧ (let q := (Query_make (sv "motor")).1 in
     object_name q = sv "motor" ∧ subobject_name q = []
     ∧ subIdx q = (-1)%Z).
Proof.
  split; [|split; [|split; [|split; [|split]]]].
  - intros a b sep Ha Hne Hsep Hb. unfold Query_make.
    rewrite next_token_sep by done. rewrite next_token_last by done.
    done.
  - intros a Ha. unfold Query_make.
    rewrite next_token_last by done.
    rewrite (next_token_last []) by constructor. done.
  - intros s. apply trim_prefix_split.
  - intros s. apply trim_suffix_split.
  - done.
  - done.
Qed.

Lemma C4_query_split_witness :
  let q := (Query_make (sv " motor/speed ")).1 in
  object_name q = sv "motor" ∧ subobject_name q = sv "speed"
  ∧ subIdx q = (-1)%Z.
Proof.
  assert (Forall (λ c, issep c = false) (sv " motor")) as Ha
    by (repeat constructor).
  assert (Forall (λ c, issep c = false) (sv "speed ")) as Hb
    by (repeat constructor).
  assert (sv " motor" ≠ []) as Hne by discriminate.
  assert (issep "/"%char = true) as Hsep by reflexivity.
  exact (proj1 C4_query_split (sv " motor") (sv "speed ") "/"%char
           Ha Hne Hsep Hb).
Defined.

(** ** C5: the scalar set strategy *)

(** C5, as stated, fails on the null argument: the size matches, the range
    is empty, and the call fails with [DataTypeError]. *)
Lemma C5_counterexample :
  set_function speed_info = set_variable uint16_t 0 0
  ∧ sizeof uint16_t = 2
  ∧ Object_set 1 speed 0 None 2 example_memory
    = Done (code DataTypeError, example_memory)
  ∧ code DataTypeError ≠ code OK.
Proof. repeat split. by apply code_OK_neq. Qed.

(** C5 (amended).  For a scalar set strategy over [T] with bounds
    [min ≤ max], on an object with bound storage and a non-null argument
    of [size] readable bytes: a longer argument gives [ParamTooLong], a
    shorter one [ParamTooShort]; with [min ≠ max] a value below [min]
    gives [ValueTooLow] and one above [max] [ValueTooHigh]; the call
    succeeds exactly when the size is [sizeof(T)] and the value is in range
    or [min = max], and then the value is stored; a failing call leaves
    the storage unchanged.  A null argument of matching size gives
    [DataTypeError]. *)
Theorem C5_set_scalar (depth : nat) (T : ctype) (min max : Z)
    (f : SetFunctionType) (member : Z)
    (nm : string_view) (i : InfoObject) (p subIdx : Z) (bs : list byte)
    (size : Z) (m : memory) :
  let obj := {| name_ := nm; info_ := Some i; data_ := Some p |} in
  let addr := p + data_offset (header i) + member in
  let value := decode T bs in
  let set := call_set (S depth) f obj subIdx in
  scalar_strategy T min max f member →
  min ≤ max →
  0 ≤ addr → addr + sizeof T ≤ Z.of_nat (length m) →
  size ≤ Z.of_nat (length bs) →
  (sizeof T < size → set (Some bs) size m = Done (code ParamTooLong, m))
  ∧ (size < sizeof T → set (Some bs) size m = Done (code ParamTooShort, m))
  ∧ (size = sizeof T → min ≠ max → value < min →
       set (Some bs) size m = Done (code ValueTooLow, m))
  ∧ (size = sizeof T → min ≠ max → max < value →
       set (Some bs) size m = Done (code ValueTooHigh, m))
  ∧ (size = sizeof T → min = max ∨ min ≤ value ≤ max →
       ∃ m', set (Some bs) size m = Done (code OK, m')
             ∧ store m addr (encode T value) = Some m'
             ∧ load m' addr (sizeof T) = Some (take (Z.to_nat (sizeof T)) bs))
  ∧ (∀ e m', set (Some bs) size m = Done (e, m') →
       (e = code OK ↔ size = sizeof T ∧ (min = max ∨ min ≤ value ≤ max))
       ∧ (e ≠ code OK → m' = m))
  ∧ (size = sizeof T → set None size m = Done (code DataTypeError, m)).
Proof.
  intros obj addr value set Hf Hmm Ha Hb Hlen.
  pose proof (sizeof_pos T) as Hpos.
  destruct (scalar_set_spec depth T min max f member nm i p subIdx bs size m Hf)
    as (m' & Hset & Hok & Hfail); [done | done | lia |].
  fold obj set value addr in Hset, Hok, Hfail.
  pose proof (scalar_verdict_OK T min max value size) as HOK.
  assert (∀ e, scalar_verdict T min max value size = e → e ≠ OK →
               set (Some bs) size m = Done (code e, m)) as Hbad.
  { intros e He Hne. rewrite Hset, He. rewrite Hfail; [done | congruence]. }
  split; [|split; [|split; [|split; [|split; [|split]]]]].
  - intros Hs. apply Hbad; [|done]. unfold scalar_verdict.
    by destruct (Z.gtb_spec size (sizeof T)); [|lia].
  - intros Hs. apply Hbad; [|done]. unfold scalar_verdict.
    destruct (Z.gtb_spec size (sizeof T)); [lia|].
    by destruct (Z.ltb_spec size (sizeof T)); [|lia].
  - intros Hs Hne Hv. apply Hbad; [|done]. unfold scalar_verdict.
    destruct (Z.gtb_spec size (sizeof T)); [lia|].
    destruct (Z.ltb_spec size (sizeof T)); [lia|].
    rewrite bool_decide_eq_false_2 by done.
    by destruct (Z.ltb_spec value min); [|lia].
  - intros Hs Hne Hv. apply Hbad; [|done]. unfold scalar_verdict.
    destruct (Z.gtb_spec size (sizeof T)); [lia|].
    destruct (Z.ltb_spec size (sizeof T)); [lia|].
    rewrite bool_decide_eq_false_2 by done.
    destruct (Z.ltb_spec value min); [lia|].
    by destruct (Z.gtb_spec value max); [|lia].
  - intros Hs Hr. exists m'.
    assert (scalar_verdict T min max value size = OK) as Hv
      by (by apply HOK).
    specialize (Hok Hv). split; [by rewrite Hset, Hv|]. split; [done|].
    pose proof (store_load _ _ _ _ Hok) as Hld.
    rewrite encode_length in Hld. rewrite Hld.
    unfold value. by rewrite encode_decode_take by lia.
  - intros e m'' H. rewrite Hset in H. injection H as <- <-.
    split; [split|].
    + intros He. apply code_inj in He. by apply HOK.
    + intros Hr. f_equal. by apply HOK.
    + intros Hne. apply Hfail. intros Hv. apply Hne. by rewrite Hv.
  - intros Hs. by apply (scalar_set_null depth T min max f member).
Qed.

Lemma C5_set_scalar_witness :
  ∃ m', call_set 1 (set_variable uint16_t 0 0) speed 0
          (Some [Byte.x78; Byte.x56]) 2 example_memory
        = Done (code OK, m')
        ∧ load m' 6 2 = Some [Byte.x78; Byte.x56].
Proof.
  assert (0 ≤ 0) as Hmm by lia.
  assert (0 ≤ 6 + data_offset (header (IsVariable speed_info)) + 0) as Ha
    by (change (0 ≤ 6 + 0 + 0); lia).
  assert (6 + data_offset (header (IsVariable speed_info)) + 0
          + sizeof uint16_t ≤ Z.of_nat (length example_memory)) as Hb
    by (change (6 + 0 + 0 + 2 ≤ 8); lia).
  assert (2 ≤ Z.of_nat (length [Byte.x78; Byte.x56])) as Hlen
    by (change (2 ≤ 2); lia).
  destruct (C5_set_scalar 0 uint16_t 0 0 (set_variable uint16_t 0 0) 0
              (sv "speed") (IsVariable speed_info)
              6 0 [Byte.x78; Byte.x56] 2 example_memory
              (scalar_variable uint16_t 0 0) Hmm Ha Hb Hlen)
    as (_ & _ & _ & _ & Hok & _).
  destruct (Hok eq_refl (or_introl eq_refl)) as (m' & Hset & _ & Hld).
  exists m'. split; [exact Hset | exact Hld].
Defined.

(** ** C6: reading an array *)

(** C6, as stated, fails on two inputs.  The offset of an element goes
    through the [uint16_t] parameter of [Object::data]: the array "far"
    begins at offset 65534, its second element lies at 65538, and
    [get(2, ...)] returns the four bytes at offset 2.  The sub-index is a
    [uint8_t]: on the array "cells" of 255 elements the argument
    [255 + 1] is sub-index 0, and [get] returns the count. *)
Lemma C6_counterexample :
  (nelem far_info = 2 ∧ type_size (type far_info) = 4
   ∧ load far_memory (0 + data_offset far_info + 4 * (2 - 1)) 4
     = Some [Byte.x1b; Byte.x1c; Byte.x1d; Byte.x1e]
   ∧ Object_get far 2 (replicate 4 Byte.xff) 4 far_memory
     = Done (4, [Byte.x02; Byte.x03; Byte.x04; Byte.x05]))
  ∧ (nelem cells_info = 255
     ∧ Object_get cells (to_uint8 (255 + 1)) [Byte.x00] 1 example_memory
       = Done (1, [Byte.xff])
     ∧ 1 ≠ code FieldNotFound).
Proof.
  split.
  - split; [reflexivity|]. split; [reflexivity|].
    split; vm_compute; reflexivity.
  - split; [reflexivity|]. split; [vm_compute; reflexivity|].
    vm_compute. discriminate.
Qed.

(** C6 (amended).  For an array object of [N] elements with a bound data
    pointer whose elements lie within the 16-bit offsets:
    [get(0, ...)] yields exactly one byte equal to [N], whatever capacity
    is passed; [get(k, ...)] for [1 ≤ k ≤ N] yields the
    [type_size(type)] bytes of the [k]-th element, which for an array of
    elements of type [T] are the [sizeof(T)] bytes that represent the
    [k]-th of the values stored; [get(k, ...)] for every sub-index
    [N < k ≤ 255] fails with [FieldNotFound], so [get(N + 1, ...)] does
    when [N < 255]; for [N = 255] the argument [N + 1] is sub-index 0. *)
Theorem C6_array_get (nm : string_view) (a : Array_Info) (p : Z)
    (m : memory) (buffer : list byte) (size : Z) :
  let N := nelem a in
  let elem_size := type_size (type a) in
  let obj := {| name_ := nm; info_ := Some (IsArray a); data_ := Some p |} in
  otype a = ClassId.Array →
  0 ≤ N ≤ 255 →
  0 ≤ data_offset a < 65536 →
  data_offset a + elem_size * N ≤ 65536 →
  ((1 ≤ length buffer)%nat →
     Object_get obj 0 buffer size m = Done (1, byte_of N :: drop 1 buffer)
     ∧ byte_value (byte_of N) = N)
  ∧ (∀ k bs,
       1 ≤ k ≤ N →
       load m (p + data_offset a + elem_size * (k - 1)) elem_size = Some bs →
       elem_size ≤ Z.of_nat (length buffer) →
       Object_get obj k buffer size m
       = Done (elem_size, bs ++ drop (Z.to_nat elem_size) buffer))
  ∧ (∀ (T : ctype) (xs : list Z) k x,
       type a = Type_id T →
       load m (p + data_offset a) (sizeof T * N)
       = Some (mjoin (encode T <$> xs)) →
       1 ≤ k ≤ N →
       xs !! Z.to_nat (k - 1) = Some x →
       sizeof T ≤ Z.of_nat (length buffer) →
       Object_get obj k buffer size m
       = Done (sizeof T, encode T x ++ drop (Z.to_nat (sizeof T)) buffer))
  ∧ (∀ k, N < k ≤ 255 →
       Object_get obj k buffer size m = Done (code FieldNotFound, buffer))
  ∧ (N < 255 →
     Object_get obj (to_uint8 (N + 1)) buffer size m
     = Done (code FieldNotFound, buffer))
  ∧ (N = 255 → (1 ≤ length buffer)%nat →
     Object_get obj (to_uint8 (N + 1)) buffer size m
     = Done (1, byte_of N :: drop 1 buffer)).
Proof.
  intros N elem_size obj Hot HN Hoff Hext.
  assert (0 ≤ elem_size) as Hes by (unfold elem_size; destruct (type a); done).
  assert ((1 ≤ length buffer)%nat →
          Object_get obj 0 buffer size m
          = Done (1, byte_of N :: drop 1 buffer)) as Hcount.
  { intros Hbuf. unfold Object_get, obj. simpl. rewrite Hot.
    rewrite (proj2 (Z.leb_le 0 (nelem a))) by lia.
    simpl. rewrite store_buffer by (simpl; lia). done. }
  assert (∀ k bs,
            1 ≤ k ≤ N →
            load m (p + data_offset a + elem_size * (k - 1)) elem_size
            = Some bs →
            elem_size ≤ Z.of_nat (length buffer) →
            Object_get obj k buffer size m
            = Done (elem_size, bs ++ drop (Z.to_nat elem_size) buffer))
    as Helem.
  { intros k bs Hk Hld Hcap. unfold Object_get, obj. simpl. rewrite Hot.
    rewrite (proj2 (Z.leb_le k (nelem a))) by lia.
    rewrite (proj2 (Z.eqb_neq k 0)) by lia.
    fold elem_size.
    assert (to_uint16 (data_offset a + elem_size * (k - 1))
            = data_offset a + elem_size * (k - 1)) as ->.
    { unfold to_uint16. apply Z.mod_small. fold N in Hk. nia. }
    rewrite Z.add_assoc.
    rewrite (memcpy_out_Done _ _ _ _ bs) by done. done. }
  assert (∀ k, N < k →
            Object_get obj k buffer size m
            = Done (code FieldNotFound, buffer)) as Hpast.
  { intros k Hk. unfold Object_get, obj. simpl. rewrite Hot.
    rewrite (proj2 (Z.leb_gt k (nelem a))) by done. done. }
  split; [|split; [|split; [|split; [|split]]]].
  - intros Hbuf. split; [by apply Hcount|].
    rewrite byte_value_of. lia.
  - exact Helem.
  - intros T xs k x HT Hld Hk Hx Hcap.
    assert (elem_size = sizeof T) as Hsz
      by (unfold elem_size; rewrite HT; by destruct T).
    pose proof (sizeof_pos T) as Hpos.
    rewrite <- Hsz. rewrite <- Hsz in Hld, Hcap.
    apply Helem; [done| |done].
    rewrite (load_slice m (p + data_offset a) (elem_size * N)
               (elem_size * (k - 1)) elem_size _ Hld) by nia.
    f_equal.
    replace (Z.to_nat (elem_size * (k - 1)))
      with (Z.to_nat elem_size * Z.to_nat (k - 1))%nat by nia.
    apply mjoin_chunk.
    + apply Forall_fmap, Forall_forall. intros y _. simpl.
      pose proof (encode_length T y). lia.
    + by rewrite list_lookup_fmap, Hx.
  - intros k Hk. apply Hpast. lia.
  - intros HN'. apply Hpast. unfold to_uint8.
    rewrite Z.mod_small by lia. lia.
  - intros HN' Hbuf. rewrite HN'. change (to_uint8 (255 + 1)) with 0.
    rewrite <- HN'. by apply Hcount.
Qed.

Lemma C6_array_get_witness :
  Object_get gains 0 [Byte.xff; Byte.xff] 0 example_memory
  = Done (1, [Byte.x03; Byte.xff])
  ∧ Object_get gains 2 [Byte.xff; Byte.xff] 2 example_memory
    = Done (1, [Byte.x0b; Byte.xff])
  ∧ Object_get words 2 [Byte.xff; Byte.xff; Byte.xff] 0 example_memory
    = Done (2, encode uint16_t 0x1234 ++ [Byte.xff])
  ∧ Object_get gains 4 [Byte.xff; Byte.xff] 2 example_memory
    = Done (code FieldNotFound, [Byte.xff; Byte.xff])
  ∧ Object_get gains (to_uint8 (3 + 1)) [Byte.xff; Byte.xff] 2 example_memory
    = Done (code FieldNotFound, [Byte.xff; Byte.xff]).
Proof.
  assert (otype gains_info = ClassId.Array) as H1 by reflexivity.
  assert (0 ≤ nelem gains_info ≤ 255) as H2 by (change (0 ≤ 3 ≤ 255); lia).
  assert (0 ≤ data_offset gains_info < 65536) as H3
    by (change (0 ≤ 3 < 65536); lia).
  assert (data_offset gains_info
          + type_size (type gains_info) * nelem gains_info ≤ 65536) as H4
    by (change (3 + 1 * 3 ≤ 65536); lia).
  assert (otype words_info = ClassId.Array) as P1 by reflexivity.
  assert (0 ≤ nelem words_info ≤ 255) as P2
    by (change (0 ≤ 2 ≤ 255); lia).
  assert (0 ≤ data_offset words_info < 65536) as P3
    by (change (0 ≤ 4 < 65536); lia).
  assert (data_offset words_info
          + type_size (type words_info) * nelem words_info ≤ 65536) as P4
    by (change (4 + 2 * 2 ≤ 65536); lia).
  split; [|split; [|split; [|split]]].
  - apply (proj1 (C6_array_get (sv "gains") gains_info 0 example_memory
                    [Byte.xff; Byte.xff] 0 H1 H2 H3 H4)).
    simpl. lia.
  - apply (proj1 (proj2 (C6_array_get (sv "gains") gains_info 0
                           example_memory [Byte.xff; Byte.xff] 2
                           H1 H2 H3 H4)) 2 [Byte.x0b]).
    + change (1 ≤ 2 ≤ 3). lia.
    + reflexivity.
    + change (1 ≤ 2). lia.
  - apply (proj1 (proj2 (proj2 (C6_array_get (sv "words") words_info 0
                           example_memory [Byte.xff; Byte.xff; Byte.xff] 0
                           P1 P2 P3 P4)))
             uint16_t [0x0c0b; 0x1234] 2 0x1234).
    + reflexivity.
    + reflexivity.
    + change (1 ≤ 2 ≤ 2). lia.
    + reflexivity.
    + change (2 ≤ 3). lia.
  - apply (proj1 (proj2 (proj2 (proj2 (C6_array_get (sv "gains") gains_info 0
                           example_memory [Byte.xff; Byte.xff] 2
                           H1 H2 H3 H4)))) 4).
    change (3 < 4 ≤ 255). lia.
  - apply (proj1 (proj2 (proj2 (proj2 (proj2
             (C6_array_get (sv "gains") gains_info 0
                example_memory [Byte.xff; Byte.xff] 2 H1 H2 H3 H4)))))).
    change (3 < 255). lia.
Defined.

(** ** C7: the dictionary *)

(** C7.  A dictionary constructed from items given in any order stores
    them sorted ascending by address; for every address the binary search
    of [Dictionary::get] agrees with a linear scan over the stored items,
    returns the object of an item bearing the address when there is one,
    and null when there is none. *)
Theorem C7_dictionary_sorted_lookup (objects : list Item) :
  objects ≠ [] →
  ∃ d, TDictionary objects = Done d
       ∧ count d = length objects
       ∧ take (count d) (items d) ≡ₚ objects
       ∧ StronglySorted (key_le address) (take (count d) (items d))
       ∧ ∀ addr,
           Dictionary_get d addr = Done (linear_get d addr)
           ∧ (∀ it, it ∈ objects → address it = addr →
                ∃ it', it' ∈ objects ∧ address it' = addr
                       ∧ Dictionary_get d addr = Done (Some (object it')))
           ∧ ((∀ it, it ∈ objects → address it ≠ addr) →
                Dictionary_get d addr = Done None).
Proof.
  intros Hne.
  destruct (TDictionary_sorted objects Hne)
    as (d & Hd & Hcount & Hle & Hperm & Hsorted).
  exists d. repeat split; try done.
  - by apply Dictionary_get_linear.
  - intros it Hin Haddr.
    rewrite Dictionary_get_linear by done. unfold linear_get.
    destruct (list_find (λ it0 : Item, address it0 = addr)
                (take (count d) (items d))) as [[j it']|] eqn:Hfind.
    + apply list_find_Some in Hfind as (Hj & Hit' & _).
      exists it'. split; [|done].
      rewrite <- Hperm. by apply list_elem_of_lookup_2 with j.
    + apply list_find_None in Hfind. rewrite Forall_forall in Hfind.
      exfalso. apply (Hfind it); [by rewrite Hperm | done].
  - intros Habs. rewrite Dictionary_get_linear by done. unfold linear_get.
    destruct (list_find (λ it0 : Item, address it0 = addr)
                (take (count d) (items d))) as [[j it']|] eqn:Hfind; [|done].
    apply list_find_Some in Hfind as (Hj & Hit' & _).
    exfalso. apply (Habs it'); [|done].
    rewrite <- Hperm. by apply list_elem_of_lookup_2 with j.
Qed.

Lemma C7_dictionary_sorted_lookup_witness :
  ∃ d, TDictionary example_items = Done d
       ∧ count d = 3%nat
       ∧ take (count d) (items d) ≡ₚ example_items
       ∧ StronglySorted (key_le address) (take (count d) (items d))
       ∧ Dictionary_get d 0x2000 = Done (Some status)
       ∧ Dictionary_get d 0x2001 = Done None.
Proof.
  destruct (C7_dictionary_sorted_lookup example_items)
    as (d & Hd & Hcount & Hperm & Hsorted & Hget).
  - discriminate.
  - exists d. repeat split; try done.
    + rewrite example_dictionary_built in Hd. injection Hd as <-.
      reflexivity.
    + rewrite example_dictionary_built in Hd. injection Hd as <-.
      reflexivity.
Defined.

(** ** C8: failed writes *)

(** C8, as stated, fails on a chain: the scalar strategy stores the
    value, the read-only strategy then reports [ReadOnly]. *)
Lemma C8_counterexample :
  ¬ failure_preserves 2 (set_chain (set_variable uint8_t 0 0) set_readonly)
      chained_flag 0 (Some [Byte.x05]) 1 [Byte.x00].
Proof.
  intros H.
  specialize (H (code ReadOnly) [Byte.x05] eq_refl ltac:(done)).
  discriminate H.
Qed.

(** C8 (amended).  A strategy that validates before it writes — the
    read-only, scalar, member and string strategies, and the record
    dispatch over such fields — leaves the storage unchanged whenever it
    returns an error; the external-setter strategy does so when its
    validation fails; a chain returns the error of its first function
    with the storage that function left, without calling the second; an
    object bound to the read-only strategy answers [ReadOnly] for every
    sub-index and leaves the storage unchanged. *)
Theorem C8_failed_set_preserves_storage (depth : nat) (obj : Object)
    (idx : Z) (data : option (list byte)) (size : Z) (m : memory) :
  (∀ f,
     validates_first f = true →
     (∀ (r : Record_Info) k (field : Record_FieldInfo),
        info_ obj = Some (IsRecord r) →
        0 ≤ k < nelem r →
        fields r !! Z.to_nat k = Some field →
        validates_first (set_function field) = true) →
     failure_preserves depth f obj idx data size m)
  ∧ (∀ T setf min max e,
       check T min max data size = Done e → e ≠ code OK →
       call_set (S depth) (set_wrapper T setf min max) obj idx data size m
       = Done (e, m))
  ∧ (∀ f1 f2 e m1,
       call_set depth f1 obj idx data size m = Done (e, m1) → e ≠ code OK →
       call_set (S depth) (set_chain f1 f2) obj idx data size m = Done (e, m1))
  ∧ (∀ i,
       info_ obj = Some i → set_function (header i) = set_readonly →
       Object_set (S depth) obj idx data size m = Done (code ReadOnly, m)).
Proof.
  split; [|split; [|split]].
  - intros f Hf Hfields. by apply validates_first_preserves.
  - intros T setf min max e Hcheck Hne. simpl. rewrite Hcheck. simpl.
    by rewrite bool_decide_eq_true_2.
  - intros f1 f2 e m1 Hcall Hne. simpl. rewrite Hcall. simpl.
    by rewrite bool_decide_eq_false_2.
  - intros i Hi Hset. unfold Object_set, Object_info_ref. rewrite Hi. simpl.
    by rewrite Hset.
Qed.

Lemma C8_failed_set_preserves_storage_witness :
  failure_preserves 2 Record_set_data status 1
    (Some (encode int16_t 200)) 2 example_memory
  ∧ call_set 2 Record_set_data status 1 (Some (encode int16_t 200)) 2
      example_memory
    = Done (code ValueTooHigh, example_memory)
  ∧ Object_set 2 status 2 (Some [Byte.x01]) 1 example_memory
    = Done (code ReadOnly, example_memory).
Proof.
  split; [|split].
  - apply (proj1 (C8_failed_set_preserves_storage 2 status 1
                    (Some (encode int16_t 200)) 2 example_memory)).
    + reflexivity.
    + intros r k field [= <-] Hk Hf.
      assert (k = 0 ∨ k = 1) as [-> | ->]
        by (change (nelem status_info) with 2 in Hk; lia);
        simpl in Hf; injection Hf as <-; reflexivity.
  - reflexivity.
  - reflexivity.
Defined.

(** ** C9: writing then reading *)

(** C9, as stated, fails on an object bound to the external-setter
    strategy: the setter accepts the value, the storage keeps its
    content, and [get] returns the old byte. *)
Lemma C9_counterexample :
  ¬ roundtrip 1 trigger 0 [Byte.x05] [Byte.xff; Byte.xff] 2 [Byte.x00].
Proof.
  intros (m' & buffer' & Hset & Hget & Hx).
  injection Hset as <-. injection Hget as <-. discriminate Hx.
Qed.

(** C9 (amended).  Where the set strategy stores the scalar at the place
    [get] reads, a valid value is read back: for a variable bound to
    [set_variable<T>] through sub-index 0 into a buffer of capacity above
    [sizeof(T)], and for a record field bound to [set_default] whose
    member location is the field's [data_offset], into a buffer of
    capacity at least [sizeof(T)]. *)
Theorem C9_roundtrip (depth : nat) (T : ctype) (min max : Z)
    (nm : string_view) (p : Z) (x buffer : list byte) (capacity : Z)
    (m : memory) :
  Z.of_nat (length x) = sizeof T →
  min = max ∨ min ≤ decode T x ≤ max →
  sizeof T ≤ Z.of_nat (length buffer) →
  (∀ v : Variable_Info,
     otype v = ClassId.Variable_ →
     set_function v = set_variable T min max →
     data_size v = sizeof T →
     0 ≤ p + data_offset v →
     p + data_offset v + sizeof T ≤ Z.of_nat (length m) →
     sizeof T < capacity →
     roundtrip (S depth)
       {| name_ := nm; info_ := Some (IsVariable v); data_ := Some p |}
       0 x buffer capacity m)
  ∧ (∀ (r : Record_Info) k (field : Record_FieldInfo) member,
       otype r = ClassId.Record_ →
       set_function r = Record_set_data →
       1 ≤ k ≤ nelem r →
       fields r !! Z.to_nat (k - 1) = Some field →
       set_function field = set_default T member min max →
       data_size field = sizeof T →
       data_offset r + member = data_offset field →
       0 ≤ p + data_offset field →
       p + data_offset field + sizeof T ≤ Z.of_nat (length m) →
       sizeof T ≤ capacity →
       roundtrip (S (S depth))
         {| name_ := nm; info_ := Some (IsRecord r); data_ := Some p |}
         k x buffer capacity m).
Proof.
  intros Hx Hrange Hbuf. pose proof (sizeof_pos T) as Hpos.
  assert (Z.to_nat (sizeof T) = length x) as Hnat by lia.
  split.
  - intros v Hot Hset Hds Ha Hb Hcap.
    destruct (scalar_set_then_load depth T min max (set_variable T min max) 0
                nm (IsVariable v) p 0 x m (scalar_variable T min max))
      as (m' & Hcall & Hld); [done | done | simpl; lia | simpl; lia |].
    simpl in Hld. rewrite Z.add_0_r in Hld.
    exists m', (x ++ drop (Z.to_nat (sizeof T)) buffer).
    split; [|split].
    + unfold Object_set, Object_info_ref. simpl. rewrite Hset, Hx. exact Hcall.
    + rewrite Hx.
      destruct (Object_get_variable nm (IsVariable v) p buffer capacity m')
        as (Hget & _); [done|].
      simpl in Hget. rewrite Hds in Hget. apply Hget; [done | done | done].
    + by rewrite take_app_length.
  - intros r k field member Hot Hset Hk Hf Hfset Hds Hoff Ha Hb Hcap.
    destruct (scalar_set_then_load depth T min max
                (set_default T member min max) member
                nm (IsRecord r) p k x m (scalar_default T min max member))
      as (m' & Hcall & Hld); [done | done | simpl; lia | simpl; lia |].
    simpl in Hld.
    replace (p + data_offset r + member) with (p + data_offset field)
      in Hld by lia.
    exists m', (x ++ drop (Z.to_nat (sizeof T)) buffer).
    split; [|split].
    + destruct (Object_set_record (S depth) nm r (Some p) (Some x)
                  (sizeof T) m) as (_ & _ & Hdel); [done | done | lia |].
      rewrite Hx. rewrite (Hdel k field) by done. rewrite Hfset. exact Hcall.
    + rewrite Hx. rewrite <- Hds.
      apply Object_get_record; try done; rewrite ?Hds; try done; lia.
    + by rewrite take_app_length.
Qed.

Lemma C9_roundtrip_witness :
  roundtrip 1 speed 0 [Byte.x78; Byte.x56]
    [Byte.xff; Byte.xff; Byte.xff; Byte.xff] 4 example_memory
  ∧ roundtrip 2 status 1 (encode int16_t 85)
      [Byte.xff; Byte.xff] 2 example_memory.
Proof.
  assert (2 ≤ 4) as H24 by lia.
  assert (2 ≤ 2) as H22 by lia.
  assert (-40 ≤ decode int16_t (encode int16_t 85) ≤ 125) as Hr
    by (change (-40 ≤ 85 ≤ 125); lia).
  split.
  - apply (proj1 (C9_roundtrip 0 uint16_t 0 0 (sv "speed") 6
                    [Byte.x78; Byte.x56]
                    [Byte.xff; Byte.xff; Byte.xff; Byte.xff] 4 example_memory
                    eq_refl (or_introl eq_refl) H24)
                 speed_info).
    + reflexivity.
    + reflexivity.
    + reflexivity.
    + change (0 ≤ 6). lia.
    + change (8 ≤ 8). lia.
    + change (2 < 4). lia.
  - apply (proj2 (C9_roundtrip 0 int16_t (-40) 125 (sv "status") 0
                    (encode int16_t 85) [Byte.xff; Byte.xff] 2 example_memory
                    eq_refl (or_intror Hr) H22)
                 status_info 1
                 (FieldInfo_make int16_t Permissions.UserConfig (sv "temp") 0
                    (set_default int16_t 0 (-40) 125) (-40) 125) 0).
    + reflexivity.
    + reflexivity.
    + change (1 ≤ 1 ≤ 2). lia.
    + reflexivity.
    + reflexivity.
    + reflexivity.
    + reflexivity.
    + change (0 ≤ 0). lia.
    + change (2 ≤ 8). lia.
    + change (2 ≤ 2). lia.
Defined.

(** ** C10: the record dispatch *)

(** C10.  On an object whose [Info] is a record bound to
    [Record::detail::set_data]: [set(0, ...)] returns [ReadOnly];
    [set(k, ...)] with [k > nelem] returns [FieldNotFound]; [set(k, ...)]
    with [1 ≤ k ≤ nelem] is the call of the set function of field [k - 1]
    with the same arguments, and returns its result. *)
Theorem C10_record_set_data (depth : nat) (nm : string_view) (r : Record_Info)
    (dp : option Z) (data : option (list byte)) (size : Z) (m : memory) :
  let obj := {| name_ := nm; info_ := Some (IsRecord r); data_ := dp |} in
  otype r = ClassId.Record_ →
  set_function r = Record_set_data →
  0 ≤ nelem r →
  Object_set (S depth) obj 0 data size m = Done (code ReadOnly, m)
  ∧ (∀ k, nelem r < k →
       Object_set (S depth) obj k data size m = Done (code FieldNotFound, m))
  ∧ (∀ k (field : Record_FieldInfo),
       1 ≤ k ≤ nelem r →
       fields r !! Z.to_nat (k - 1) = Some field →
       Object_set (S depth) obj k data size m
       = call_set depth (set_function field) obj k data size m).
Proof. apply Object_set_record. Qed.

Lemma C10_record_set_data_witness :
  Object_set 2 status 0 (Some [Byte.x01]) 1 example_memory
  = Done (code ReadOnly, example_memory)
  ∧ Object_set 2 status 3 (Some [Byte.x01]) 1 example_memory
    = Done (code FieldNotFound, example_memory)
  ∧ Object_set 2 status 2 (Some [Byte.x01]) 1 example_memory
    = call_set 1 set_readonly status 2 (Some [Byte.x01]) 1 example_memory.
Proof.
  destruct (C10_record_set_data 1 (sv "status") status_info (Some 0)
              (Some [Byte.x01]) 1 example_memory) as (H0 & Hout & Hin).
  - reflexivity.
  - reflexivity.
  - change (0 ≤ 2). lia.
  - split; [exact H0|]. split.
    + apply Hout. change (2 < 3). lia.
    + apply (Hin 2 (FieldInfo_make uint8_t Permissions.Status (sv "flags") 2
                      set_readonly 0 0)).
      * change (1 ≤ 2 ≤ 2). lia.
      * reflexivity.
Defined.

(* ================================================================== *)
(** * Part IV: further properties of the program *)
(* ================================================================== *)

(** ** The order on string views *)

Lemma compare_cases a b : compare a b = -1 ∨ compare a b = 0 ∨ compare a b = 1.
Proof.
  revert b. induction a as [|x a IH]; intros [|y b]; simpl; auto.
  destruct (tolower x <? tolower y); auto.
  destruct (tolower x >? tolower y); auto.
Qed.

Lemma compare_antisym a b : compare b a = - compare a b.
Proof.
  revert b. induction a as [|x a IH]; intros [|y b]; simpl; try done.
  destruct (Z.ltb_spec (tolower x) (tolower y)),
           (Z.ltb_spec (tolower y) (tolower x)),
           (Z.gtb_spec (tolower x) (tolower y)),
           (Z.gtb_spec (tolower y) (tolower x)); try lia.
  apply IH.
Qed.

Lemma compare_eq_iff a b :
  compare a b = 0 ↔ tolower <$> a = tolower <$> b.
Proof.
  revert b. induction a as [|x a IH]; intros [|y b]; simpl compare; try done.
  destruct (Z.ltb_spec (tolower x) (tolower y));
    [split; [done | intros [= ? _]; lia]|].
  destruct (Z.gtb_spec (tolower x) (tolower y));
    [split; [done | intros [= ? _]; lia]|].
  rewrite IH. rewrite !fmap_cons. split.
  - intros Heq. rewrite Heq. f_equal. lia.
  - by intros [= _ ?].
Qed.

Lemma compare_trans a b c :
  compare a b ≤ 0 → compare b c ≤ 0 →
  compare a c ≤ 0 ∧ (compare a b < 0 ∨ compare b c < 0 → compare a c < 0).
Proof.
  revert b c. induction a as [|x a IH]; intros [|y b] [|z c]; simpl;
    try lia.
  destruct (Z.ltb_spec (tolower x) (tolower y)),
           (Z.gtb_spec (tolower x) (tolower y)),
           (Z.ltb_spec (tolower y) (tolower z)),
           (Z.gtb_spec (tolower y) (tolower z)),
           (Z.ltb_spec (tolower x) (tolower z)),
           (Z.gtb_spec (tolower x) (tolower z)); try lia.
  apply IH.
Qed.

Lemma compare_refl a : compare a a = 0.
Proof. by apply compare_eq_iff. Qed.

(** ** Prefix test *)

Lemma starts_with_loop_spec (s2 : list ascii) :
  ∀ s1, (length s2 ≤ length s1)%nat →
    starts_with_loop (length s2) s1 s2
    = Some (string_view_eq (take (length s2) s1) s2).
Proof.
  unfold string_view_eq.
  induction s2 as [|c2 s2 IH]; intros [|c1 s1] Hlen; simpl in *; try done;
    try lia.
  case_bool_decide as Hne.
  - destruct (Z.ltb_spec (tolower c1) (tolower c2)); [done|].
    destruct (Z.gtb_spec (tolower c1) (tolower c2)); [done | lia].
  - destruct (Z.ltb_spec (tolower c1) (tolower c2)); [lia|].
    destruct (Z.gtb_spec (tolower c1) (tolower c2)); [lia|].
    apply IH. lia.
Qed.

(** ** Views of C strings *)

Lemma view_from_cstring_loop_spec (str : list ascii) :
  ∀ n i,
    (i + n ≤ length str)%nat
    ∨ (∃ j c, (i ≤ j < i + n)%nat ∧ str !! j = Some c ∧ char_code c = 0) →
    ∃ k, view_from_cstring_loop str n i = Some k
         ∧ (i ≤ k ≤ i + n)%nat ∧ (k ≤ length str)%nat
         ∧ (∀ j c, (i ≤ j < k)%nat → str !! j = Some c → char_code c ≠ 0)
         ∧ ((k = i + n)%nat
            ∨ ∃ c, str !! k = Some c ∧ char_code c = 0).
Proof.
  induction n as [|n IH]; intros i Hok; simpl.
  - exists i. split; [done|]. split; [lia|]. split.
    { destruct Hok as [?|(j & c & ? & _)]; lia. }
    split; [intros j c ?; lia | left; lia].
  - assert (is_Some (str !! i)) as [c Hc].
    { destruct Hok as [Hlen|(j & c & Hj & Hc & _)].
      - apply lookup_lt_is_Some_2. lia.
      - apply lookup_lt_is_Some_2. apply lookup_lt_Some in Hc. lia. }
    rewrite Hc. simpl.
    pose proof (lookup_lt_Some _ _ _ Hc) as Hilt.
    destruct (Z.eqb_spec (char_code c) 0) as [Hz|Hnz].
    + exists i. split; [done|]. split; [lia|]. split; [lia|].
      split; [intros j c' ?; lia | right; by exists c].
    + destruct (IH (S i)) as (k & Hk & Hrange & Hlen & Hnonul & Hstop).
      { destruct Hok as [Hlen|(j & c' & Hj & Hc' & Hz)]; [left; lia|].
        right. exists j, c'. split; [|done].
        destruct (decide (j = i)) as [->|]; [congruence | lia]. }
      exists k. split; [done|]. split; [lia|]. split; [done|]. split.
      * intros j c' Hj Hc'.
        destruct (decide (j = i)) as [->|]; [congruence|].
        apply (Hnonul j); [lia | done].
      * destruct Hstop as [->|Hstop]; [left; lia | by right].
Qed.

(** ** Trimming and tokens *)

Section tokens_more.
Context {A : Type} (pred : A → bool).

Lemma find_if_take (s : list A) :
  Forall (λ c, pred c = false) (take (find_if pred s) s).
Proof.
  induction s as [|c s IH]; simpl; [constructor|].
  destruct (pred c) eqn:Hc; simpl; [constructor | by constructor].
Qed.

Lemma find_if_lookup (s : list A) :
  (find_if pred s < length s)%nat →
  ∃ c, s !! find_if pred s = Some c ∧ pred c = true.
Proof.
  induction s as [|c s IH]; simpl; [lia|].
  destruct (pred c) eqn:Hc; simpl; [by exists c|].
  intros H. apply IH. lia.
Qed.

Lemma find_if_not_lookup (s : list A) :
  (find_if_not pred s < length s)%nat →
  ∃ c, s !! find_if_not pred s = Some c ∧ pred c = false.
Proof.
  induction s as [|c s IH]; simpl; [lia|].
  destruct (pred c) eqn:Hc; simpl; [|by exists c].
  intros H. apply IH. lia.
Qed.

Lemma find_if_not_app (ws t : list A) :
  Forall (λ c, pred c = true) ws →
  (∀ c, head t = Some c → pred c = false) →
  find_if_not pred (ws ++ t) = length ws.
Proof.
  intros Hws Ht. induction Hws as [|x ws Hx _ IH]; simpl.
  - by apply find_if_not_head.
  - by rewrite Hx, IH.
Qed.

End tokens_more.

Lemma trim_prefix_app (ws t : string_view) (pred : ascii → bool) :
  Forall (λ c, pred c = true) ws →
  (∀ c, head t = Some c → pred c = false) →
  trim_prefix (ws ++ t) pred = t.
Proof.
  intros Hws Ht. unfold trim_prefix, remove_prefix.
  rewrite find_if_not_app by done.
  rewrite bool_decide_eq_true_2 by (rewrite length_app; lia).
  by rewrite drop_app_length.
Qed.

Lemma trim_suffix_app (t ws : string_view) (pred : ascii → bool) :
  Forall (λ c, pred c = true) ws →
  (∀ c, last t = Some c → pred c = false) →
  trim_suffix (t ++ ws) pred = t.
Proof.
  intros Hws Ht. unfold trim_suffix, remove_suffix.
  rewrite reverse_app.
  rewrite find_if_not_app.
  - rewrite length_reverse.
    rewrite bool_decide_eq_true_2 by (rewrite length_app; lia).
    rewrite length_app.
    replace (length t + length ws - length ws)%nat with (length t) by lia.
    by rewrite take_app_length.
  - by apply Forall_reverse.
  - intros c Hc. apply Ht. by rewrite <- head_reverse.
Qed.

(** ** Further properties: string views *)

(** X1.  [operator==] on string views holds exactly when the two views
    have the same characters up to the case of the ASCII letters (so also
    the same length); it is reflexive, symmetric and transitive. *)
Theorem string_view_eq_ignores_case (a b c : string_view) :
  (string_view_eq a b = true ↔ tolower <$> a = tolower <$> b)
  ∧ string_view_eq a a = true
  ∧ string_view_eq a b = string_view_eq b a
  ∧ (string_view_eq a b = true → string_view_eq b c = true →
     string_view_eq a c = true).
Proof.
  unfold string_view_eq. split; [|split; [|split]].
  - rewrite Z.eqb_eq. apply compare_eq_iff.
  - by rewrite compare_refl.
  - rewrite (compare_antisym a b).
    destruct (Z.eqb_spec (compare a b) 0), (Z.eqb_spec (- compare a b) 0);
      try done; lia.
  - rewrite !Z.eqb_eq, !compare_eq_iff. congruence.
Qed.

Lemma string_view_eq_ignores_case_witness :
  string_view_eq (sv "Speed") (sv "SPEED") = true.
Proof.
  apply (proj2 (proj2 (proj2
           (string_view_eq_ignores_case (sv "Speed") (sv "speed") (sv "SPEED")))));
    reflexivity.
Defined.

(** X2.  The relational operators on string views are those of one total
    preorder: of [a < b], [a == b] and [b < a] exactly one holds; [<] is
    transitive; and [a != b], [a <= b], [a > b], [a >= b] are
    [!(a == b)], [!(b < a)], [b < a] and [!(a < b)]. *)
Theorem string_view_order (a b c : string_view) :
  ((string_view_lt a b = true ∧ string_view_eq a b = false
    ∧ string_view_lt b a = false)
   ∨ (string_view_lt a b = false ∧ string_view_eq a b = true
      ∧ string_view_lt b a = false)
   ∨ (string_view_lt a b = false ∧ string_view_eq a b = false
      ∧ string_view_lt b a = true))
  ∧ (string_view_lt a b = true → string_view_lt b c = true →
     string_view_lt a c = true)
  ∧ string_view_ne a b = negb (string_view_eq a b)
  ∧ string_view_le a b = negb (string_view_lt b a)
  ∧ string_view_gt a b = string_view_lt b a
  ∧ string_view_ge a b = negb (string_view_lt a b).
Proof.
  unfold string_view_lt, string_view_eq, string_view_ne, string_view_le,
    string_view_gt, string_view_ge.
  pose proof (compare_antisym a b) as Hab.
  split; [|split; [|split; [|split; [|split]]]].
  - destruct (Z.ltb_spec (compare a b) 0), (Z.eqb_spec (compare a b) 0),
      (Z.ltb_spec (compare b a) 0); try lia; auto.
  - rewrite !Z.ltb_lt. intros H1 H2.
    apply (compare_trans a b c); [lia | lia | by left].
  - done.
  - rewrite Hab. destruct (Z.leb_spec (compare a b) 0),
      (Z.ltb_spec (- compare a b) 0); try done; lia.
  - rewrite Hab. destruct (Z.gtb_spec (compare a b) 0),
      (Z.ltb_spec (- compare a b) 0); try done; lia.
  - destruct (Z.geb_spec (compare a b) 0), (Z.ltb_spec (compare a b) 0);
      try done; lia.
Qed.

Lemma string_view_order_witness :
  string_view_lt (sv "gains") (sv "STATUS") = true.
Proof.
  apply (proj1 (proj2
           (string_view_order (sv "gains") (sv "Speed") (sv "STATUS"))));
    reflexivity.
Defined.

(** X3.  [starts_with] never reads outside the two views, and answers
    true exactly when the view begins with characters that [operator==]
    equates with [other]. *)
Theorem starts_with_prefix (s other : string_view) :
  ∃ b, starts_with s other = Some b
       ∧ (b = true ↔ ∃ p rest, s = p ++ rest ∧ string_view_eq p other = true).
Proof.
  unfold starts_with. case_bool_decide as Hlen.
  - exists false. split; [done|]. split; [done|].
    intros (p & rest & -> & Heq). exfalso.
    unfold string_view_eq in Heq. apply Z.eqb_eq, compare_eq_iff in Heq.
    apply (f_equal length) in Heq. rewrite !length_fmap in Heq.
    rewrite length_app in Hlen. lia.
  - rewrite starts_with_loop_spec by lia. eexists. split; [done|]. split.
    + intros Heq. exists (take (length other) s), (drop (length other) s).
      by rewrite take_drop.
    + intros (p & rest & -> & Heq).
      assert (length p = length other) as <-; [|by rewrite take_app_length].
      unfold string_view_eq in Heq. apply Z.eqb_eq, compare_eq_iff in Heq.
      apply (f_equal length) in Heq. by rewrite !length_fmap in Heq.
Qed.

(** X4.  [view_from_cstring(str, length)], when the characters at [str]
    hold a NUL among the first [length] or are at least [length] many,
    returns the view of the characters before the first NUL, cut at
    [length]: a prefix without NUL that ends at a NUL or has [length]
    characters. *)
Theorem view_from_cstring_spec (str : list ascii) (length0 : nat) :
  (length0 ≤ length str)%nat
  ∨ (∃ j c, (j < length0)%nat ∧ str !! j = Some c ∧ char_code c = 0) →
  ∃ v, view_from_cstring str length0 = Some v
       ∧ (∃ rest, str = v ++ rest)
       ∧ (length v ≤ length0)%nat
       ∧ Forall (λ c, char_code c ≠ 0) v
       ∧ (length v = length0
          ∨ ∃ c, str !! length v = Some c ∧ char_code c = 0).
Proof.
  intros Hok.
  destruct (view_from_cstring_loop_spec str length0 0%nat)
    as (k & Hk & Hrange & Hlen & Hnonul & Hstop).
  { destruct Hok as [?|(j & c & ? & ?)]; [left; lia|].
    right. exists j, c. split; [lia | done]. }
  unfold view_from_cstring. rewrite Hk. simpl.
  exists (take k str). split; [done|].
  assert (length (take k str) = k) as Hlk by (rewrite length_take; lia).
  rewrite Hlk. split; [|split; [lia|split]].
  - exists (drop k str). by rewrite take_drop.
  - apply Forall_forall. intros c Hc.
    apply elem_of_take in Hc as (j & Hj & Hjk).
    apply (Hnonul j c); [lia | done].
  - destruct Hstop as [->|?]; [by left | by right].
Qed.

Lemma view_from_cstring_spec_witness :
  ∃ v, view_from_cstring (sv "ab" ++ [zero] ++ sv "cd") 5 = Some v
       ∧ length v = 2%nat.
Proof.
  destruct (view_from_cstring_spec (sv "ab" ++ [zero] ++ sv "cd") 5)
    as (v & Hv & _).
  - left. simpl. lia.
  - exists v. split; [exact Hv|].
    vm_compute in Hv. injection Hv as <-. reflexivity.
Defined.

(** X5.  Trimming is idempotent, trimming the front and trimming the back
    commute, and after both no character that satisfies the predicate is
    left at either end. *)
Theorem trim_compose (s : string_view) (pred : ascii → bool) :
  trim_prefix (trim_prefix s pred) pred = trim_prefix s pred
  ∧ trim_suffix (trim_suffix s pred) pred = trim_suffix s pred
  ∧ trim_prefix (trim_suffix s pred) pred = trim_suffix (trim_prefix s pred) pred
  ∧ (∀ c, head (trim_suffix (trim_prefix s pred) pred) = Some c →
          pred c = false)
  ∧ (∀ c, last (trim_suffix (trim_prefix s pred) pred) = Some c →
          pred c = false).
Proof.
  destruct (trim_prefix_split s pred) as (ws1 & Hs & Hws1 & Hhead).
  destruct (trim_suffix_split (trim_prefix s pred) pred)
    as (ws2 & Ht & Hws2 & Hlast).
  set (t1 := trim_prefix s pred) in *.
  set (t2 := trim_suffix t1 pred) in *.
  assert (∀ c, head t2 = Some c → pred c = false) as Hhead2.
  { intros c Hc. apply Hhead. rewrite Ht.
    destruct t2; [done|]. done. }
  split; [|split; [|split; [|split]]].
  - by apply trim_prefix_id.
  - destruct (trim_suffix_split s pred) as (ws & Hs' & Hws & Hl).
    rewrite <- (app_nil_r (trim_suffix s pred)) at 1.
    by apply trim_suffix_app.
  - destruct (decide (t2 = [])) as [He|Hne].
    + rewrite He. rewrite He in Ht. simpl in Ht.
      assert (t1 = []) as Ht1.
      { destruct t1 as [|c t1']; [done|]. exfalso.
        specialize (Hhead c eq_refl). rewrite <- Ht in Hws2.
        inversion Hws2; congruence. }
      rewrite Hs, Ht1, app_nil_r.
      rewrite <- (app_nil_l ws1) at 1.
      rewrite trim_suffix_app; [done | done | done].
    + rewrite Hs, Ht, app_assoc.
      rewrite trim_suffix_app; [|done|].
      * by apply trim_prefix_app.
      * intros c Hc. apply Hlast. rewrite last_app in Hc.
        destruct (last t2) eqn:Hl2; [done|].
        apply last_None in Hl2. done.
  - done.
  - done.
Qed.

(** X6.  [next_token] skips the leading separators and returns the
    characters up to the next separator, which it consumes: the token
    holds no separator, the input is [separators ++ token] followed,
    unless it ends there, by one separator and the remaining input; the
    token is empty exactly when the input holds separators only; a
    non-empty input gets shorter. *)
Theorem next_token_decompose (s : string_view) (pred : ascii → bool) :
  let tok := (next_token s pred).1 in
  let rest := (next_token s pred).2 in
  Forall (λ c, pred c = false) tok
  ∧ (∃ seps, Forall (λ c, pred c = true) seps
             ∧ ((s = seps ++ tok ∧ rest = [])
                ∨ ∃ sep, pred sep = true ∧ s = seps ++ tok ++ sep :: rest))
  ∧ (tok = [] ↔ Forall (λ c, pred c = true) s)
  ∧ (s ≠ [] → (length rest < length s)%nat).
Proof.
  intros tok rest.
  destruct (trim_prefix_split s pred) as (seps & Hs & Hseps & Hhead).
  unfold tok, rest, next_token. simpl.
  set (str := trim_prefix s pred) in *.
  set (loc := find_if pred str).
  pose proof (find_if_le pred str) as Hloc. fold loc in Hloc.
  assert (str ≠ [] → loc ≠ 0%nat) as Hpos.
  { destruct str as [|c str'] eqn:Hstr; [done|]. intros _.
    unfold loc. simpl. by rewrite (Hhead c eq_refl). }
  assert (Forall (λ c, pred c = false) (take loc str)) as Htok
    by apply find_if_take.
  assert (take loc str = [] ↔ Forall (λ c, pred c = true) s) as Hempty.
  { split.
    - intros He. assert (str = []) as Hnil.
      { destruct (decide (str = [])) as [|Hne]; [done|].
        specialize (Hpos Hne). destruct str; [done|].
        destruct loc; [done | discriminate He]. }
      rewrite Hs, Hnil, app_nil_r. done.
    - intros Hall. assert (str = []) as ->; [|by rewrite take_nil].
      destruct str as [|c str'] eqn:Hstr; [done|]. exfalso.
      specialize (Hhead c eq_refl). rewrite Hs in Hall.
      apply Forall_app in Hall as [_ Hall]. inversion Hall; congruence. }
  case_bool_decide as Hfound; unfold remove_prefix.
  - rewrite bool_decide_eq_true_2 by lia.
    destruct (find_if_lookup pred str Hfound) as (sep & Hsep & Hp).
    fold loc in Hsep.
    assert (str = take loc str ++ sep :: drop (loc + 1) str) as Hsplit.
    { rewrite Nat.add_1_r. symmetry. by apply take_drop_middle. }
    split; [done|]. split; [|split; [done|]].
    + exists seps. split; [done|]. right. exists sep. split; [done|].
      by rewrite <- Hsplit.
    + intros _. pose proof (f_equal length Hs) as Hl.
      rewrite length_app in Hl. rewrite length_drop. lia.
  - rewrite bool_decide_eq_true_2 by lia.
    assert (loc = length str) as Heq by lia.
    split; [done|]. split; [|split; [done|]].
    + exists seps. split; [done|]. left.
      rewrite Heq, take_ge, drop_ge by lia. done.
    + intros Hne. rewrite Heq, drop_ge by lia. simpl.
      destruct s; [done | simpl; lia].
Qed.

(** ** Heap sort under any comparator *)

Section sort_total.
Context {T : Type} (comp : T → T → bool).

Lemma pick_child_any len child (a : list T) :
  (child < len)%nat → (len ≤ length a)%nat →
  ∃ r, pick_child comp len child a = Some r
       ∧ (child ≤ r ≤ child + 1)%nat ∧ (r < len)%nat.
Proof.
  intros Hc Hlen. unfold pick_child. case_bool_decide as Hr.
  - destruct (lookup_lt_is_Some_2 a child) as [l Hl]; [lia|].
    destruct (lookup_lt_is_Some_2 a (child + 1)) as [r Hr']; [lia|].
    rewrite Hl, Hr'. simpl. destruct (comp l r); eexists; (split; [done|]); lia.
  - exists child. split; [done|]. lia.
Qed.

Lemma sift_down_loop_any (a0 : list T) len top :
  ∀ n hole child a,
    (len - child ≤ n)%nat → length a = length a0 → (len ≤ length a)%nat →
    (child < len)%nat → (hole < child)%nat →
    <[hole := top]> a ≡ₚ a0 →
    ∃ a', sift_down_loop comp n len top hole child a = Some a'
          ∧ a' ≡ₚ a0 ∧ length a' = length a0.
Proof.
  induction n as [|n IH]; intros hole child a Hn Hlen Hle Hchild Hlt Hperm;
    [lia|].
  destruct (lookup_lt_is_Some_2 a child) as [x Hx]; [lia|].
  simpl. rewrite Hx. simpl. rewrite put_Some by lia. simpl.
  set (a1 := <[hole := x]> a).
  set (b' := <[child := top]> a1).
  assert (length a1 = length a0) as Hlen1 by (unfold a1; by rewrite length_insert).
  assert (length b' = length a0) as Hlen'
    by (unfold b'; by rewrite length_insert).
  assert (b' ≡ₚ a0) as Hperm'.
  { rewrite <- Hperm. unfold b', a1.
    rewrite <- (list_insert_insert_eq a hole x top).
    apply Permutation_insert_swap.
    - apply list_lookup_insert_eq. lia.
    - rewrite list_lookup_insert_ne by lia. done. }
  case_bool_decide as Hbreak.
  - rewrite put_Some by lia. by exists b'.
  - destruct (pick_child_any len (2 * child + 1) a1)
      as (child2 & Hpick & Hwhich & Hc2); [lia | lia |].
    rewrite Hpick. simpl.
    destruct (lookup_lt_is_Some_2 a1 child2) as [c' Hc']; [lia|].
    rewrite Hc'. simpl.
    destruct (comp c' top); simpl.
    + rewrite put_Some by lia. by exists b'.
    + apply (IH child child2 a1); try done; lia.
Qed.

Lemma sift_down_any len start (a : list T) :
  (len ≤ length a)%nat →
  ∃ a', sift_down comp len start a = Some a' ∧ a' ≡ₚ a ∧ length a' = length a.
Proof.
  intros Hlen. unfold sift_down.
  destruct (bool_decide (len < 2)%nat || bool_decide ((len - 2) / 2 < start)%nat)
    eqn:Hguard; [by exists a|].
  apply orb_false_iff in Hguard as [Hg1 Hg2].
  apply bool_decide_eq_false_1 in Hg1, Hg2.
  destruct (pick_child_any len (2 * start + 1) a)
    as (child & Hpick & Hwhich & Hc); [lia | lia |].
  rewrite Hpick. simpl.
  destruct (lookup_lt_is_Some_2 a child) as [c Hc']; [lia|].
  destruct (lookup_lt_is_Some_2 a start) as [s Hs]; [lia|].
  rewrite Hc', Hs. simpl.
  destruct (comp c s); [by exists a|].
  apply (sift_down_loop_any a len s len start child a); try done; try lia.
  by rewrite list_insert_id.
Qed.

Lemma make_heap_loop_any N :
  ∀ start (a : list T),
    N = length a →
    ∃ a', make_heap_loop comp N start a = Some a'
          ∧ a' ≡ₚ a ∧ length a' = length a.
Proof.
  induction start as [|start IH]; intros a HN; simpl.
  - destruct (sift_down_any N 0 a) as (a' & -> & Hp & Hl); [lia|].
    simpl. by exists a'.
  - destruct (sift_down_any N (S start) a) as (a' & -> & Hp & Hl); [lia|].
    simpl. destruct (IH a') as (a'' & -> & Hp' & Hl'); [lia|].
    exists a''. split; [done|]. split; [by rewrite Hp' | lia].
Qed.

Lemma make_heap_any (a : list T) :
  ∃ a', make_heap comp a = Some a' ∧ a' ≡ₚ a ∧ length a' = length a.
Proof.
  unfold make_heap. case_bool_decide; [by exists a|].
  by apply make_heap_loop_any.
Qed.

Lemma sort_heap_loop_any :
  ∀ n (a : list T),
    (n ≤ length a)%nat →
    ∃ a', sort_heap_loop comp n a = Some a' ∧ a' ≡ₚ a.
Proof.
  induction n as [|n IH]; intros a Hn; [by exists a|].
  simpl. case_bool_decide as H1; [|by exists a].
  unfold pop_heap. rewrite bool_decide_eq_true_2 by lia.
  replace (S n - 1)%nat with n by lia.
  destruct (lookup_lt_is_Some_2 a 0) as [x0 Hx0]; [lia|].
  destruct (lookup_lt_is_Some_2 a n) as [xl Hxl]; [lia|].
  unfold iter_swap. rewrite Hx0, Hxl. simpl.
  rewrite put_Some by lia. simpl.
  rewrite put_Some by (rewrite length_insert; lia). simpl.
  set (a1 := <[n := x0]> (<[0%nat := xl]> a)).
  assert (length a1 = length a) as Hl1
    by (unfold a1; by rewrite !length_insert).
  assert (a1 ≡ₚ a) as Hp1 by (by apply Permutation_insert_swap).
  destruct (sift_down_any n 0 a1) as (a2 & -> & Hp2 & Hl2); [lia|].
  simpl. destruct (IH a2) as (a3 & -> & Hp3); [lia|].
  exists a3. split; [done|]. by rewrite Hp3, Hp2.
Qed.

Lemma sort_any (a : list T) : ∃ a', sort comp a = Some a' ∧ a' ≡ₚ a.
Proof.
  unfold sort, sort_heap.
  destruct (make_heap_any a) as (h & -> & Hp & Hl). simpl.
  destruct (sort_heap_loop_any (length h) h) as (a' & -> & Hp'); [done|].
  exists a'. split; [done|]. by rewrite Hp'.
Qed.

End sort_total.

(** ** Heap sort and relabelling

    The algorithms look at the elements through the comparator only: they
    commute with a map that respects the comparators. *)

Section sort_relabel.
Context {A B : Type} (f : A → B).
Context (compA : A → A → bool) (compB : B → B → bool).
Hypothesis comp_f : ∀ x y, compB (f x) (f y) = compA x y.

Lemma put_fmap (a : list A) i x :
  put (f <$> a) i (f x) = fmap (M := list) f <$> put a i x.
Proof.
  unfold put. rewrite length_fmap. case_bool_decide; simpl; [|done].
  by rewrite list_fmap_insert.
Qed.

Lemma pick_child_fmap len child (a : list A) :
  pick_child compB len child (f <$> a) = pick_child compA len child a.
Proof.
  unfold pick_child. case_bool_decide; [|done].
  rewrite !list_lookup_fmap.
  destruct (a !! child), (a !! (child + 1)%nat); simpl; try done.
  by rewrite comp_f.
Qed.

Lemma sift_down_loop_fmap len top :
  ∀ n start child (a : list A),
    sift_down_loop compB n len (f top) start child (f <$> a)
    = fmap (M := list) f <$> sift_down_loop compA n len top start child a.
Proof.
  induction n as [|n IH]; intros start child a; simpl; [done|].
  rewrite list_lookup_fmap. destruct (a !! child) as [c|]; simpl; [|done].
  rewrite put_fmap. destruct (put a start c) as [a1|]; simpl; [|done].
  case_bool_decide; [apply put_fmap|].
  rewrite pick_child_fmap. destruct (pick_child compA _ _ a1) as [c2|];
    simpl; [|done].
  rewrite list_lookup_fmap. destruct (a1 !! c2) as [x|]; simpl; [|done].
  rewrite comp_f. destruct (compA x top); simpl; [apply put_fmap | apply IH].
Qed.

Lemma sift_down_fmap len start (a : list A) :
  sift_down compB len start (f <$> a) = fmap (M := list) f <$> sift_down compA len start a.
Proof.
  unfold sift_down. destruct (_ || _); [done|].
  rewrite pick_child_fmap. destruct (pick_child compA _ _ a) as [c|];
    simpl; [|done].
  rewrite !list_lookup_fmap.
  destruct (a !! c) as [x|]; simpl; [|done].
  destruct (a !! start) as [s|]; simpl; [|done].
  rewrite comp_f. destruct (compA x s); [done|].
  apply sift_down_loop_fmap.
Qed.

Lemma make_heap_loop_fmap N :
  ∀ start (a : list A),
    make_heap_loop compB N start (f <$> a)
    = fmap (M := list) f <$> make_heap_loop compA N start a.
Proof.
  induction start as [|start IH]; intros a; simpl; rewrite sift_down_fmap;
    destruct (sift_down compA _ _ a) as [a'|]; simpl; first [done | apply IH].
Qed.

Lemma sort_heap_loop_fmap :
  ∀ n (a : list A),
    sort_heap_loop compB n (f <$> a) = fmap (M := list) f <$> sort_heap_loop compA n a.
Proof.
  induction n as [|n IH]; intros a; simpl; [done|].
  case_bool_decide; [|done].
  unfold pop_heap. case_bool_decide; [|simpl; apply IH].
  unfold iter_swap. rewrite !list_lookup_fmap.
  destruct (a !! 0%nat) as [x|]; simpl; [|done].
  destruct (a !! (S n - 1)%nat) as [y|]; simpl; [|done].
  rewrite put_fmap. destruct (put a 0 y) as [a1|]; simpl; [|done].
  rewrite put_fmap. destruct (put a1 _ x) as [a2|]; simpl; [|done].
  rewrite sift_down_fmap. destruct (sift_down compA _ _ a2) as [a3|];
    simpl; [|done].
  apply IH.
Qed.

Lemma sort_fmap (a : list A) :
  sort compB (f <$> a) = fmap (M := list) f <$> sort compA a.
Proof.
  unfold sort, sort_heap, make_heap. rewrite length_fmap.
  case_bool_decide; simpl.
  - rewrite <- (length_fmap f). apply sort_heap_loop_fmap.
  - rewrite make_heap_loop_fmap.
    destruct (make_heap_loop compA _ _ a) as [h|]; simpl; [|done].
    rewrite <- sort_heap_loop_fmap. by rewrite length_fmap.
Qed.

End sort_relabel.

(** ** Strict weak orders

    On the elements of a list [S], a strict weak order is the order of
    their ranks in [S]. *)

Section rank_key.
Context {T : Type} (comp : T → T → bool) (S : list T).
Hypothesis comp_irrefl : ∀ x, comp x x = false.
Hypothesis comp_trans :
  ∀ x y z, comp x y = true → comp y z = true → comp x z = true.
Hypothesis comp_negtrans :
  ∀ x y z, comp x z = true → comp x y = true ∨ comp y z = true.

Lemma length_filter_mono (P Q : T → Prop)
    `{!∀ x, Decision (P x)} `{!∀ x, Decision (Q x)} (l : list T) :
  (∀ x, x ∈ l → P x → Q x) →
  (length (filter P l) ≤ length (filter Q l))%nat
  ∧ (∀ x, x ∈ l → Q x → ¬ P x →
       (length (filter P l) < length (filter Q l))%nat).
Proof.
  induction l as [|y l IH]; intros HPQ.
  - split; [done|]. intros x Hx. by apply elem_of_nil in Hx.
  - destruct IH as [IH1 IH2].
    { intros x Hx. apply HPQ. by right. }
    rewrite !filter_cons.
    pose proof (HPQ y ltac:(by left)) as Hy.
    split.
    + destruct (decide (P y)), (decide (Q y)); simpl; try lia. tauto.
    + intros x Hx HQ HnP. apply elem_of_cons in Hx as [->|Hx].
      * rewrite decide_False, decide_True by done. simpl. lia.
      * specialize (IH2 x Hx HQ HnP).
        destruct (decide (P y)), (decide (Q y)); simpl; try lia. tauto.
Qed.

Lemma rank_comp x y :
  x ∈ S → comp x y = bool_decide (rank comp S x < rank comp S y).
Proof.
  intros Hx. unfold rank. destruct (comp x y) eqn:Hxy; symmetry.
  - apply bool_decide_eq_true_2.
    destruct (length_filter_mono (λ z, comp z x = true) (λ z, comp z y = true) S)
      as [_ Hlt].
    { intros z _ Hz. by apply comp_trans with x. }
    specialize (Hlt x Hx Hxy). rewrite comp_irrefl in Hlt.
    specialize (Hlt ltac:(done)). lia.
  - apply bool_decide_eq_false_2.
    destruct (length_filter_mono (λ z, comp z y = true) (λ z, comp z x = true) S)
      as [Hle _].
    { intros z _ Hz. destruct (comp_negtrans z x y Hz) as [?|?]; [done|].
      congruence. }
    lia.
Qed.

(** Heap sort under a strict weak order: the result is a rearrangement of
    the input in which no element is below an earlier one. *)
Lemma sort_strict_weak (a : list T) :
  S = a →
  ∃ a', sort comp a = Some a' ∧ a' ≡ₚ a
        ∧ StronglySorted (λ x y, comp y x = false) a'.
Proof.
  intros HS. destruct a as [|d a0].
  { exists []. split; [done|]. split; [done | constructor]. }
  set (f := λ i : nat, default d (S !! i)).
  assert (∀ i, f i ∈ S) as Hf.
  { intros i. unfold f. destruct (S !! i) as [x|] eqn:Hi; simpl.
    - by apply list_elem_of_lookup_2 with i.
    - rewrite HS. by left. }
  set (compN := λ i j : nat, comp (f i) (f j)).
  set (key := λ i : nat, rank comp S (f i)).
  assert (∀ i j, compN i j = bool_decide (key i < key j)) as Hkey.
  { intros i j. unfold compN, key. by apply rank_comp. }
  assert (f <$> seq 0 (length S) = S) as Hseq.
  { apply list_eq. intros i. rewrite list_lookup_fmap.
    destruct (S !! i) as [x|] eqn:Hi.
    - rewrite lookup_seq_lt by (by apply lookup_lt_Some in Hi).
      simpl. unfold f. by rewrite Hi.
    - rewrite lookup_seq_ge; [done|]. by apply lookup_ge_None. }
  destruct (sort_spec key compN Hkey (seq 0 (length S)))
    as (p & Hsort & Hperm & Hsorted).
  pose proof (sort_fmap f compN comp (λ _ _, eq_refl) (seq 0 (length S)))
    as Hmap.
  rewrite Hseq, Hsort, HS in Hmap. simpl in Hmap.
  exists (f <$> p). split; [done|]. split.
  - rewrite Hperm, Hseq. by rewrite HS.
  - apply (StronglySorted_fmap f (key_le key)); [|done].
    intros i j Hij. unfold key_le in Hij.
    change (compN j i = false). rewrite Hkey.
    apply bool_decide_eq_false_2. lia.
Qed.

End rank_key.

(** ** Binary search for a partition point *)

Section partition_point.
Context {T V : Type} (comp : T → V → bool) (a : list T) (v : V).
Context (lo hi : nat).
Hypothesis hi_le : (hi ≤ length a)%nat.
Hypothesis partitioned :
  ∀ i j x y, (lo ≤ i)%nat → (i ≤ j)%nat → (j < hi)%nat →
    a !! i = Some x → a !! j = Some y → comp y v = true → comp x v = true.

Lemma lower_bound_loop_partition :
  ∀ n first count,
    (count ≤ n)%nat → (lo ≤ first)%nat → (first + count ≤ hi)%nat →
    (∀ j x, (lo ≤ j < first)%nat → a !! j = Some x → comp x v = true) →
    (∀ j x, (first + count ≤ j < hi)%nat → a !! j = Some x → comp x v = false) →
    ∃ r, lower_bound_loop comp a v n first count = Some r
         ∧ (first ≤ r ≤ first + count)%nat
         ∧ (∀ j x, (lo ≤ j < r)%nat → a !! j = Some x → comp x v = true)
         ∧ (∀ j x, (r ≤ j < hi)%nat → a !! j = Some x → comp x v = false).
Proof.
  induction n as [|n IH]; intros first count Hn Hlo Hlen Hbelow Habove.
  - assert (count = 0%nat) as -> by lia.
    exists first. simpl. split; [done|]. split; [lia|]. split; [done|].
    intros j x Hj. apply Habove. lia.
  - simpl. case_bool_decide as Hpos.
    + destruct (lookup_lt_is_Some_2 a (first + count / 2)) as [x Hx]; [lia|].
      rewrite Hx. simpl. destruct (comp x v) eqn:Hcmp.
      * destruct (IH (S (first + count / 2)) (count - (count / 2 + 1))%nat)
          as (r & Hr & Hrange & Hb & Ha); [lia | lia | lia | | |].
        -- intros j y Hj Hy.
           apply (partitioned j (first + count / 2) y x); try done; lia.
        -- intros j y Hj. apply Habove. lia.
        -- exists r. split; [done|]. split; [lia | done].
      * destruct (IH first (count / 2)%nat)
          as (r & Hr & Hrange & Hb & Ha); [lia | lia | lia | done | |].
        -- intros j y Hj Hy. destruct (comp y v) eqn:Hy'; [|done].
           rewrite (partitioned (first + count / 2) j x y) in Hcmp;
             try done; lia.
        -- exists r. split; [done|]. split; [lia | done].
    + exists first. split; [done|]. split; [lia|]. split; [done|].
      intros j x Hj. apply Habove. lia.
Qed.

End partition_point.

(** [lower_bound] under any comparator: the loop ends and every read is
    inside the range. *)
Lemma lower_bound_loop_any {T V : Type} (comp : T → V → bool) (a : list T)
    (v : V) :
  ∀ n first count,
    (count ≤ n)%nat → (first + count ≤ length a)%nat →
    ∃ r, lower_bound_loop comp a v n first count = Some r
         ∧ (first ≤ r ≤ first + count)%nat.
Proof.
  induction n as [|n IH]; intros first count Hn Hlen.
  - assert (count = 0%nat) as -> by lia. exists first. simpl. split; [done | lia].
  - simpl. case_bool_decide as Hpos; [|exists first; split; [done | lia]].
    destruct (lookup_lt_is_Some_2 a (first + count / 2)) as [x Hx]; [lia|].
    rewrite Hx. simpl. destruct (comp x v).
    + destruct (IH (S (first + count / 2)) (count - (count / 2 + 1))%nat)
        as (r & -> & Hr); [lia | lia |].
      exists r. split; [done | lia].
    + destruct (IH first (count / 2)%nat) as (r & -> & Hr); [lia | lia |].
      exists r. split; [done | lia].
Qed.

(** The position [lower_bound] returns. *)
Lemma lower_bound_point {T V : Type} (comp : T → V → bool)
    (a : list T) (v : V) (first last : nat) :
  (first ≤ last)%nat → (last ≤ length a)%nat →
  ∃ r, lower_bound a first last v comp = Some r
       ∧ (first ≤ r ≤ last)%nat
       ∧ ((∀ i j x y, (first ≤ i)%nat → (i ≤ j)%nat → (j < last)%nat →
             a !! i = Some x → a !! j = Some y →
             comp y v = true → comp x v = true) →
          (∀ j x, (first ≤ j < r)%nat → a !! j = Some x → comp x v = true)
          ∧ (∀ j x, (r ≤ j < last)%nat → a !! j = Some x → comp x v = false)).
Proof.
  intros Hfl Hlast. unfold lower_bound.
  destruct (lower_bound_loop_any comp a v (last - first) first (last - first))
    as (r & Hr & Hrange); [lia | lia |].
  exists r. split; [done|]. split; [lia|].
  intros Hpart.
  destruct (lower_bound_loop_partition comp a v first last Hlast Hpart
              (last - first) first (last - first))
    as (r' & Hr' & _ & Hb & Ha); [lia | lia | lia | | |].
  - intros j x Hj. lia.
  - intros j x Hj. lia.
  - rewrite Hr in Hr'. injection Hr' as <-. done.
Qed.

(** ** Further properties: the algorithms of estd.hpp *)

(** X7.  [find_if] returns the position of the first element that
    satisfies the predicate, [find_if_not] that of the first element that
    does not; each returns the length of the range when there is no such
    element. *)
Theorem find_if_first {A : Type} (pred : A → bool) (s : list A) :
  ((find_if pred s ≤ length s)%nat
   ∧ Forall (λ c, pred c = false) (take (find_if pred s) s)
   ∧ ((find_if pred s < length s)%nat →
      ∃ c, s !! find_if pred s = Some c ∧ pred c = true))
  ∧ ((find_if_not pred s ≤ length s)%nat
     ∧ Forall (λ c, pred c = true) (take (find_if_not pred s) s)
     ∧ ((find_if_not pred s < length s)%nat →
        ∃ c, s !! find_if_not pred s = Some c ∧ pred c = false)).
Proof.
  split; (split; [|split]).
  - apply find_if_le.
  - apply find_if_take.
  - apply find_if_lookup.
  - apply find_if_not_le.
  - apply find_if_not_take.
  - apply find_if_not_lookup.
Qed.

(** X8.  [lower_bound] on a range inside the array returns a position of
    the range without reading outside it, whatever the comparator; when
    the elements for which [comp(element, value)] holds all precede those
    for which it does not, the position returned is the first of the
    latter. *)
Theorem lower_bound_partition_point {T V : Type} (comp : T → V → bool)
    (a : list T) (v : V) (first last : nat) :
  (first ≤ last)%nat → (last ≤ length a)%nat →
  ∃ r, lower_bound a first last v comp = Some r
       ∧ (first ≤ r ≤ last)%nat
       ∧ ((∀ i j x y, (first ≤ i)%nat → (i ≤ j)%nat → (j < last)%nat →
             a !! i = Some x → a !! j = Some y →
             comp y v = true → comp x v = true) →
          (∀ j x, (first ≤ j < r)%nat → a !! j = Some x → comp x v = true)
          ∧ (∀ j x, (r ≤ j < last)%nat → a !! j = Some x → comp x v = false)).
Proof. apply lower_bound_point. Qed.

Lemma lower_bound_partition_point_witness :
  lower_bound [1; 3; 3; 7; 9] 0 5 3 Z.ltb = Some 1%nat.
Proof.
  assert (0 ≤ 5)%nat as H1 by lia.
  assert (5 ≤ length [1; 3; 3; 7; 9])%nat as H2 by (simpl; lia).
  destruct (lower_bound_partition_point Z.ltb [1; 3; 3; 7; 9] 3 0 5 H1 H2)
    as (r & Hr & _).
  rewrite Hr. vm_compute in Hr. symmetry. exact Hr.
Defined.

(** X9.  Whatever the comparator, even one that is no ordering,
    [estd::sort] returns without an access outside the array, and the
    array afterwards holds the elements it held before. *)
Theorem sort_permutes {T : Type} (comp : T → T → bool) (a : list T) :
  ∃ a', sort comp a = Some a' ∧ a' ≡ₚ a.
Proof. apply sort_any. Qed.

(** X10.  With a comparator that is a strict weak ordering, [estd::sort]
    leaves the array sorted: a rearrangement of the input in which no
    element compares below an element before it. *)
Theorem sort_strict_weak_order {T : Type} (comp : T → T → bool) (a : list T) :
  (∀ x, comp x x = false) →
  (∀ x y z, comp x y = true → comp y z = true → comp x z = true) →
  (∀ x y z, comp x z = true → comp x y = true ∨ comp y z = true) →
  ∃ a', sort comp a = Some a' ∧ a' ≡ₚ a
        ∧ StronglySorted (λ x y, comp y x = false) a'.
Proof.
  intros Hirr Htrans Hneg. by apply (sort_strict_weak comp a Hirr Htrans Hneg).
Qed.

Lemma sort_strict_weak_order_witness :
  ∃ a', sort Z.ltb [5; 3; 9; 1] = Some a'
        ∧ StronglySorted (λ x y, (y <? x) = false) a'.
Proof.
  destruct (sort_strict_weak_order Z.ltb [5; 3; 9; 1]) as (a' & Ha & _ & Hs).
  - intros x. apply Z.ltb_irrefl.
  - intros x y z. rewrite !Z.ltb_lt. lia.
  - intros x y z. rewrite !Z.ltb_lt. lia.
  - exists a'. split; [exact Ha | exact Hs].
Defined.

(** X11.  With a comparator that compares keys, [make_heap] rearranges the
    array into a max-heap (no element has a key below that of one of its
    two children), and [sort_heap] turns a max-heap into the array sorted
    by ascending key. *)
Theorem heap_algorithms {T : Type} (key : T → Z) (comp : T → T → bool)
    (a : list T) :
  (∀ x y, comp x y = bool_decide (key x < key y)) →
  (∃ h, make_heap comp a = Some h ∧ h ≡ₚ a
        ∧ heap_on key h 0 (length h))
  ∧ (heap_on key a 0 (length a) →
     ∃ s, sort_heap comp a = Some s ∧ s ≡ₚ a
          ∧ StronglySorted (key_le key) s).
Proof.
  intros Hkey. split.
  - destruct (make_heap_spec key comp Hkey a) as (h & Hh & Hp & Hl & Hheap).
    exists h. split; [done|]. split; [done|]. by rewrite Hl.
  - intros Hheap. unfold sort_heap.
    apply (sort_heap_loop_spec key comp Hkey (length a) a); [done | done | |].
    + rewrite drop_all. constructor.
    + intros x y _ Hy. rewrite drop_all in Hy. by apply elem_of_nil in Hy.
Qed.

Lemma heap_algorithms_witness :
  ∃ h, make_heap Z.ltb [1; 5; 3; 9] = Some h ∧ heap_on id h 0 (length h).
Proof.
  destruct (heap_algorithms id Z.ltb [1; 5; 3; 9]) as [(h & Hh & _ & Hheap) _].
  - intros x y. unfold id. destruct (Z.ltb_spec x y).
    + by rewrite bool_decide_eq_true_2.
    + rewrite bool_decide_eq_false_2; [reflexivity | lia].
  - exists h. split; [exact Hh | exact Hheap].
Defined.

(** X12.  [find_sorted] over a whole array sorted by key: when an element
    has the key of [value], the position of the first such element is
    returned; when none has it but some element has a larger key, [last]
    is returned; when every key is below that of [value], in particular
    on the empty array, the function reads the element at [last], outside
    the array. *)
Theorem find_sorted_spec {T : Type} (key : T → Z) (comp : T → T → bool)
    (a : list T) (value : T) :
  (∀ x y, comp x y = bool_decide (key x < key y)) →
  StronglySorted (key_le key) a →
  (∀ i x, a !! i = Some x → key x = key value →
          (∀ j y, (j < i)%nat → a !! j = Some y → key y < key value) →
          find_sorted a 0 (length a) value comp = Some i)
  ∧ ((∀ x, x ∈ a → key x ≠ key value) →
     (∃ x, x ∈ a ∧ key value < key x) →
     find_sorted a 0 (length a) value comp = Some (length a))
  ∧ ((∀ x, x ∈ a → key x < key value) →
     find_sorted a 0 (length a) value comp = None).
Proof.
  intros Hkey Hsorted.
  pose proof (sorted_kat key a Hsorted) as Hmono.
  assert (∀ x, comp x value = true ↔ key x < key value) as Hlt.
  { intros x. rewrite Hkey. apply bool_decide_eq_true. }
  assert (∀ x, comp x value = false ↔ key value ≤ key x) as Hge.
  { intros x. rewrite Hkey, bool_decide_eq_false. lia. }
  destruct (lower_bound_point comp a value 0 (length a))
    as (r & Hlb & Hrl & Hpoint); [lia | lia |].
  destruct Hpoint as [Hlo Hhi].
  { intros i j x y _ Hij Hj Hx Hy. rewrite !Hlt.
    specialize (Hmono i j Hij Hj).
    rewrite (kat_lookup _ _ _ _ Hx), (kat_lookup _ _ _ _ Hy) in Hmono. lia. }
  unfold find_sorted. rewrite Hlb. simpl.
  split; [|split].
  - intros i x Hx Hx' Hfirst.
    pose proof (lookup_lt_Some _ _ _ Hx) as Hi.
    assert (r = i) as ->.
    { destruct (decide (r < i)%nat) as [Hr|Hr].
      - destruct (lookup_lt_is_Some_2 a r) as [y Hy]; [lia|].
        specialize (Hfirst r y Hr Hy).
        specialize (Hhi r y ltac:(lia) Hy). apply Hge in Hhi. lia.
      - destruct (decide (i < r)%nat) as [Hr'|]; [|lia].
        specialize (Hlo i x ltac:(lia) Hx). apply Hlt in Hlo. lia. }
    rewrite Hx. simpl. rewrite Hkey.
    rewrite bool_decide_eq_false_2 by lia. done.
  - intros Hnone (x & Hx & Hgt).
    apply list_elem_of_lookup in Hx as [j Hj].
    pose proof (lookup_lt_Some _ _ _ Hj) as Hjl.
    assert (r < length a)%nat as Hrlt.
    { destruct (decide (r < length a)%nat); [done|].
      specialize (Hlo j x ltac:(lia) Hj). apply Hlt in Hlo. lia. }
    destruct (lookup_lt_is_Some_2 a r) as [y Hy]; [done|].
    rewrite Hy. simpl. rewrite Hkey.
    specialize (Hhi r y ltac:(lia) Hy). apply Hge in Hhi.
    assert (key y ≠ key value)
      by (apply Hnone; by apply list_elem_of_lookup_2 with r).
    rewrite bool_decide_eq_true_2 by lia. done.
  - intros Hall.
    assert (r = length a) as ->.
    { destruct (decide (r < length a)%nat) as [Hr|]; [|lia].
      destruct (lookup_lt_is_Some_2 a r) as [y Hy]; [done|].
      specialize (Hhi r y ltac:(lia) Hy). apply Hge in Hhi.
      specialize (Hall y ltac:(by apply list_elem_of_lookup_2 with r)). lia. }
    rewrite lookup_ge_None_2 by lia. done.
Qed.

Lemma find_sorted_spec_witness :
  find_sorted [1; 3; 3; 7] 0 4 3 Z.ltb = Some 1%nat
  ∧ find_sorted [1; 3; 3; 7] 0 4 9 Z.ltb = None.
Proof.
  assert (∀ x y, (x <? y) = bool_decide (id x < id y)) as Hkey.
  { intros x y. unfold id. destruct (Z.ltb_spec x y).
    - by rewrite bool_decide_eq_true_2.
    - rewrite bool_decide_eq_false_2; [reflexivity | lia]. }
  assert (StronglySorted (key_le id) [1; 3; 3; 7]) as Hs.
  { repeat constructor; unfold key_le, id; lia. }
  split.
  - apply (proj1 (find_sorted_spec id Z.ltb [1; 3; 3; 7] 3 Hkey Hs) 1%nat 3).
    + reflexivity.
    + reflexivity.
    + intros j y Hj Hy. assert (j = 0%nat) as -> by lia.
      injection Hy as <-. unfold id. lia.
  - apply (proj2 (proj2 (find_sorted_spec id Z.ltb [1; 3; 3; 7] 9 Hkey Hs))).
    intros x Hx. unfold id.
    repeat (apply elem_of_cons in Hx as [->|Hx]; [lia|]).
    by apply elem_of_nil in Hx.
Defined.

(** ** Error codes *)

Lemma code_negative e : e ≠ OK → code e < 0.
Proof. destruct e; intros H; try done; vm_compute; reflexivity. Qed.

(** ** What a read leaves of the buffer *)

Lemma store_buffer_frame buffer bs buffer' :
  store buffer 0 bs = Some buffer' →
  length buffer' = length buffer
  ∧ drop (length bs) buffer' = drop (length bs) buffer.
Proof.
  intros Hst. split; [by apply store_length in Hst|].
  unfold store in Hst. case_bool_decide as H; [|done]. injection Hst as <-.
  simpl. by rewrite drop_app_length.
Qed.

Lemma memcpy_out_frame buffer m addr n buffer' :
  memcpy_out buffer m addr n = Done buffer' →
  0 ≤ n ∧ length buffer' = length buffer
  ∧ drop (Z.to_nat n) buffer' = drop (Z.to_nat n) buffer.
Proof.
  unfold memcpy_out. destruct (load m addr n) as [bs|] eqn:Hld; [|done].
  simpl. destruct (store buffer 0 bs) as [b|] eqn:Hst; [|done].
  simpl. intros [= <-].
  pose proof (load_length _ _ _ _ Hld) as Hlen.
  destruct (store_buffer_frame _ _ _ Hst) as [Hl Hd].
  split; [lia|]. split; [done|].
  by replace (Z.to_nat n) with (length bs) by lia.
Qed.

(** ** Linear scans *)

Lemma scan_spec {A : Type} (pred : A → bool) :
  ∀ (l : list A) n i,
    (n ≤ length l)%nat →
    scan pred l n i
    = Done (match list_find (λ x, pred x = true) (take n l) with
            | Some (k, _) => i + Z.of_nat k
            | None => i + Z.of_nat n
            end).
Proof.
  intros l n. revert l. induction n as [|n IH]; intros l i Hn; simpl.
  - destruct l; simpl; f_equal; lia.
  - destruct l as [|x l]; [simpl in Hn; lia|]. simpl.
    destruct (pred x) eqn:Hx.
    + rewrite decide_True by done. simpl. f_equal. lia.
    + rewrite decide_False by congruence. rewrite IH by (simpl in Hn; lia).
      destruct (list_find _ (take n l)) as [[k y]|]; simpl; f_equal; lia.
Qed.

Lemma find_loop_spec :
  ∀ (l : list Item) n nm,
    (n ≤ length l)%nat →
    find_loop l n nm
    = Done (snd <$> list_find
              (λ it : Item, string_view_eq (name_ (object it)) nm = true)
              (take n l)).
Proof.
  intros l n. revert l. induction n as [|n IH]; intros l nm Hn; simpl.
  - by destruct l.
  - destruct l as [|x l]; [simpl in Hn; lia|]. simpl.
    destruct (string_view_eq (name_ (object x)) nm) eqn:Hx.
    + by rewrite decide_True by done.
    + rewrite decide_False by congruence. rewrite IH by (simpl in Hn; lia).
      by destruct (list_find _ (take n l)) as [[k y]|].
Qed.

(** ** Storage: consecutive writes *)

Lemma store_app m addr xs ys :
  0 ≤ addr →
  addr + Z.of_nat (length xs) + Z.of_nat (length ys) ≤ Z.of_nat (length m) →
  (m1 ← store m addr xs; store m1 (addr + Z.of_nat (length xs)) ys)
  = store m addr (xs ++ ys).
Proof.
  intros Ha Hb. rewrite (store_Some m addr xs) by lia. simpl.
  set (A := Z.to_nat addr).
  assert (length (take A m) = A) as HA by (rewrite length_take; lia).
  assert (length (take A m ++ xs ++ drop (A + length xs) m) = length m) as Hl.
  { rewrite !length_app, HA, length_drop. lia. }
  rewrite store_Some by lia.
  rewrite store_Some by (rewrite ?length_app; lia).
  replace (Z.to_nat (addr + Z.of_nat (length xs)))
    with (A + length xs)%nat by lia.
  assert (take (A + length xs) (take A m ++ xs ++ drop (A + length xs) m)
          = take A m ++ xs) as ->.
  { rewrite app_assoc. apply take_app_length'. rewrite length_app. lia. }
  assert (drop (A + length xs + length ys)
            (take A m ++ xs ++ drop (A + length xs) m)
          = drop (A + length (xs ++ ys)) m) as ->.
  { rewrite app_assoc, drop_app_ge by (rewrite length_app; lia).
    rewrite drop_drop, !length_app, HA. f_equal. lia. }
  by rewrite <- !app_assoc.
Qed.

(** ** Call depth *)

Section call_depth.

#[local] Arguments call_set : simpl never.

Lemma call_set_mono :
  ∀ depth f obj k data size m r,
    call_set depth f obj k data size m = r → r ≠ Timeout →
    call_set (S depth) f obj k data size m = r.
Proof.
  induction depth as [|depth IH]; intros f obj k data size m r Hcall Hr.
  { change (Timeout = r) in Hcall. congruence. }
  destruct f; try exact Hcall.
  - change (call_set (S depth) (set_chain f1 f2) obj k data size m)
      with (r ← call_set depth f1 obj k data size m;
            let '(ret, m') := r in
            if bool_decide (ret = code OK)
            then call_set depth f2 obj k data size m'
            else Done (ret, m')) in Hcall.
    change (call_set (S (S depth)) (set_chain f1 f2) obj k data size m)
      with (r ← call_set (S depth) f1 obj k data size m;
            let '(ret, m') := r in
            if bool_decide (ret = code OK)
            then call_set (S depth) f2 obj k data size m'
            else Done (ret, m')).
    destruct (call_set depth f1 obj k data size m) as [[ret m1]| |] eqn:E1;
      simpl in Hcall.
    + rewrite (IH _ _ _ _ _ _ _ E1) by done. simpl.
      case_bool_decide; [|done]. by apply IH.
    + rewrite (IH _ _ _ _ _ _ _ E1) by done. done.
    + congruence.
  - change (call_set (S depth) Record_set_data obj k data size m)
      with (info ← Object_info_ref obj;
            if bool_decide (otype (header info) ≠ ClassId.Record_)
               || (k >? nelem (header info))
            then Done (code FieldNotFound, m)
            else if (k =? 0) then Done (code ReadOnly, m)
            else
              r ← lift (as_Record info);
              field ← fields_at r (k - 1);
              call_set depth (set_function (field : Record_FieldInfo))
                obj k data size m) in Hcall.
    change (call_set (S (S depth)) Record_set_data obj k data size m)
      with (info ← Object_info_ref obj;
            if bool_decide (otype (header info) ≠ ClassId.Record_)
               || (k >? nelem (header info))
            then Done (code FieldNotFound, m)
            else if (k =? 0) then Done (code ReadOnly, m)
            else
              r ← lift (as_Record info);
              field ← fields_at r (k - 1);
              call_set (S depth) (set_function (field : Record_FieldInfo))
                obj k data size m).
    destruct (Object_info_ref obj) as [i| |]; simpl in Hcall |- *; try done.
    destruct (_ || _); [done|]. destruct (k =? 0); [done|].
    destruct (lift (as_Record i)) as [r0| |]; simpl in Hcall |- *; try done.
    destruct (fields_at r0 (k - 1)) as [fld| |]; simpl in Hcall |- *;
      try done.
    exact (IH _ _ _ _ _ _ _ Hcall Hr).
Qed.

Lemma call_set_chain depth f1 f2 obj k data size m :
  call_set (S depth) (set_chain f1 f2) obj k data size m
  = (r ← call_set depth f1 obj k data size m;
     let '(ret, m') := r in
     if bool_decide (ret = code OK)
     then call_set depth f2 obj k data size m'
     else Done (ret, m')).
Proof. reflexivity. Qed.

Lemma set_chain_assoc_l depth f1 f2 f3 obj k data size m r :
  call_set depth (set_chain (set_chain f1 f2) f3) obj k data size m = r →
  r ≠ Timeout →
  call_set (S depth) (set_chain f1 (set_chain f2 f3)) obj k data size m = r.
Proof.
  intros Hcall Hr.
  destruct depth as [|[|d]]; [change (Timeout = r) in Hcall; congruence
                             |change (Timeout = r) in Hcall; congruence|].
  rewrite !call_set_chain in Hcall. rewrite call_set_chain.
  destruct (call_set d f1 obj k data size m) as [[ret m1]| |] eqn:E1;
    simpl in Hcall; [| |congruence].
  - rewrite (call_set_mono _ _ _ _ _ _ _ _
               (call_set_mono _ _ _ _ _ _ _ _ E1 ltac:(done)) ltac:(done)).
    simpl. destruct (bool_decide (ret = code OK)) eqn:Hret;
      [|simpl in Hcall; by rewrite Hret in Hcall].
    rewrite call_set_chain.
    destruct (call_set d f2 obj k data size m1) as [[ret2 m2]| |] eqn:E2;
      simpl in Hcall; [| |congruence].
    + by rewrite (call_set_mono _ _ _ _ _ _ _ _ E2 ltac:(done)).
    + by rewrite (call_set_mono _ _ _ _ _ _ _ _ E2 ltac:(done)).
  - by rewrite (call_set_mono _ _ _ _ _ _ _ _
                  (call_set_mono _ _ _ _ _ _ _ _ E1 ltac:(done)) ltac:(done)).
Qed.

Lemma set_chain_assoc_r depth f1 f2 f3 obj k data size m r :
  call_set depth (set_chain f1 (set_chain f2 f3)) obj k data size m = r →
  r ≠ Timeout →
  call_set (S depth) (set_chain (set_chain f1 f2) f3) obj k data size m = r.
Proof.
  intros Hcall Hr.
  destruct depth as [|d]; [change (Timeout = r) in Hcall; congruence|].
  rewrite call_set_chain in Hcall. rewrite !call_set_chain.
  destruct (call_set d f1 obj k data size m) as [[ret m1]| |] eqn:E1;
    simpl in Hcall |- *; [| done |congruence].
  destruct (bool_decide (ret = code OK)) eqn:Hret.
  - destruct d as [|d']; [change (Timeout = r) in Hcall; congruence|].
    rewrite call_set_chain in Hcall.
    destruct (call_set d' f2 obj k data size m1) as [[ret2 m2]| |] eqn:E2;
      simpl in Hcall; [| |congruence].
    + rewrite (call_set_mono _ _ _ _ _ _ _ _ E2 ltac:(done)). simpl.
      case_bool_decide; [|done].
      apply call_set_mono; [|done]. by apply call_set_mono.
    + by rewrite (call_set_mono _ _ _ _ _ _ _ _ E2 ltac:(done)).
  - simpl. by rewrite Hret.
Qed.

End call_depth.

(** ** The string strategy *)

Lemma set_string_spec (depth : nat) (Length : Z)
    (nm : string_view) (i : InfoObject) (p subIdx0 : Z) (bs : list byte)
    (size0 : Z) (m : memory) :
  let obj := {| name_ := nm; info_ := Some i; data_ := Some p |} in
  let addr := p + data_offset (header i) in
  let set := call_set (S depth) (set_string_variable Length) obj subIdx0
               (Some bs) size0 m in
  0 < Length →
  0 ≤ addr → addr + Length ≤ Z.of_nat (length m) →
  0 ≤ size0 ≤ Z.of_nat (length bs) →
  (Length < size0 → set = Done (code ParamTooLong, m))
  ∧ (∀ c, size0 = Length → bs !! Z.to_nat (size0 - 1) = Some c →
          byte_value c ≠ 0 → set = Done (code ParamTooLong, m))
  ∧ (size0 < Length
     ∨ (size0 = Length
        ∧ ∃ c, bs !! Z.to_nat (size0 - 1) = Some c ∧ byte_value c = 0) →
     let stored := take (Z.to_nat size0) bs
                   ++ replicate (Z.to_nat (Length - size0)) Byte.x00 in
     ∃ m', set = Done (code OK, m')
           ∧ store m addr stored = Some m'
           ∧ load m' addr Length = Some stored
           ∧ Byte.x00 ∈ stored).
Proof.
  intros obj addr set HL Ha Hb Hsize. unfold set.
  change (call_set (S depth) (set_string_variable Length) obj subIdx0
            (Some bs) size0 m)
    with (if size0 >? Length then Done (code ParamTooLong, m)
          else
            unterminated ←
              (if size0 =? Length
               then c ← byte_at (Some bs) (size0 - 1);
                    Done (negb (byte_value c =? 0))
               else Done false);
            if (unterminated : bool) then Done (code ParamTooLong, m)
            else
              dest_data ← Object_data obj;
              bs' ← read_bytes (Some bs) size0;
              m' ← store_at dest_data bs' m;
              m'' ← (if size0 <? Length
                     then store_at (ptr_add dest_data size0)
                            (replicate (Z.to_nat (Length - size0)) Byte.x00) m'
                     else Done m');
              Done (code OK, m'')).
  assert (∀ c, bs !! Z.to_nat (size0 - 1) = Some c → 1 ≤ size0 →
               byte_at (Some bs) (size0 - 1) = Done c) as Hat.
  { intros c Hc Hs. unfold byte_at.
    rewrite bool_decide_eq_true_2 by lia. by rewrite Hc. }
  split; [|split].
  - intros Hlong. by destruct (Z.gtb_spec size0 Length); [|lia].
  - intros c Heq Hc Hnz. destruct (Z.gtb_spec size0 Length); [lia|].
    rewrite (proj2 (Z.eqb_eq _ _)) by done.
    rewrite (Hat c) by (done || lia). simpl.
    by rewrite (proj2 (Z.eqb_neq _ _)) by done.
  - intros Hok.
    set (stored := take (Z.to_nat size0) bs
                   ++ replicate (Z.to_nat (Length - size0)) Byte.x00).
    assert (Z.of_nat (length (take (Z.to_nat size0) bs)) = size0) as Hlt
      by (rewrite length_take; lia).
    assert (Z.of_nat (length stored) = Length) as Hls.
    { unfold stored. rewrite length_app, length_replicate. lia. }
    assert (store m addr stored
            = Some (take (Z.to_nat addr) m ++ stored
                    ++ drop (Z.to_nat addr + length stored) m)) as Hst
      by (apply store_Some; lia).
    eexists. split; [|split; [exact Hst|split]].
    + destruct (Z.gtb_spec size0 Length); [lia|].
      assert ((if size0 =? Length
               then byte_at (Some bs) (size0 - 1)
                    ≫= λ c, Done (negb (byte_value c =? 0))
               else Done false) = Done false) as ->.
      { destruct (Z.eqb_spec size0 Length) as [Heq|Hne]; [|done].
        destruct Hok as [?|(_ & c & Hc & Hz)]; [lia|].
        rewrite (Hat c) by (done || lia). simpl. by rewrite Hz. }
      simpl. rewrite bool_decide_eq_true_2 by lia. simpl.
      fold addr.
      destruct (Z.ltb_spec size0 Length) as [Hlt'|Hge].
      * pose proof (store_app m addr (take (Z.to_nat size0) bs)
                      (replicate (Z.to_nat (Length - size0)) Byte.x00))
          as Happ.
        rewrite Hlt in Happ. fold stored in Happ.
        rewrite Hst in Happ.
        destruct (store m addr (take (Z.to_nat size0) bs)) as [m1|] eqn:Hm1.
        2:{ exfalso. rewrite store_Some in Hm1 by lia. done. }
        simpl in Happ |- *. rewrite Happ by (rewrite ?length_replicate; lia).
        done.
      * assert (stored = take (Z.to_nat size0) bs) as Hs.
        { unfold stored. replace (Z.to_nat (Length - size0)) with 0%nat by lia.
          simpl. by rewrite app_nil_r. }
        rewrite Hs in Hst. rewrite Hst. simpl. by rewrite Hs.
    + pose proof (store_load _ _ _ _ Hst) as Hld. by rewrite Hls in Hld.
    + unfold stored. apply elem_of_app.
      destruct Hok as [Hlt'|(Heq & c & Hc & Hz)].
      * right. apply elem_of_replicate. split; [done | lia].
      * left. apply list_elem_of_lookup_2 with (Z.to_nat (size0 - 1)).
        rewrite lookup_take_lt by lia.
        assert (c = Byte.x00) as <-
          by (rewrite <- (byte_of_value c), Hz; done).
        exact Hc.
Qed.

(** ** Further properties: the dictionary *)

(** X13.  [Dictionary::find(name)] on a dictionary built from a non-empty
    list of items returns an item whose object's name equals [name] up to
    the case of the letters, among such items one of lowest address, and
    null exactly when no item bears the name. *)
Theorem Dictionary_find_by_name (objects : list Item) (nm : string_view) :
  objects ≠ [] →
  ∃ d res, TDictionary objects = Done d
    ∧ Dictionary_find d nm = Done res
    ∧ (∀ it, res = Some it →
         it ∈ objects
         ∧ string_view_eq (name_ (object it)) nm = true
         ∧ ∀ it', it' ∈ objects →
                  string_view_eq (name_ (object it')) nm = true →
                  address it ≤ address it')
    ∧ (res = None ↔
       ∀ it, it ∈ objects → string_view_eq (name_ (object it)) nm = false).
Proof.
  intros Hne.
  destruct (TDictionary_sorted objects Hne)
    as (d & Hd & Hcount & Hle & Hperm & Hsorted).
  exists d. unfold Dictionary_find. rewrite find_loop_spec by done.
  set (s := take (count d) (items d)) in *.
  set (P := λ it : Item, string_view_eq (name_ (object it)) nm = true).
  eexists. split; [done|]. split; [done|].
  destruct (list_find P s) as [[i it0]|] eqn:Hfind; simpl.
  - apply list_find_Some in Hfind as (Hi & HP & Hfirst). split.
    + intros it [= <-]. split; [|split; [done|]].
      * rewrite <- Hperm. by apply list_elem_of_lookup_2 with i.
      * intros it' Hin HP'. rewrite <- Hperm in Hin.
        apply list_elem_of_lookup in Hin as [j Hj].
        destruct (decide (j < i)%nat) as [Hlt|Hge].
        { exfalso. by apply (Hfirst j it'). }
        pose proof (sorted_kat address s Hsorted i j ltac:(lia)
                      (lookup_lt_Some _ _ _ Hj)) as Hk.
        by rewrite (kat_lookup _ _ _ _ Hi), (kat_lookup _ _ _ _ Hj) in Hk.
    + split; [done|]. intros Hnone. exfalso.
      specialize (Hnone it0). unfold P in HP. rewrite Hnone in HP; [done|].
      rewrite <- Hperm. by apply list_elem_of_lookup_2 with i.
  - apply list_find_None in Hfind. rewrite Forall_forall in Hfind. split.
    + done.
    + split; [|done]. intros _ it Hin. rewrite <- Hperm in Hin.
      specialize (Hfind it Hin). unfold P in Hfind.
      by destruct (string_view_eq (name_ (object it)) nm).
Qed.

Lemma Dictionary_find_by_name_witness :
  ∃ d, TDictionary example_items = Done d
       ∧ Dictionary_find d (sv "SPEED") = Done (Some
           {| address := 0x3000; pdo_mapping := 0; object := speed |}).
Proof.
  destruct (Dictionary_find_by_name example_items (sv "SPEED"))
    as (d & res & Hd & Hfind & _).
  - discriminate.
  - exists d. split; [exact Hd|].
    rewrite example_dictionary_built in Hd. injection Hd as <-.
    reflexivity.
Defined.

(** X14.  [Dictionary::query]: an unknown object name gives
    [ObjectNotFound] and a null item; a known name without sub-object
    name gives [OK] with the object's metadata and [subIdx] left as it
    was; on a record, a sub-object name resolves to the first field whose
    name equals it up to the case of the letters, with [subIdx] the
    field's position plus 1 and the field's metadata, and to
    [FieldNotFound] when no field bears the name; on a variable every
    sub-object name gives [FieldNotFound]. *)
Theorem Dictionary_query_resolves (d : Dictionary) (q : Query) :
  let sub := subobject_name q in
  let with_item found info idx :=
    {| object_name := object_name q; subobject_name := sub;
       item := found; qinfo := info; subIdx := idx |} in
  (Dictionary_find d (object_name q) = Done None →
   Dictionary_query d q
   = Done (code ObjectNotFound, with_item None (qinfo q) (subIdx q)))
  ∧ (∀ it i,
       Dictionary_find d (object_name q) = Done (Some it) →
       info_ (object it) = Some i →
       (empty sub = true →
        Dictionary_query d q
        = Done (code OK, with_item (Some it) (Some (header i)) (subIdx q)))
       ∧ (empty sub = false → otype (header i) = ClassId.Variable_ →
          Dictionary_query d q
          = Done (code FieldNotFound, with_item (Some it) (qinfo q) (subIdx q)))
       ∧ (∀ r : Record_Info,
            empty sub = false → i = IsRecord r →
            otype r = ClassId.Record_ →
            0 ≤ nelem r ≤ Z.of_nat (length (fields r)) →
            Dictionary_query d q
            = Done (match list_find
                            (λ f : Record_FieldInfo,
                               string_view_eq (name f) sub = true)
                            (take (Z.to_nat (nelem r)) (fields r)) with
                    | Some (k, f) =>
                        (code OK,
                         with_item (Some it) (Some (f : Info))
                           (Z.of_nat k + 1))
                    | None =>
                        (code FieldNotFound,
                         with_item (Some it) (qinfo q) (subIdx q))
                    end))).
Proof.
  intros sub with_item. split.
  - intros Hfind. unfold Dictionary_query. rewrite Hfind. done.
  - intros it i Hfind Hinfo. unfold Dictionary_query. rewrite Hfind. simpl.
    unfold Object_info_ref. rewrite Hinfo. simpl. fold sub.
    split; [|split].
    + intros ->. done.
    + intros -> Hot. simpl. rewrite Hot. simpl. done.
    + intros r -> -> Hot Hn. simpl. rewrite Hot. simpl.
      unfold Record_find. rewrite scan_spec by lia.
      destruct (list_find _ (take (Z.to_nat (nelem r)) (fields r)))
        as [[k f]|] eqn:Hlf; simpl.
      * apply list_find_Some in Hlf as (Hk & _ & _).
        pose proof (lookup_lt_Some _ _ _ Hk) as Hklt.
        rewrite length_take in Hklt.
        rewrite bool_decide_eq_true_2 by lia.
        rewrite lookup_take_lt in Hk by lia.
        assert (fields_at r (0 + Z.of_nat k) = Done f) as ->.
        { apply fields_at_Done. split; [lia|].
          by replace (Z.to_nat (0 + Z.of_nat k)) with k by lia. }
        reflexivity.
      * rewrite bool_decide_eq_false_2 by lia. done.
Qed.

Lemma Dictionary_query_resolves_witness :
  ∃ q', Dictionary_query example_dictionary (Query_make (sv "Status.FLAGS")).1
        = Done (code OK, q')
        ∧ subIdx q' = 2.
Proof.
  pose (q := (Query_make (sv "Status.FLAGS")).1).
  destruct (Dictionary_query_resolves example_dictionary q) as [_ H].
  destruct (H {| address := 0x2000; pdo_mapping := 0; object := status |}
              (IsRecord status_info) eq_refl eq_refl) as (_ & _ & Hrec).
  assert (0 ≤ nelem status_info ≤ Z.of_nat (length (fields status_info)))
    as Hn by (change (0 ≤ 2 ≤ 3); lia).
  specialize (Hrec status_info eq_refl eq_refl eq_refl Hn).
  eexists. split; [exact Hrec | reflexivity].
Defined.

(** X15.  [Dictionary::write] and [Dictionary::read] on a dictionary built
    from a non-empty list of items: for an address that no item has, both
    return [ObjectNotFound] and leave the storage and the buffer as they
    were; for the address of an item that alone has it, they are [set]
    and [get] of that item's object. *)
Theorem Dictionary_access (objects : list Item) (depth : nat) (subIdx0 : Z)
    (data : option (list byte)) (size0 : Z) (buffer : list byte)
    (m : memory) :
  objects ≠ [] →
  ∃ d, TDictionary objects = Done d
    ∧ (∀ addr,
         (∀ it, it ∈ objects → address it ≠ addr) →
         Dictionary_write depth d addr subIdx0 data size0 m
         = Done (code ObjectNotFound, m)
         ∧ Dictionary_read d addr subIdx0 buffer size0 m
           = Done (code ObjectNotFound, buffer))
    ∧ (∀ it,
         it ∈ objects →
         (∀ it', it' ∈ objects → address it' = address it → it' = it) →
         Dictionary_write depth d (address it) subIdx0 data size0 m
         = Object_set depth (object it) subIdx0 data size0 m
         ∧ Dictionary_read d (address it) subIdx0 buffer size0 m
           = Object_get (object it) subIdx0 buffer size0 m).
Proof.
  intros Hne.
  destruct (TDictionary_sorted objects Hne)
    as (d & Hd & Hcount & Hle & Hperm & Hsorted).
  exists d. split; [done|].
  unfold Dictionary_write, Dictionary_read.
  split.
  - intros addr Habs. rewrite Dictionary_get_linear by done.
    unfold linear_get.
    destruct (list_find _ _) as [[j it']|] eqn:Hfind; [|done].
    apply list_find_Some in Hfind as (Hj & Hit' & _).
    exfalso. apply (Habs it'); [|done].
    rewrite <- Hperm. by apply list_elem_of_lookup_2 with j.
  - intros it Hin Huniq. rewrite Dictionary_get_linear by done.
    unfold linear_get.
    destruct (list_find _ _) as [[j it']|] eqn:Hfind.
    + apply list_find_Some in Hfind as (Hj & Hit' & _).
      assert (it' = it) as ->; [|done].
      apply Huniq; [|done].
      rewrite <- Hperm. by apply list_elem_of_lookup_2 with j.
    + apply list_find_None in Hfind. rewrite Forall_forall in Hfind.
      exfalso. apply (Hfind it); [by rewrite Hperm | done].
Qed.

Lemma Dictionary_access_witness :
  ∃ d, TDictionary example_items = Done d
       ∧ Dictionary_write 2 d 0x2001 1 (Some [Byte.x01]) 1 example_memory
         = Done (code ObjectNotFound, example_memory).
Proof.
  destruct (Dictionary_access example_items 2 1 (Some [Byte.x01]) 1 []
              example_memory) as (d & Hd & Hmiss & _).
  - discriminate.
  - exists d. split; [exact Hd|].
    apply Hmiss. intros it Hin.
    repeat (apply elem_of_cons in Hin as [->|Hin]; [discriminate|]).
    by apply elem_of_nil in Hin.
Defined.

(** ** Further properties: reading objects *)

(** X16.  [Object::get(subIdx, buffer, size)] that returns [r] has kept
    the length of the buffer and every byte from position [r] on; when
    [r] is negative, an error code, the buffer is as it was.  The error
    codes are the negative results: every [Error] other than [OK] has a
    negative value. *)
Theorem Object_get_frame (obj : Object) (k : Z) (buffer : list byte)
    (size0 : Z) (m : memory) (r : Z) (buffer' : list byte) :
  Object_get obj k buffer size0 m = Done (r, buffer') →
  length buffer' = length buffer
  ∧ drop (Z.to_nat r) buffer' = drop (Z.to_nat r) buffer
  ∧ (r < 0 → buffer' = buffer)
  ∧ (∀ e, e ≠ OK → code e < 0).
Proof.
  intros Hget.
  assert (∀ n b, memcpy_out buffer m n r = Done b →
            length b = length buffer
            ∧ drop (Z.to_nat r) b = drop (Z.to_nat r) buffer
            ∧ (r < 0 → b = buffer)) as Hcopy.
  { intros n b Hb. apply memcpy_out_frame in Hb as (? & ? & ?).
    split; [done|]. split; [done | lia]. }
  assert (∀ x b, lift (store buffer 0 [x]) = Done b → r = 1 →
            length b = length buffer
            ∧ drop (Z.to_nat r) b = drop (Z.to_nat r) buffer
            ∧ (r < 0 → b = buffer)) as Hcount.
  { intros x b Hb ->. destruct (store buffer 0 [x]) as [b0|] eqn:Hst; [|done].
    injection Hb as ->. apply store_buffer_frame in Hst as [? ?].
    split; [done|]. split; [done | lia]. }
  cut (length buffer' = length buffer
       ∧ drop (Z.to_nat r) buffer' = drop (Z.to_nat r) buffer
       ∧ (r < 0 → buffer' = buffer)).
  { intros (? & ? & ?). repeat split; try done. apply code_negative. }
  unfold Object_get, Object_get_all in Hget.
  destruct (data_ obj) as [p|]; [|by injection Hget as <- <-].
  destruct (Object_info_ref obj) as [i| |]; simpl in Hget; try done.
  destruct (otype (header i)).
  - by injection Hget as <- <-.
  - destruct (k =? 0); [|by injection Hget as <- <-].
    destruct (data_size (header i) <? size0).
    + destruct (memcpy_out _ _ _ _) as [b| |] eqn:Hb; simpl in Hget;
        try done.
      injection Hget as <- <-. by apply Hcopy in Hb.
    + by injection Hget as <- <-.
  - destruct (k <=? nelem (header i)); [|by injection Hget as <- <-].
    destruct (k =? 0).
    + destruct (lift (store buffer 0 _)) as [b| |] eqn:Hb; simpl in Hget;
        try done.
      injection Hget as <- <-. by apply Hcount in Hb.
    + destruct (memcpy_out _ _ _ _) as [b| |] eqn:Hb; simpl in Hget;
        try done.
      injection Hget as <- <-. by apply Hcopy in Hb.
  - destruct (k <=? nelem (header i)); [|by injection Hget as <- <-].
    destruct (k =? 0).
    + destruct (lift (store buffer 0 _)) as [b| |] eqn:Hb; simpl in Hget;
        try done.
      injection Hget as <- <-. by apply Hcount in Hb.
    + destruct (lift (as_Record i)) as [r0| |]; simpl in Hget; try done.
      destruct (fields_at r0 (k - 1)) as [fld| |]; simpl in Hget; try done.
      destruct (data_size fld >? size0); [by injection Hget as <- <-|].
      destruct (memcpy_out _ _ _ _) as [b| |] eqn:Hb; simpl in Hget;
        try done.
      injection Hget as <- <-. by apply Hcopy in Hb.
Qed.

Lemma Object_get_frame_witness :
  drop 1 [Byte.x0b; Byte.xff] = drop 1 [Byte.xff; Byte.xff].
Proof.
  apply (proj1 (proj2 (Object_get_frame gains 2 [Byte.xff; Byte.xff] 2
                         example_memory 1 [Byte.x0b; Byte.xff] eq_refl))).
Defined.

(** X17.  [Object::get] on a record with a bound data pointer:
    [get(0, ...)] stores the field count in the first byte of the buffer
    and returns 1; [get(k, ...)] for [k] above the count returns
    [FieldNotFound]; [get(k, ...)] for a field whose size exceeds the
    capacity passed returns [ParamTooShort]; otherwise it copies the
    field's [data_size] bytes at [data_ + data_offset] of the field and
    returns [data_size].  The buffer is as it was in the two error
    cases. *)
Theorem Object_get_record_field (nm : string_view) (r : Record_Info) (p : Z)
    (buffer : list byte) (size0 : Z) (m : memory) :
  let obj := {| name_ := nm; info_ := Some (IsRecord r); data_ := Some p |} in
  otype r = ClassId.Record_ →
  0 ≤ nelem r →
  ((1 ≤ length buffer)%nat →
   Object_get obj 0 buffer size0 m
   = Done (1, byte_of (nelem r) :: drop 1 buffer))
  ∧ (∀ k, nelem r < k →
       Object_get obj k buffer size0 m = Done (code FieldNotFound, buffer))
  ∧ (∀ k (field : Record_FieldInfo),
       1 ≤ k ≤ nelem r →
       fields r !! Z.to_nat (k - 1) = Some field →
       (size0 < data_size field →
        Object_get obj k buffer size0 m = Done (code ParamTooShort, buffer))
       ∧ (∀ bs,
            data_size field ≤ size0 →
            load m (p + data_offset field) (data_size field) = Some bs →
            data_size field ≤ Z.of_nat (length buffer) →
            Object_get obj k buffer size0 m
            = Done (data_size field,
                    bs ++ drop (Z.to_nat (data_size field)) buffer))).
Proof.
  intros obj Hot Hn. split; [|split].
  - intros Hbuf. unfold Object_get, obj. simpl. rewrite Hot.
    rewrite (proj2 (Z.leb_le 0 (nelem r))) by lia. simpl.
    rewrite store_buffer by (simpl; lia). done.
  - intros k Hk. unfold Object_get, obj. simpl. rewrite Hot.
    by rewrite (proj2 (Z.leb_gt k (nelem r))) by done.
  - intros k field Hk Hf. split.
    + intros Hshort. unfold Object_get, obj. simpl. rewrite Hot.
      rewrite (proj2 (Z.leb_le _ _)) by lia.
      rewrite (proj2 (Z.eqb_neq _ _)) by lia.
      rewrite (proj2 (fields_at_Done r (k - 1) field)) by (split; [lia | done]).
      simpl. by destruct (Z.gtb_spec (data_size field) size0); [|lia].
    + intros bs Hsz Hld Hbuf. by apply Object_get_record.
Qed.

Lemma Object_get_record_field_witness :
  Object_get status 1 [Byte.xff; Byte.xff] 1 example_memory
  = Done (code ParamTooShort, [Byte.xff; Byte.xff]).
Proof.
  assert (0 ≤ nelem status_info) as Hn by (change (0 ≤ 2); lia).
  destruct (Object_get_record_field (sv "status") status_info 0
              [Byte.xff; Byte.xff] 1 example_memory eq_refl Hn)
    as (_ & _ & Hfield).
  apply (Hfield 1 (FieldInfo_make int16_t Permissions.UserConfig (sv "temp") 0
                     (set_default int16_t 0 (-40) 125) (-40) 125)).
  - change (1 ≤ 1 ≤ 2). lia.
  - reflexivity.
  - change (1 < 2). lia.
Defined.

(** X18.  On an array whose extent fits the 16-bit offsets,
    [Object::info(k)] for [1 ≤ k ≤ nelem] is valid and names element
    [k - 1], and the offset and size it reports are those of the bytes
    that [Object::get(k, ...)] copies; [info(k)] is invalid for [k = 0]
    and for [k] above [nelem]; on a variable [info(k)] is invalid for
    every [k]. *)
Theorem Object_info_array (nm : string_view) (a : Array_Info) (p : Z)
    (m : memory) (buffer : list byte) (size0 : Z) :
  let obj := {| name_ := nm; info_ := Some (IsArray a); data_ := Some p |} in
  otype a = ClassId.Array →
  0 ≤ data_offset a < 65536 →
  data_offset a + type_size (type a) * nelem a ≤ 65536 →
  (∀ k n,
     1 ≤ k ≤ nelem a →
     names a !! Z.to_nat (k - 1) = Some n →
     ∃ f, Object_info obj k = Done f
          ∧ valid f = true ∧ fname f = Some n
          ∧ offset f = data_offset a + type_size (type a) * (k - 1)
          ∧ size f = type_size (type a)
          ∧ ∀ bs,
              load m (p + offset f) (size f) = Some bs →
              size f ≤ Z.of_nat (length buffer) →
              Object_get obj k buffer size0 m
              = Done (size f, bs ++ drop (Z.to_nat (size f)) buffer))
  ∧ (∀ k, k ≤ 0 ∨ nelem a < k →
       ∃ f, Object_info obj k = Done f ∧ valid f = false)
  ∧ (∀ (v : Variable_Info) dp k,
       otype v = ClassId.Variable_ →
       ∃ f, Object_info
              {| name_ := nm; info_ := Some (IsVariable v); data_ := dp |} k
            = Done f ∧ valid f = false).
Proof.
  intros obj Hot Hoff Hext.
  assert (0 ≤ type_size (type a)) as Hes by (destruct (type a); done).
  split; [|split].
  - intros k n Hk Hn.
    assert (to_uint16 (data_offset a + type_size (type a) * (k - 1))
            = data_offset a + type_size (type a) * (k - 1)) as Hu.
    { unfold to_uint16. apply Z.mod_small. nia. }
    eexists. split.
    { unfold Object_info, obj. simpl.
      destruct (Z.gtb_spec k 0); [|lia].
      destruct (Z.leb_spec k (nelem a)); [|lia]. simpl. rewrite Hot.
      unfold names_at. rewrite bool_decide_eq_true_2 by lia.
      rewrite Hn. simpl. rewrite Hu. reflexivity. }
    simpl. repeat split.
    intros bs Hld Hcap. unfold Object_get, obj. simpl. rewrite Hot.
    rewrite (proj2 (Z.leb_le k (nelem a))) by lia.
    rewrite (proj2 (Z.eqb_neq k 0)) by lia.
    rewrite Hu. by rewrite (memcpy_out_Done _ _ _ _ bs).
  - intros k Hk. unfold Object_info, obj. simpl.
    destruct (Z.gtb_spec k 0); destruct (Z.leb_spec k (nelem a));
      simpl; try lia; eexists; split; done.
  - intros v dp k Hv. unfold Object_info. simpl.
    destruct (_ && _); [rewrite Hv|]; eexists; split; done.
Qed.

Lemma Object_info_array_witness :
  ∃ f, Object_info gains 2 = Done f
       ∧ fname f = Some (sv "ki") ∧ offset f = 4 ∧ size f = 1.
Proof.
  assert (0 ≤ data_offset gains_info < 65536) as H1
    by (change (0 ≤ 3 < 65536); lia).
  assert (data_offset gains_info
          + type_size (type gains_info) * nelem gains_info ≤ 65536) as H2
    by (change (3 + 1 * 3 ≤ 65536); lia).
  assert (1 ≤ 2 ≤ nelem gains_info) as H3 by (change (1 ≤ 2 ≤ 3); lia).
  destruct (Object_info_array (sv "gains") gains_info 0 example_memory [] 0
              eq_refl H1 H2) as (Hin & _).
  destruct (Hin 2 (sv "ki") H3 eq_refl) as (f & Hf & _ & Hn & Ho & Hs & _).
  exists f. split; [exact Hf|]. split; [exact Hn|]. split; [exact Ho | exact Hs].
Defined.

(** X19.  [Array::Info::find(name)] returns the position of the first
    element whose name equals [name] up to the case of the letters, and
    [nelem] when there is none; [operator[]] at the position found
    returns that element's name, and the empty view at [nelem]. *)
Theorem Array_find_at (a : Array_Info) (nm : string_view) :
  0 ≤ nelem a ≤ 255 →
  nelem a ≤ Z.of_nat (length (names a)) →
  ∃ i, Array_find a nm = Done i
       ∧ 0 ≤ i ≤ nelem a
       ∧ (∀ j n, 0 ≤ j < i → names a !! Z.to_nat j = Some n →
                 string_view_eq n nm = false)
       ∧ (i < nelem a →
          ∃ n, Array_at a i = Done n ∧ names a !! Z.to_nat i = Some n
               ∧ string_view_eq n nm = true)
       ∧ (i = nelem a → Array_at a i = Done []).
Proof.
  intros Hn Hlen. unfold Array_find. rewrite scan_spec by lia.
  simpl.
  destruct (list_find _ (take (Z.to_nat (nelem a)) (names a)))
    as [[k n]|] eqn:Hlf.
  - apply list_find_Some in Hlf as (Hk & Hp & Hfirst).
    pose proof (lookup_lt_Some _ _ _ Hk) as Hklt.
    rewrite length_take in Hklt.
    rewrite lookup_take_lt in Hk by lia.
    assert (to_uint8 (0 + Z.of_nat k) = Z.of_nat k) as ->.
    { unfold to_uint8. rewrite Z.mod_small; lia. }
    eexists. split; [done|]. split; [lia|]. split; [|split].
    + intros j n' Hj Hn'.
      specialize (Hfirst (Z.to_nat j) n'). 
      rewrite lookup_take_lt in Hfirst by lia.
      specialize (Hfirst Hn' ltac:(lia)).
      by destruct (string_view_eq n' nm).
    + intros _. exists n. unfold Array_at, names_at.
      rewrite (proj2 (Z.ltb_lt _ _)) by lia.
      rewrite bool_decide_eq_true_2 by lia.
      rewrite Nat2Z.id, Hk. done.
    + intros Heq. lia.
  - apply list_find_None in Hlf. rewrite Forall_forall in Hlf.
    assert (to_uint8 (0 + Z.of_nat (Z.to_nat (nelem a))) = nelem a) as ->.
    { unfold to_uint8. rewrite Z.mod_small; lia. }
    eexists. split; [done|]. split; [lia|]. split; [|split].
    + intros j n' Hj Hn'.
      assert (n' ∈ take (Z.to_nat (nelem a)) (names a)) as Hin.
      { apply list_elem_of_lookup_2 with (Z.to_nat j).
        rewrite lookup_take_lt by lia. done. }
      specialize (Hlf n' Hin). by destruct (string_view_eq n' nm).
    + lia.
    + intros _. unfold Array_at. by rewrite Z.ltb_irrefl.
Qed.

Lemma Array_find_at_witness :
  Array_find gains_info (sv "KD") = Done 2
  ∧ Array_find gains_info (sv "zz") = Done 3.
Proof.
  assert (0 ≤ nelem gains_info ≤ 255) as H1 by (change (0 ≤ 3 ≤ 255); lia).
  assert (nelem gains_info ≤ Z.of_nat (length (names gains_info))) as H2
    by (change (3 ≤ 4); lia).
  split.
  - destruct (Array_find_at gains_info (sv "KD") H1 H2) as (i & Hi & _).
    rewrite Hi. vm_compute in Hi. symmetry. exact Hi.
  - destruct (Array_find_at gains_info (sv "zz") H1 H2) as (i & Hi & _).
    rewrite Hi. vm_compute in Hi. symmetry. exact Hi.
Defined.

(** ** Further properties: metadata and set strategies *)

Lemma total_size_app (fs gs : list Record_FieldInfo) :
  total_size (fs ++ gs) = total_size fs + total_size gs.
Proof.
  induction fs as [|f fs IH]; simpl; [done|]. rewrite IH. lia.
Qed.

Lemma total_size_nonneg (fs : list Record_FieldInfo) :
  (∀ i (f : Record_FieldInfo), fs !! i = Some f → 0 ≤ data_size f) →
  0 ≤ total_size fs.
Proof.
  induction fs as [|f fs IH]; intros H; simpl; [done|].
  pose proof (H 0%nat f eq_refl).
  assert (0 ≤ total_size fs); [|lia].
  apply IH. intros i g Hg. by apply (H (S i)).
Qed.

(** One more field behind a contiguous list. *)
Lemma contiguous_snoc (l : FieldList) (T : ctype) (offset0 : Z)
    (new : Record_FieldInfo) :
  contiguous l →
  0 ≤ offset0 → offset0 + sizeof T < 65536 →
  length (fields_arr l) = 0%nat ∨ offset0 = Size l + Offset l →
  data_offset new = to_uint16 offset0 → data_size new = sizeof T →
  contiguous
    {| fields_arr := fields_arr l ++ [new];
       Offset := if bool_decide (length (fields_arr l) = 0%nat)
                 then to_uint16 offset0 else Offset l;
       Size := if bool_decide (length (fields_arr l) = 0%nat)
               then to_uint16 (sizeof T)
               else to_uint16 (Size l + sizeof T) |}.
Proof.
  intros (Hoff & Hfields & Hsize) Ho Hfit Hguard Hdo Hds.
  pose proof (sizeof_pos T) as Hpos.
  assert (to_uint16 offset0 = offset0) as Hu
    by (unfold to_uint16; apply Z.mod_small; lia).
  assert (to_uint16 (sizeof T) = sizeof T) as Hus
    by (unfold to_uint16; apply Z.mod_small; lia).
  rewrite Hu in Hdo. rewrite Hu, Hus.
  unfold contiguous. simpl.
  destruct (fields_arr l) as [|f0 fs] eqn:Hfs; simpl.
  - split; [done|]. split.
    + intros i f Hf. destruct i as [|i]; [|done]. injection Hf as <-.
      simpl. rewrite Hds, Hdo. lia.
    + intros _. rewrite Hds. lia.
  - destruct Hguard as [Hguard|Hguard]; [done|].
    specialize (Hsize ltac:(done)).
    pose proof (total_size_nonneg (f0 :: fs)
                  (λ i f Hf, proj1 (Hfields i f Hf))) as Hnn.
    assert (to_uint16 (Size l + sizeof T) = Size l + sizeof T) as ->
      by (unfold to_uint16; apply Z.mod_small; lia).
    split; [done|]. split.
    + intros i f Hf.
      change (f0 :: fs ++ [new]) with ((f0 :: fs) ++ [new]) in Hf |- *.
      destruct (decide (i < length (f0 :: fs))%nat) as [Hi|Hi].
      * rewrite lookup_app_l in Hf by done.
        rewrite take_app_le by lia. by apply Hfields.
      * rewrite lookup_app_r in Hf by lia.
        destruct (i - length (f0 :: fs))%nat as [|?] eqn:Hd; [|done].
        injection Hf as <-.
        assert (i = length (f0 :: fs)) as -> by lia.
        rewrite take_app_length. rewrite Hds, Hdo. lia.
    + intros _.
      change (f0 :: fs ++ [new]) with ((f0 :: fs) ++ [new]).
      rewrite total_size_app.
      change (total_size [new]) with (data_size new + 0). rewrite Hds.
      simpl in Hsize. lia.
Qed.

(** X20.  The field lists that [Record::fields()], [field] and
    [setter_field] build are contiguous: the empty list is, and a
    declaration that the check on gaps accepts, with an offset and a size
    that fit 16 bits, adds one field behind the others and keeps the list
    contiguous, so every field starts where the one before it ends and
    [Size] is the sum of the field sizes. *)
Theorem FieldList_contiguous (l : FieldList) (T : ctype)
    (member offset0 min max : Z) (perm0 : Permissions.t) (nm : string_view) :
  contiguous Record_fields
  ∧ (contiguous l → 0 ≤ offset0 → offset0 + sizeof T < 65536 →
     (∀ setf l',
        FieldList_field l T member offset0 min max perm0 nm setf = Some l' →
        contiguous l'
        ∧ length (fields_arr l') = S (length (fields_arr l)))
     ∧ (∀ setf l',
          FieldList_setter_field l T setf offset0 min max perm0 nm = Some l' →
          contiguous l'
          ∧ length (fields_arr l') = S (length (fields_arr l)))).
Proof.
  split.
  - unfold contiguous, Record_fields. simpl. split; [done|]. split; done.
  - intros Hl Ho Hfit. split.
    + intros setf l'. unfold FieldList_field.
      case_bool_decide as Hguard; [|done]. intros [= <-]. split.
      * by apply (contiguous_snoc l T offset0).
      * simpl. rewrite length_app. simpl. lia.
    + intros setf l'. unfold FieldList_setter_field.
      case_bool_decide as Hguard; [|done]. intros [= <-]. split.
      * by apply (contiguous_snoc l T offset0).
      * simpl. rewrite length_app. simpl. lia.
Qed.

Lemma FieldList_contiguous_witness :
  contiguous status_fields.
Proof.
  pose (l1 := {| fields_arr :=
                   [FieldInfo_make int16_t Permissions.UserConfig (sv "temp") 0
                      (set_default int16_t 0 (-40) 125) (-40) 125];
                 Offset := 0; Size := 2 |}).
  assert (0 ≤ 0) as H0 by lia.
  assert (0 + sizeof int16_t < 65536) as H1 by (change (0 + 2 < 65536); lia).
  assert (0 ≤ 2) as H2 by lia.
  assert (2 + sizeof uint8_t < 65536) as H3 by (change (2 + 1 < 65536); lia).
  destruct (FieldList_contiguous Record_fields int16_t 0 0 (-40) 125
              Permissions.UserConfig (sv "temp")) as [Hnil Hstep].
  destruct (Hstep Hnil H0 H1) as [Hfield _].
  destruct (Hfield (set_default int16_t 0 (-40) 125) l1 eq_refl) as [Hl1 _].
  destruct (FieldList_contiguous l1 uint8_t 2 2 0 0
              Permissions.Status (sv "flags")) as [_ Hstep2].
  destruct (Hstep2 Hl1 H2 H3) as [Hfield2 _].
  exact (proj1 (Hfield2 set_readonly status_fields eq_refl)).
Defined.

(** X21.  A range-based [for] over an object whose count is [N] visits the
    sub-indices [0, 1, ..., N - 1] in this order and ends: it visits
    sub-index 0, where [Object::info] is invalid, and not sub-index
    [N]. *)
Theorem Object_range_visits (o : Object) (i : InfoObject) :
  info_ o = Some i →
  0 ≤ nelem (header i) ≤ 255 →
  ∃ e, Object_end o = Done e
       ∧ (∀ n, (Z.to_nat (nelem (header i)) ≤ n)%nat →
            Object_range n (Object_begin o) e
            = Some ((λ k, {| Field.object := o; Field.id := k |})
                      <$> seqZ 0 (nelem (header i))))
       ∧ ∃ f, Field.info (Object_begin o) = Done f ∧ valid f = false.
Proof.
  intros Hi HN. unfold Object_end, Object_info_ref. rewrite Hi. simpl.
  eexists. split; [done|]. split.
  - set (N := nelem (header i)) in *.
    set (e := {| Field.object := o; Field.id := N |}).
    set (mk := λ k, {| Field.object := o; Field.id := k |}).
    assert (∀ c n k, (c ≤ n)%nat → 0 ≤ k → k + Z.of_nat c = N →
              Object_range n (mk k) e = Some (mk <$> seqZ k (Z.of_nat c)))
      as Hloop.
    { induction c as [|c IH]; intros n k Hn Hk Hc.
      - assert (k = N) as -> by lia.
        destruct n; simpl; unfold Field.ne; simpl;
          by rewrite Z.eqb_refl.
      - destruct n as [|n]; [lia|]. simpl. unfold Field.ne. simpl.
        rewrite (proj2 (Z.eqb_neq k N)) by lia. simpl.
        unfold Field.next. simpl.
        assert (to_uint8 (k + 1) = k + 1) as ->
          by (unfold to_uint8; apply Z.mod_small; lia).
        fold (mk (k + 1)). rewrite (IH n (k + 1)) by lia. simpl.
        rewrite (seqZ_cons k) by lia. rewrite fmap_cons.
        replace (Z.succ k) with (k + 1) by lia.
        by replace (Z.pred (Z.of_nat (S c))) with (Z.of_nat c) by lia. }
    intros n Hn. unfold Object_begin. fold (mk 0).
    rewrite (Hloop (Z.to_nat N) n 0) by lia. by rewrite Z2Nat.id by lia.
  - unfold Field.info, Object_begin, Object_info, Object_info_ref. simpl.
    rewrite Hi. simpl. eexists. split; done.
Qed.

Lemma Object_range_visits_witness :
  ∃ e, Object_end status = Done e
       ∧ Field.id <$> default [] (Object_range 5 (Object_begin status) e)
         = [0; 1].
Proof.
  assert (0 ≤ nelem (header (IsRecord status_info)) ≤ 255) as HN
    by (change (0 ≤ 2 ≤ 255); lia).
  destruct (Object_range_visits status (IsRecord status_info) eq_refl HN)
    as (e & He & Hvisit & _).
  exists e. split; [exact He|].
  rewrite Hvisit by (change (2 ≤ 5)%nat; lia). reflexivity.
Defined.

(** X22.  [set_string_variable<Length>] on an object with bound storage
    and a non-null argument of [size] readable bytes: a longer argument,
    and an argument of exactly [Length] bytes whose last byte is not NUL,
    give [ParamTooLong] and leave the storage as it was; every other
    argument is stored followed by zero bytes up to [Length], so that the
    [Length] bytes of the variable always hold a NUL afterwards, and no
    byte outside them changes. *)
Theorem set_string_variable_spec (depth : nat) (Length : Z)
    (nm : string_view) (i : InfoObject) (p subIdx0 : Z) (bs : list byte)
    (size0 : Z) (m : memory) :
  let obj := {| name_ := nm; info_ := Some i; data_ := Some p |} in
  let addr := p + data_offset (header i) in
  let set := call_set (S depth) (set_string_variable Length) obj subIdx0
               (Some bs) size0 m in
  0 < Length →
  0 ≤ addr → addr + Length ≤ Z.of_nat (length m) →
  0 ≤ size0 ≤ Z.of_nat (length bs) →
  (Length < size0 → set = Done (code ParamTooLong, m))
  ∧ (∀ c, size0 = Length → bs !! Z.to_nat (size0 - 1) = Some c →
          byte_value c ≠ 0 → set = Done (code ParamTooLong, m))
  ∧ (size0 < Length
     ∨ (size0 = Length
        ∧ ∃ c, bs !! Z.to_nat (size0 - 1) = Some c ∧ byte_value c = 0) →
     let stored := take (Z.to_nat size0) bs
                   ++ replicate (Z.to_nat (Length - size0)) Byte.x00 in
     ∃ m', set = Done (code OK, m')
           ∧ store m addr stored = Some m'
           ∧ load m' addr Length = Some stored
           ∧ Byte.x00 ∈ stored).
Proof. apply set_string_spec. Qed.

Lemma set_string_variable_spec_witness :
  ∃ m', call_set 1 (set_string_variable 4)
          {| name_ := sv "tag";
             info_ := Some (IsVariable
                        (Variable_make_string_info 4 Permissions.UserConfig));
             data_ := Some 2 |}
          0 (Some [Byte.x41; Byte.x42]) 2 example_memory
        = Done (code OK, m')
        ∧ load m' 2 4 = Some [Byte.x41; Byte.x42; Byte.x00; Byte.x00].
Proof.
  assert (0 < 4) as H0 by lia.
  assert (0 ≤ 2 + data_offset (header (IsVariable
            (Variable_make_string_info 4 Permissions.UserConfig)))) as H1
    by (change (0 ≤ 2 + 0); lia).
  assert (2 + data_offset (header (IsVariable
            (Variable_make_string_info 4 Permissions.UserConfig))) + 4
          ≤ Z.of_nat (length example_memory)) as H2
    by (change (2 + 0 + 4 ≤ 8); lia).
  assert (0 ≤ 2 ≤ Z.of_nat (length [Byte.x41; Byte.x42])) as H3
    by (change (0 ≤ 2 ≤ 2); lia).
  destruct (set_string_variable_spec 0 4 (sv "tag")
              (IsVariable (Variable_make_string_info 4 Permissions.UserConfig))
              2 0 [Byte.x41; Byte.x42] 2 example_memory H0 H1 H2 H3)
    as (_ & _ & Hok).
  assert (2 < 4) as H4 by lia.
  destruct (Hok (or_introl H4)) as (m' & Hset & _ & Hld & _).
  exists m'. split; [exact Hset | exact Hld].
Defined.

(** X23.  Chaining is associative: the two ways of nesting a chain of
    three set functions return the same result and leave the same
    storage, and they call the three functions under the same
    conditions.  (The nestings differ in the call depth they use: what
    one returns within a depth the other returns within one more.) *)
Theorem set_chain_assoc (depth : nat) (f1 f2 f3 : SetFunctionType)
    (obj : Object) (k : Z) (data : option (list byte)) (size0 : Z)
    (m : memory) (r : result (Z * memory)) :
  r ≠ Timeout →
  (call_set depth (set_chain (set_chain f1 f2) f3) obj k data size0 m = r →
   call_set (S depth) (set_chain f1 (set_chain f2 f3)) obj k data size0 m = r)
  ∧ (call_set depth (set_chain f1 (set_chain f2 f3)) obj k data size0 m = r →
     call_set (S depth) (set_chain (set_chain f1 f2) f3) obj k data size0 m
     = r).
Proof.
  intros Hr. split; intros Hcall.
  - by apply set_chain_assoc_l.
  - by apply set_chain_assoc_r.
Qed.

Lemma set_chain_assoc_witness :
  call_set 4 (set_chain (set_variable uint8_t 0 0)
                (set_chain set_readonly (set_variable uint8_t 0 0)))
    chained_flag 0 (Some [Byte.x05]) 1 [Byte.x00]
  = Done (code ReadOnly, [Byte.x05]).
Proof.
  assert (Done (code ReadOnly, [Byte.x05]) ≠ (Timeout : result (Z * memory)))
    as Hr by discriminate.
  apply (proj1 (set_chain_assoc 3 (set_variable uint8_t 0 0) set_readonly
                  (set_variable uint8_t 0 0) chained_flag 0
                  (Some [Byte.x05]) 1 [Byte.x00] _ Hr)).
  reflexivity.
Defined.

(** X24.  A string variable made by [Variable::make_string_info<Length>]
    reads back what was written: after [set(0, s)] with an argument the
    strategy accepts, [get(0, buffer, capacity)] with a capacity above
    [Length] returns [Length] and the buffer begins with the bytes of [s]
    followed by zero bytes up to [Length]. *)
Theorem string_variable_roundtrip (depth : nat) (Length : Z)
    (perm0 : Permissions.t) (nm : string_view) (p : Z) (s buffer : list byte)
    (capacity : Z) (m : memory) :
  let obj := {| name_ := nm;
                info_ := Some (IsVariable
                           (Variable_make_string_info Length perm0));
                data_ := Some p |} in
  let stored := s ++ replicate (Z.to_nat (Length - Z.of_nat (length s)))
                       Byte.x00 in
  0 < Length →
  0 ≤ p → p + Length ≤ Z.of_nat (length m) →
  Z.of_nat (length s) < Length ∨ (Z.of_nat (length s) = Length
                                   ∧ last s = Some Byte.x00) →
  Length < capacity → Length ≤ Z.of_nat (length buffer) →
  ∃ m', Object_set (S depth) obj 0 (Some s) (Z.of_nat (length s)) m
        = Done (code OK, m')
        ∧ Object_get obj 0 buffer capacity m'
          = Done (Length, stored ++ drop (Z.to_nat Length) buffer).
Proof.
  intros obj stored HL Hp Hfit Hterm Hcap Hbuf.
  destruct (set_string_spec depth Length nm
              (IsVariable (Variable_make_string_info Length perm0))
              p 0 s (Z.of_nat (length s)) m)
    as (_ & _ & Hok); try (simpl; lia).
  destruct Hok as (m' & Hset & _ & Hld & _).
  { destruct Hterm as [?|[Heq Hlast]]; [by left|]. right. split; [done|].
    exists Byte.x00. split; [|done].
    rewrite last_lookup in Hlast.
    replace (Z.to_nat (Z.of_nat (length s) - 1)) with (pred (length s)) by lia.
    done. }
  rewrite Nat2Z.id, firstn_all in Hld. fold stored in Hld.
  simpl in Hld. rewrite Z.add_0_r in Hld.
  exists m'. split.
  - unfold Object_set, Object_info_ref, obj. simpl. exact Hset.
  - destruct (Object_get_variable nm
                (IsVariable (Variable_make_string_info Length perm0))
                p buffer capacity m') as (Hget & _); [done|].
    simpl in Hget. apply Hget; [done | by rewrite Z.add_0_r | done].
Qed.

Lemma string_variable_roundtrip_witness :
  ∃ m', Object_set 1
          {| name_ := sv "tag";
             info_ := Some (IsVariable
                        (Variable_make_string_info 4 Permissions.UserConfig));
             data_ := Some 2 |}
          0 (Some [Byte.x41; Byte.x42]) 2 example_memory
        = Done (code OK, m')
        ∧ Object_get
            {| name_ := sv "tag";
               info_ := Some (IsVariable
                          (Variable_make_string_info 4 Permissions.UserConfig));
               data_ := Some 2 |}
            0 (replicate 6 Byte.xff) 5 m'
          = Done (4, [Byte.x41; Byte.x42; Byte.x00; Byte.x00;
                      Byte.xff; Byte.xff]).
Proof.
  assert (0 < 4) as H0 by lia.
  assert (0 ≤ 2) as H1 by lia.
  assert (2 + 4 ≤ Z.of_nat (length example_memory)) as H2
    by (change (2 + 4 ≤ 8); lia).
  assert (Z.of_nat (length [Byte.x41; Byte.x42]) < 4) as H3
    by (change (2 < 4); lia).
  assert (4 < 5) as H4 by lia.
  assert (4 ≤ Z.of_nat (length (replicate 6 Byte.xff))) as H5
    by (change (4 ≤ 6); lia).
  exact (string_variable_roundtrip 0 4 Permissions.UserConfig (sv "tag") 2
           [Byte.x41; Byte.x42] (replicate 6 Byte.xff) 5 example_memory
           H0 H1 H2 (or_introl H3) H4 H5).
Defined.

(** ** Sorted indices *)

Lemma StronglySorted_lookup {A : Type} (R : relation A) (l : list A) :
  StronglySorted R l →
  ∀ i j x y, (i < j)%nat → l !! i = Some x → l !! j = Some y → R x y.
Proof.
  induction 1 as [|z l Hs IH Hall]; intros i j x y Hij Hx Hy; [done|].
  destruct j as [|j]; [lia|]. destruct i as [|i]; simpl in *.
  - injection Hx as <-. rewrite Forall_forall in Hall. apply Hall.
    by apply list_elem_of_lookup_2 with j.
  - apply (IH i j); [lia | done | done].
Qed.

(** An array sorted by a key under a strict weak order, searched by
    [lower_bound] and an equivalence test, as the indices do. *)
Section sorted_index.
Context {T K : Type} (k : T → K) (ltK eqK : K → K → bool).
Hypothesis lt_irrefl : ∀ a, ltK a a = false.
Hypothesis lt_trans : ∀ a b c, ltK a b = true → ltK b c = true → ltK a c = true.
Hypothesis lt_negtrans :
  ∀ a b c, ltK a c = true → ltK a b = true ∨ ltK b c = true.
Hypothesis eq_equiv :
  ∀ a b, eqK a b = true ↔ ltK a b = false ∧ ltK b a = false.

Lemma sorted_index_find (strings : list T) (s : K) :
  ∃ idx, sort (λ l r, ltK (k l) (k r)) strings = Some idx
    ∧ idx ≡ₚ strings
    ∧ ∃ it, lower_bound idx 0 (length idx) s (λ l s, ltK (k l) s) = Some it
        ∧ (it ≤ length idx)%nat
        ∧ (it = length idx →
           ∀ e, e ∈ strings → eqK (k e) s = false)
        ∧ (∀ x, idx !! it = Some x →
             x ∈ strings
             ∧ (eqK (k x) s = false →
                ∀ e, e ∈ strings → eqK (k e) s = false)).
Proof.
  destruct (sort_strict_weak (λ l r, ltK (k l) (k r)) strings) with strings
    as (idx & Hsort & Hperm & Hsorted); try done.
  { intros x y z. apply lt_trans. }
  { intros x y z. apply lt_negtrans. }
  exists idx. split; [done|]. split; [done|].
  destruct (lower_bound_point (λ l s, ltK (k l) s) idx s 0 (length idx))
    as (it & Hlb & Hrange & Hpoint); [lia | lia |].
  destruct Hpoint as [Hlo Hhi].
  { intros i j x y _ Hij Hj Hx Hy Hlt.
    destruct (decide (i = j)) as [->|Hne]; [congruence|].
    pose proof (StronglySorted_lookup _ _ Hsorted i j x y ltac:(lia) Hx Hy)
      as Hxy. simpl in Hxy.
    destruct (lt_negtrans _ (k x) _ Hlt) as [?|?]; [congruence | done]. }
  assert (∀ e, ltK (k e) s = true → eqK (k e) s = false) as Hbelow.
  { intros e He. destruct (eqK (k e) s) eqn:Heq; [|done].
    apply eq_equiv in Heq as [? _]. congruence. }
  exists it. split; [done|]. split; [lia|]. split.
  - intros -> e He. rewrite <- Hperm in He.
    apply list_elem_of_lookup in He as [j Hj].
    apply Hbelow. apply (Hlo j); [|done].
    apply lookup_lt_Some in Hj. lia.
  - intros x Hx. split.
    { rewrite <- Hperm. by apply list_elem_of_lookup_2 with it. }
    intros Hneq e He. rewrite <- Hperm in He.
    apply list_elem_of_lookup in He as [j Hj].
    pose proof (lookup_lt_Some _ _ _ Hj) as Hjl.
    destruct (decide (j < it)%nat) as [Hlt|Hge].
    { apply Hbelow. apply (Hlo j); [lia | done]. }
    destruct (eqK (k e) s) eqn:Heq; [|done]. exfalso.
    apply eq_equiv in Heq as [Hes Hse].
    assert (ltK (k x) s = false) as Hxs by (apply (Hhi it); [lia | done]).
    assert (ltK (k e) (k x) = false) as Hex.
    { destruct (decide (j = it)) as [->|Hne].
      - assert (e = x) as -> by congruence. apply lt_irrefl.
      - apply (StronglySorted_lookup _ _ Hsorted it j x e); [lia|done|done]. }
    assert (ltK s (k x) = false) as Hsx.
    { destruct (ltK s (k x)) eqn:H; [|done].
      destruct (lt_negtrans _ (k e) _ H); congruence. }
    assert (eqK (k x) s = true) by (by apply eq_equiv). congruence.
Qed.

End sorted_index.

Lemma string_view_lt_order :
  (∀ a, string_view_lt a a = false)
  ∧ (∀ a b c, string_view_lt a b = true → string_view_lt b c = true →
              string_view_lt a c = true)
  ∧ (∀ a b c, string_view_lt a c = true →
              string_view_lt a b = true ∨ string_view_lt b c = true)
  ∧ (∀ a b, string_view_eq a b = true
            ↔ string_view_lt a b = false ∧ string_view_lt b a = false).
Proof.
  unfold string_view_lt, string_view_eq. split; [|split; [|split]].
  - intros a. by rewrite compare_refl.
  - intros a b c. rewrite !Z.ltb_lt. intros H1 H2.
    apply (compare_trans a b c); [lia | lia | by left].
  - intros a b c. rewrite !Z.ltb_lt. intros Hac.
    destruct (decide (compare a b < 0)) as [|Hab]; [by left|].
    destruct (decide (compare b c < 0)) as [|Hbc]; [by right|].
    exfalso.
    pose proof (compare_antisym a b). pose proof (compare_antisym b c).
    pose proof (compare_antisym a c).
    destruct (compare_trans c b a) as [Hca _]; lia.
  - intros a b. rewrite Z.eqb_eq, !Z.ltb_ge.
    pose proof (compare_antisym a b). lia.
Qed.

Lemma Z_lt_order :
  (∀ a, (a <? a) = false)
  ∧ (∀ a b c, (a <? b) = true → (b <? c) = true → (a <? c) = true)
  ∧ (∀ a b c, (a <? c) = true → (a <? b) = true ∨ (b <? c) = true)
  ∧ (∀ a b, (a =? b) = true ↔ (a <? b) = false ∧ (b <? a) = false).
Proof.
  split; [|split; [|split]].
  - intros a. apply Z.ltb_irrefl.
  - intros a b c. rewrite !Z.ltb_lt. lia.
  - intros a b c. rewrite !Z.ltb_lt. lia.
  - intros a b. rewrite Z.eqb_eq, !Z.ltb_ge. lia.
Qed.

(** ** Further properties: the indices of index.hpp *)

(** X25.  A [name_index] stores a rearrangement of the named values it is
    given; [find(string)] returns one of them whose name equals [string]
    up to the case of the letters, and null exactly when there is none;
    [get(string, default_value)] returns the value of the entry that
    [find] returns, and [default_value] where [find] returns null. *)
Theorem name_index_find_spec (strings : list index.named_value)
    (s : string_view) (dflt : Z) :
  ∃ idx res, index.name_index strings = Some idx
    ∧ idx ≡ₚ strings
    ∧ index.name_index_find idx s = Some res
    ∧ (∀ e, res = Some e →
            e ∈ strings ∧ string_view_eq (index.name e) s = true)
    ∧ (res = None ↔
       ∀ e, e ∈ strings → string_view_eq (index.name e) s = false)
    ∧ index.name_index_get idx s dflt
      = Some (from_option index.value dflt res).
Proof.
  destruct string_view_lt_order as (Hirr & Htr & Hneg & Heq).
  destruct (sorted_index_find index.name string_view_lt string_view_eq
              Hirr Htr Hneg Heq strings s)
    as (idx & Hsort & Hperm & it & Hlb & Hle & Hend & Hat).
  exists idx. unfold index.name_index, index.name_index_find,
    index.name_index_get, index.compare_name.
  rewrite Hlb. simpl. case_bool_decide as Hit.
  - destruct (lookup_lt_is_Some_2 idx it) as [x Hx]; [lia|].
    rewrite Hx. simpl. destruct (Hat x Hx) as [Hin Hnone].
    destruct (string_view_eq (index.name x) s) eqn:Hxs.
    + exists (Some x). split; [done|]. split; [done|]. split; [done|].
      split; [by intros e [= <-]|]. split; [|done].
      split; [done|]. intros Habs. specialize (Habs x Hin). congruence.
    + exists None. split; [done|]. split; [done|]. split; [done|].
      split; [done|]. split; [|done]. split; [|done]. intros _. by apply Hnone.
  - exists None. split; [done|]. split; [done|]. split; [done|].
    split; [done|]. split; [|done]. split; [|done]. intros _. apply Hend.
    destruct (decide (it = length idx)); [done | lia].
Qed.

(** X26.  A [value_index] stores a rearrangement of the named values it is
    given; [find(value)] returns one of them that has this value, and
    null exactly when there is none. *)
Theorem value_index_find_spec (strings : list index.named_value) (v : Z) :
  ∃ idx res, index.value_index strings = Some idx
    ∧ idx ≡ₚ strings
    ∧ index.value_index_find idx v = Some res
    ∧ (∀ e, res = Some e → e ∈ strings ∧ index.value e = v)
    ∧ (res = None ↔ ∀ e, e ∈ strings → index.value e ≠ v).
Proof.
  destruct Z_lt_order as (Hirr & Htr & Hneg & Heq).
  destruct (sorted_index_find index.value Z.ltb Z.eqb
              Hirr Htr Hneg Heq strings v)
    as (idx & Hsort & Hperm & it & Hlb & Hle & Hend & Hat).
  exists idx. unfold index.value_index, index.value_index_find,
    index.compare_value.
  rewrite Hlb. simpl.
  assert ((∀ e, e ∈ strings → (index.value e =? v) = false) →
          ∀ e, e ∈ strings → index.value e ≠ v) as Hconv.
  { intros H e He. apply Z.eqb_neq. by apply H. }
  case_bool_decide as Hit.
  - destruct (lookup_lt_is_Some_2 idx it) as [x Hx]; [lia|].
    rewrite Hx. simpl. destruct (Hat x Hx) as [Hin Hnone].
    destruct (Z.eqb_spec (index.value x) v) as [Hxv|Hxv].
    + exists (Some x). split; [done|]. split; [done|]. split; [done|].
      split; [by intros e [= <-]|].
      split; [done|]. intros Habs. by specialize (Habs x Hin).
    + exists None. split; [done|]. split; [done|]. split; [done|].
      split; [done|]. split; [|done]. intros _.
      apply Hconv. by apply Hnone.
  - exists None. split; [done|]. split; [done|]. split; [done|].
    split; [done|]. split; [|done]. intros _.
    apply Hconv. apply Hend.
    destruct (decide (it = length idx)); [done | lia].
Qed.

(** ** Decimal numbers *)

Lemma decimal_snoc ds ch : decimal (ds ++ [ch]) = decimal ds * 10 + (char_code ch - 48).
Proof. unfold decimal. by rewrite foldl_app. Qed.

Lemma isdigit_value ch :
  eformat.isdigit ch = true → 0 ≤ char_code ch - 48 ≤ 9.
Proof. unfold eformat.isdigit. lia. Qed.

Lemma decimal_nonneg ds : Forall (λ c, eformat.isdigit c = true) ds → 0 ≤ decimal ds.
Proof.
  induction ds as [|ch ds IH] using rev_ind; intros H; [done|].
  apply Forall_app in H as [H1 H2]. apply Forall_cons in H2 as [H2 _].
  rewrite decimal_snoc. apply isdigit_value in H2. specialize (IH H1). lia.
Qed.

Lemma decimal_prefix ds es :
  Forall (λ c, eformat.isdigit c = true) (ds ++ es) →
  decimal ds ≤ decimal (ds ++ es).
Proof.
  induction es as [|ch es IH] using rev_ind; intros H.
  - by rewrite app_nil_r.
  - rewrite app_assoc in H |- *. apply Forall_app in H as [H1 H2].
    apply Forall_cons in H2 as [H2 _]. specialize (IH H1).
    rewrite decimal_snoc. apply isdigit_value in H2.
    apply Forall_app in H1 as [H1 _]. pose proof (decimal_nonneg ds H1). lia.
Qed.

Lemma decimal_take_S ds c ch :
  ds !! c = Some ch → decimal (take (S c) ds) = decimal (take c ds) * 10 + (char_code ch - 48).
Proof. intros H. rewrite (take_S_r _ _ _ H). apply decimal_snoc. Qed.

(** The loop of the parser on a run of digits [ds] at the start of the
    storage: [c] is the position of the digit read last, [value] the
    number read so far. *)
Lemma parse_uint32_loop_spec (in_ behind ds rest : list ascii) :
  in_ ++ behind = ds ++ rest →
  Forall (λ c, eformat.isdigit c = true) ds →
  ((length ds ≤ length in_)%nat
   ∧ ∃ ch, head rest = Some ch ∧ eformat.isdigit ch = false)
  ∨ length ds = S (length in_) →
  ∀ n c value,
    (c < length ds)%nat → (c ≤ length in_)%nat →
    (length ds `min` length in_ - c ≤ n)%nat →
    value = decimal (take (S c) ds) → value ≤ eformat.UINT32_MAX →
    (decimal ds ≤ eformat.UINT32_MAX →
     eformat.parse_uint32_loop n in_ behind c value
     = Done (eformat.OK, (length ds `min` length in_)%nat, decimal ds))
    ∧ (eformat.UINT32_MAX < decimal ds →
       ∃ c' v', eformat.parse_uint32_loop n in_ behind c value
                = Done (eformat.Overflow, c', v')).
Proof.
  intros Hall Hds Hstop.
  assert (∀ k, (k ≤ length ds)%nat → decimal (take k ds) ≤ decimal ds) as Hmono.
  { intros k Hk. rewrite <- (take_drop k ds) at 2.
    apply decimal_prefix. by rewrite take_drop. }
  induction n as [|n IH]; intros c value Hc HcL Hn Hval Hmax.
  - assert (c = length in_) as -> by lia.
    assert (length ds = S (length in_)) as Hlen by lia.
    simpl. rewrite bool_decide_eq_false_2 by lia.
    rewrite Hval, <- Hlen, firstn_all.
    rewrite Nat.min_r by lia.
    split; [done|]. intros Habs. rewrite Hval, <- Hlen, firstn_all in Hmax. lia.
  - simpl. case_bool_decide as HcL'.
    2:{ assert (c = length in_) as -> by lia.
        assert (length ds = S (length in_)) as Hlen by lia.
        rewrite Hval, <- Hlen, firstn_all. rewrite Nat.min_r by lia.
        split; [done|]. intros Habs.
        rewrite Hval, <- Hlen, firstn_all in Hmax. lia. }
    rewrite Hall.
    destruct (decide (S c < length ds)%nat) as [Hin|Hout].
    + destruct (lookup_lt_is_Some_2 ds (S c)) as [ch Hch]; [done|].
      rewrite lookup_app_l, Hch by done. simpl.
      assert (eformat.isdigit ch = true) as Hdig.
      { rewrite Forall_forall in Hds. apply Hds.
        by apply list_elem_of_lookup_2 with (S c). }
      rewrite Hdig. pose proof (isdigit_value ch Hdig) as Hv.
      pose proof (decimal_take_S ds (S c) ch Hch) as Hnext.
      rewrite <- Hval in Hnext.
      pose proof (Hmono (S (S c)) ltac:(lia)) as Hle.
      assert (0 ≤ value).
      { rewrite Hval. apply decimal_nonneg. by apply Forall_take. }
      assert (to_uint32 (char_code ch - 48) = char_code ch - 48) as ->
        by (unfold to_uint32; apply Z.mod_small; lia).
      unfold eformat.UINT32_MAX in *.
      destruct (Z.gtb_spec value (4294967295 / 10)) as [Hov|Hok].
      { split; [lia|]. intros _. eauto. }
      assert (to_uint32 (value * 10) = value * 10) as ->
        by (unfold to_uint32; apply Z.mod_small; lia).
      destruct (Z.gtb_spec (value * 10) (4294967295 - (char_code ch - 48)))
        as [Hov|Hok'].
      { split; [lia|]. intros _. eauto. }
      assert (to_uint32 (value * 10 + (char_code ch - 48))
              = value * 10 + (char_code ch - 48)) as ->
        by (unfold to_uint32; apply Z.mod_small; lia).
      apply IH; try done; try lia.
    + assert (S c = length ds) as Hend by lia.
      destruct Hstop as [(Hle & ch & Hch & Hnd)|Hlen]; [|lia].
      rewrite lookup_app_r by lia.
      replace (S c - length ds)%nat with 0%nat by lia.
      rewrite <- head_lookup, Hch. simpl. rewrite Hnd.
      rewrite Nat.min_l by lia. rewrite <- Hend.
      rewrite Hval. rewrite Hend, firstn_all.
      split; [done|]. intros Habs.
      rewrite Hval, Hend, firstn_all in Hmax. unfold eformat.UINT32_MAX in *. lia.
Qed.

Lemma parse_uint32_spec (in_ behind ds rest : list ascii) (v0 : Z) :
  in_ ++ behind = ds ++ rest →
  ds ≠ [] →
  Forall (λ c, eformat.isdigit c = true) ds →
  ((length ds ≤ length in_)%nat
   ∧ ∃ ch, head rest = Some ch ∧ eformat.isdigit ch = false)
  ∨ length ds = S (length in_) →
  in_ ≠ [] →
  (decimal ds ≤ eformat.UINT32_MAX →
   eformat.parse_uint32 in_ behind v0
   = Done (eformat.OK, drop (length ds) in_, decimal ds))
  ∧ (eformat.UINT32_MAX < decimal ds →
     ∃ v', eformat.parse_uint32 in_ behind v0
           = Done (eformat.Overflow, in_, v')).
Proof.
  intros Hall Hne Hds Hstop Hin.
  destruct in_ as [|ch0 in'] eqn:Hin_; [done|].
  destruct ds as [|d0 ds'] eqn:Hds_; [done|].
  assert (d0 = ch0) as -> by (simpl in Hall; congruence).
  assert (eformat.isdigit ch0 = true) as Hdig by (by inversion Hds).
  pose proof (isdigit_value ch0 Hdig) as Hv0.
  unfold eformat.parse_uint32. rewrite Hdig.
  assert (to_uint32 (char_code ch0 - 48) = char_code ch0 - 48) as ->
    by (unfold to_uint32; apply Z.mod_small; lia).
  rewrite <- Hin_ in *. rewrite <- Hds_ in *.
  destruct (parse_uint32_loop_spec in_ behind ds rest Hall Hds Hstop
              (length in_) 0%nat (char_code ch0 - 48))
    as [Hok Hov].
  { rewrite Hds_. simpl. lia. }
  { lia. }
  { lia. }
  { rewrite Hds_. unfold decimal. simpl. lia. }
  { unfold eformat.UINT32_MAX. lia. }
  split.
  - intros Hfit. rewrite (Hok Hfit). simpl.
    unfold remove_prefix. rewrite bool_decide_eq_true_2 by lia.
    f_equal. f_equal. f_equal.
    destruct (decide (length ds ≤ length in_)%nat).
    + by rewrite Nat.min_l by lia.
    + rewrite Nat.min_r by lia. by rewrite !drop_ge by lia.
  - intros Hbig. destruct (Hov Hbig) as (c' & v' & ->). simpl. eauto.
Qed.

Lemma parse_narrow_spec (MAX : Z) (in_ behind ds rest : list ascii) (v0 : Z) :
  0 ≤ MAX ≤ eformat.UINT32_MAX →
  in_ ≠ [] →
  in_ ++ behind = ds ++ rest →
  ds ≠ [] →
  Forall (λ c, eformat.isdigit c = true) ds →
  ((length ds ≤ length in_)%nat
   ∧ ∃ ch, head rest = Some ch ∧ eformat.isdigit ch = false)
  ∨ length ds = S (length in_) →
  (decimal ds ≤ MAX →
   eformat.parse_narrow MAX in_ behind v0
   = Done (eformat.OK, drop (length ds) in_, decimal ds))
  ∧ (MAX < decimal ds ≤ eformat.UINT32_MAX →
     eformat.parse_narrow MAX in_ behind v0
     = Done (eformat.Overflow, drop (length ds) in_, v0))
  ∧ (eformat.UINT32_MAX < decimal ds →
     eformat.parse_narrow MAX in_ behind v0
     = Done (eformat.Overflow, in_, v0)).
Proof.
  intros HMAX Hin Hall Hne Hds Hstop.
  destruct (parse_uint32_spec in_ behind ds rest 0 Hall Hne Hds Hstop Hin)
    as [Hok Hov].
  unfold eformat.parse_narrow.
  split; [|split].
  - intros Hfit. rewrite Hok by lia. simpl.
    destruct (Z.gtb_spec (decimal ds) MAX); [lia|done].
  - intros Hbig. rewrite Hok by lia. simpl.
    destruct (Z.gtb_spec (decimal ds) MAX); [done|lia].
  - intros Hbig. destruct (Hov Hbig) as (v' & ->). done.
Qed.

(** ** Further properties: parsing *)
(** X27.  [parse(string_view&, uint32_t&)] reads the decimal number at the
    start of the view.  The digits [ds] it reads are those up to the
    first character that is no digit; when the whole view consists of
    digits it also reads the character directly behind the view, and a
    digit there is taken as part of the number.  If the number fits
    [uint32_t] the result is [OK], the value is the number and the digits
    are removed from the view; otherwise the result is [Overflow] and the
    view is left as it was. *)
Theorem parse_uint32_decimal (in_ behind ds rest : list ascii) (v0 : Z) :
  in_ ≠ [] →
  in_ ++ behind = ds ++ rest →
  ds ≠ [] →
  Forall (λ c, eformat.isdigit c = true) ds →
  ((length ds ≤ length in_)%nat
   ∧ ∃ ch, head rest = Some ch ∧ eformat.isdigit ch = false)
  ∨ length ds = S (length in_) →
  (decimal ds ≤ eformat.UINT32_MAX →
   eformat.parse_uint32 in_ behind v0
   = Done (eformat.OK, drop (length ds) in_, decimal ds))
  ∧ (eformat.UINT32_MAX < decimal ds →
     ∃ v', eformat.parse_uint32 in_ behind v0
           = Done (eformat.Overflow, in_, v')).
Proof.
  intros Hin Hall Hne Hds Hstop.
  by apply (parse_uint32_spec in_ behind ds rest).
Qed.

Lemma parse_uint32_decimal_witness :
  eformat.parse_uint32 (sv "42") (sv "7") 0 = Done (eformat.OK, [], 427).
Proof.
  assert (sv "42" ≠ []) as Hin by (intros H; discriminate H).
  assert (sv "427" ≠ []) as Hne by (intros H; discriminate H).
  assert (Forall (λ c, eformat.isdigit c = true) (sv "427")) as Hds
    by (repeat constructor).
  apply (proj1 (parse_uint32_decimal (sv "42") (sv "7") (sv "427") [] 0
                  Hin eq_refl Hne Hds (or_intror eq_refl))).
  vm_compute. discriminate.
Defined.

(** X28.  [parse(string_view&, uint8_t&)] and
    [parse(string_view&, uint16_t&)] read the number as the [uint32_t]
    parser does.  A number that fits the type is stored, with [OK].  A
    number that fits [uint32_t] but not the type gives [Overflow] with
    the digits already removed from the view; a number beyond [uint32_t]
    gives [Overflow] with the view as it was.  On [Overflow] the value is
    not written. *)
Theorem parse_uint8_uint16 (in_ behind ds rest : list ascii) (v0 : Z) :
  in_ ≠ [] →
  in_ ++ behind = ds ++ rest →
  ds ≠ [] →
  Forall (λ c, eformat.isdigit c = true) ds →
  ((length ds ≤ length in_)%nat
   ∧ ∃ ch, head rest = Some ch ∧ eformat.isdigit ch = false)
  ∨ length ds = S (length in_) →
  let narrow (MAX : Z) parse :=
    (decimal ds ≤ MAX →
     parse in_ behind v0 = Done (eformat.OK, drop (length ds) in_, decimal ds))
    ∧ (MAX < decimal ds ≤ eformat.UINT32_MAX →
       parse in_ behind v0
       = Done (eformat.Overflow, drop (length ds) in_, v0))
    ∧ (eformat.UINT32_MAX < decimal ds →
       parse in_ behind v0 = Done (eformat.Overflow, in_, v0)) in
  narrow eformat.UINT8_MAX eformat.parse_uint8
  ∧ narrow eformat.UINT16_MAX eformat.parse_uint16.
Proof.
  intros Hin Hall Hne Hds Hstop narrow. subst narrow. cbv beta.
  split.
  - by apply (parse_narrow_spec eformat.UINT8_MAX in_ behind ds rest).
  - by apply (parse_narrow_spec eformat.UINT16_MAX in_ behind ds rest).
Qed.

Lemma parse_uint8_uint16_witness :
  eformat.parse_uint8 (sv "300 ") [] 7 = Done (eformat.Overflow, sv " ", 7)
  ∧ eformat.parse_uint16 (sv "300 ") [] 7 = Done (eformat.OK, sv " ", 300).
Proof.
  assert (sv "300 " ≠ []) as Hin by (intros H; discriminate H).
  assert (sv "300" ≠ []) as Hne by (intros H; discriminate H).
  assert (Forall (λ c, eformat.isdigit c = true) (sv "300")) as Hds
    by (repeat constructor).
  assert (((length (sv "300") ≤ length (sv "300 "))%nat
           ∧ ∃ ch, head (sv " ") = Some ch ∧ eformat.isdigit ch = false)
          ∨ length (sv "300") = S (length (sv "300 "))) as Hstop.
  { left. split; [simpl; lia|]. eexists. split; reflexivity. }
  pose proof (parse_uint8_uint16 (sv "300 ") [] (sv "300") (sv " ") 7
                Hin eq_refl Hne Hds Hstop) as [H8 H16].
  split.
  - apply (proj1 (proj2 H8)). vm_compute. split; [reflexivity|discriminate].
  - apply (proj1 H16). vm_compute. discriminate.
Defined.

(** X29.  [parse_string] accepts a view that begins and ends with a double
    quote: it copies the characters between the quotes to the buffer and
    sets [size] to their number.  It returns [ParamTooLong], with [size]
    and the buffer unchanged, when that number exceeds [size]; a view of
    less than two characters is rejected that way too, since
    [str.size() - 2] wraps around.  A view of two or more characters
    without both quotes gives [DataTypeError] with [size] already
    overwritten. *)
Theorem parse_string_spec (str : string_view) (data : list byte) (size : Z) :
  0 ≤ size →
  Z.of_nat (length str) < 2 ^ 32 →
  ((2 ≤ length str)%nat → size < Z.of_nat (length str) - 2 →
   parse_string str data size = Done (ParamTooLong, data, size))
  ∧ ((length str < 2)%nat → size < 2 ^ 32 - 2 →
     parse_string str data size = Done (ParamTooLong, data, size))
  ∧ (∀ body : list ascii,
       str = "034"%char :: body ++ ["034"%char] →
       Z.of_nat (length body) ≤ size →
       (length body ≤ length data)%nat →
       parse_string str data size
       = Done (OK, (byte_of_ascii <$> body) ++ drop (length body) data,
               Z.of_nat (length body)))
  ∧ ((2 ≤ length str)%nat → Z.of_nat (length str) - 2 ≤ size →
     head str ≠ Some "034"%char ∨ last str ≠ Some "034"%char →
     parse_string str data size
     = Done (DataTypeError, data, Z.of_nat (length str) - 2)).
Proof.
  intros Hsize Hlen.
  assert (∀ c : ascii, (char_code c =? 34) = true → c = "034"%char) as Hq.
  { intros c Hc. apply Z.eqb_eq in Hc. unfold char_code in Hc.
    rewrite <- (ascii_N_embedding c).
    replace (N_of_ascii c) with 34%N by lia. reflexivity. }
  split; [|split; [|split]].
  - intros H2 Hbig. unfold parse_string, to_uint32.
    rewrite Z.mod_small by lia.
    destruct (Z.gtb_spec (Z.of_nat (length str) - 2) size); [done|lia].
  - intros H2 Hbig. unfold parse_string, to_uint32.
    assert (Z.of_nat (length str) = 0 ∨ Z.of_nat (length str) = 1) as [->| ->]
      by lia.
    + change ((0 - 2) mod 2 ^ 32) with 4294967294.
      destruct (Z.gtb_spec 4294967294 size); [done|lia].
    + change ((1 - 2) mod 2 ^ 32) with 4294967295.
      destruct (Z.gtb_spec 4294967295 size); [done|lia].
  - intros body -> Hfit Hcap.
    rewrite length_cons, length_app in Hlen. simpl in Hlen.
    unfold parse_string, to_uint32.
    rewrite length_cons, length_app. simpl length.
    replace (Z.of_nat (S (length body + 1)) - 2) with (Z.of_nat (length body))
      by lia.
    rewrite Z.mod_small by lia.
    destruct (Z.gtb_spec (Z.of_nat (length body)) size); [lia|].
    unfold front, back, string_view_at, to_uint32.
    rewrite length_cons, length_app. simpl length.
    rewrite bool_decide_eq_true_2 by lia. simpl.
    replace (Z.of_nat (S (length body + 1)) - 1)
      with (Z.of_nat (S (length body))) by lia.
    rewrite Z.mod_small by lia.
    rewrite bool_decide_eq_true_2 by lia.
    rewrite ?Nat2Z.id.
    change (("034"%char :: body ++ ["034"%char]) !! S (length body))
      with ((body ++ ["034"%char]) !! length body).
    rewrite lookup_app_r, Nat.sub_diag by lia. simpl.
    rewrite ?bool_decide_eq_true_2 by lia.
    rewrite ?Nat2Z.id, ?drop_0, take_app_length.
    rewrite store_buffer by (rewrite length_fmap; lia).
    simpl. by rewrite length_fmap.
  - intros H2 Hfit Hnq. unfold parse_string, to_uint32.
    rewrite Z.mod_small by lia.
    destruct (Z.gtb_spec (Z.of_nat (length str) - 2) size); [lia|].
    unfold front, back, string_view_at, to_uint32.
    rewrite (Z.mod_small (Z.of_nat (length str) - 1)) by lia.
    rewrite !bool_decide_eq_true_2 by lia.
    assert (∃ b, last str = Some b
                 ∧ lift (str !! Z.to_nat (Z.of_nat (length str) - 1)) = Done b)
      as (b & Hlast & ->).
    { rewrite last_lookup.
      replace (Z.to_nat (Z.of_nat (length str) - 1))
        with (Init.Nat.pred (length str)) by lia.
      destruct (str !! Init.Nat.pred (length str)) as [b|] eqn:Hb; [by eauto|].
      apply lookup_ge_None in Hb. lia. }
    destruct str as [|f str']; [simpl in H2; lia|].
    simpl. destruct (char_code f =? 34) eqn:Hf; [|done].
    simpl. destruct (char_code b =? 34) eqn:Hbq; [|done].
    apply Hq in Hf, Hbq. subst. by destruct Hnq.
Qed.

Lemma parse_string_spec_witness :
  parse_string ("034"%char :: sv "on" ++ ["034"%char])
    (replicate 4 Byte.xff) 4
  = Done (OK, (byte_of_ascii <$> sv "on") ++ replicate 2 Byte.xff, 2).
Proof.
  assert (0 ≤ 4) as H0 by lia.
  assert (Z.of_nat (length ("034"%char :: sv "on" ++ ["034"%char])) < 2 ^ 32)
    as H1 by (simpl; lia).
  apply (proj1 (proj2 (proj2
           (parse_string_spec ("034"%char :: sv "on" ++ ["034"%char])
              (replicate 4 Byte.xff) 4 H0 H1))) (sv "on")).
  - reflexivity.
  - simpl. lia.
  - simpl. lia.
Defined.
